(** * Task orchestration core of the AI Ubuntu agent

    A shallow embedding of
    - [agent/src/planner/react.ts]   (Planner: the ReAct loop, the
      concurrency gate, tool dispatch and the approval broker),
    - [agent/src/tools/registry.ts]  (ToolRegistry.executeTool),
    - [agent/src/llm/prompts.ts]     (LLMClient: [chat], [shouldRetry],
      [getCacheKey]),
    then of what surrounds them: one step of the planner
    ([generateNextStep], [buildMessages], [formatObservation],
    [isTaskComplete], [extractResult]), the events and the stored
    fields of a task, the two consumers of the generator
    ([agent/src/api/websocket.ts], [agent/src/api/routes.ts]), the
    catalogue of the registry with the validator of the tool [exec],
    the list of fallback models and the events of the approval broker,
    followed by the properties of these components.

    Conventions.  JavaScript strings are [string]s (sequences of 8-bit
    characters), [toLowerCase] acts on the letters A-Z.  Numbers that the
    code uses as counters are [nat] or [Z]; [Date.now()] is an input.
    [Map]s are stdpp [gmap]s.  Calls that leave the modelled classes (the
    language model, a tool's [execute], zod's [safeParse], the consumer of
    a generator, timers) are inputs of the model; what the code sends to
    loggers is not modelled, emitted events and metrics are kept in a log.
    Event listeners, the logger and the metric recorders are taken not to
    throw. *)

From Stdlib Require Import ZArith String Ascii List Bool Lia.
From stdpp Require Import base option list gmap strings fin_maps.
Import ListNotations.

Local Open Scope string_scope.
Local Open Scope Z_scope.

(** ** JavaScript values used by the code *)

Module Js.

(** [s.toLowerCase()] on the letters A-Z. *)
Definition lowerAscii (c : ascii) : ascii :=
  let n := nat_of_ascii c in
  if ((65 <=? n)%nat && (n <=? 90)%nat)%bool then ascii_of_nat (n + 32) else c.

Fixpoint toLowerCase (s : string) : string :=
  match s with
  | EmptyString => EmptyString
  | String c r => String (lowerAscii c) (toLowerCase r)
  end.

(** [s.includes(sub)]: [sub] occurs in [s] as a substring. *)
Fixpoint includes (s sub : string) : bool :=
  String.prefix sub s ||
  match s with
  | EmptyString => false
  | String _ r => includes r sub
  end.

(** Truthiness of an optional string ([undefined] and the empty string are falsy). *)
Definition truthyStr (o : option string) : bool :=
  match o with
  | Some s => negb (String.eqb s EmptyString)
  | None => false
  end.

(** A value that was thrown (or a rejection reason).  [throw null],
    [throw undefined] and [Promise.reject()] give [Nullish]; every other
    value is seen by the code only through its [message] property. *)
Inductive Thrown :=
| Nullish
| Raised (message : option string).

(** The result of a call that may throw. *)
Inductive Outcome (A : Type) :=
| Returns (a : A)
| Throws (e : Thrown).
Arguments Returns {A} a.
Arguments Throws {A} e.

(** [e.message] for a caught [e]; reading a property of [null] or
    [undefined] is itself a [TypeError]. *)
Definition messageOf (e : Thrown) : Outcome (option string) :=
  match e with
  | Nullish => Throws (Raised (Some "Cannot read properties of undefined (reading 'message')"))
  | Raised m => Returns m
  end.

(** Data payloads ([any]): only their truthiness and their rendering
    matter to the planner. *)
#[warnings="-register-all"] Inductive Value :=
| VUndefined
| VNull
| VBool (b : bool)
| VNumber (n : Z)
| VString (s : string)
| VObject (json : string)
| VRecord (fields : list (string * Value))
| VSummary (steps : nat).   (* {summary: 'Task completed', steps: n} *)

Definition truthy (v : Value) : bool :=
  match v with
  | VUndefined | VNull => false
  | VBool b => b
  | VNumber n => negb (n =? 0)
  | VString s => negb (String.eqb s EmptyString)
  | VObject _ | VRecord _ | VSummary _ => true
  end.

(** [v.k] for an object given by its fields. *)
Definition field (k : string) (v : Value) : option Value :=
  match v with
  | VRecord fs => snd <$> List.find (fun p => String.eqb (fst p) k) fs
  | _ => None
  end.

(** [l.join(sep)] *)
Fixpoint join (sep : string) (l : list string) : string :=
  match l with
  | [] => EmptyString
  | [x] => x
  | x :: r => x +:+ sep +:+ join sep r
  end.

End Js.

Export Js.

(** ** The planner ([agent/src/planner/react.ts]) *)

Module Planner.

Inductive Status := queued | running | pending_approval | completed | failed.

Global Instance Status_eq_dec : EqDecision Status.
Proof. solve_decision. Defined.

Record PlanStep := {
  step_id : string;
  thought : string;
  action : option string;
  actionInput : Value;
  observation : option string;
  step_result : Value;
  timestamp : Z;
  step_error : option string;
}.

(** The [context] and [constraints] fields of a task are read by the
    prompt formatter only and are left out. *)
Record Task := {
  task_id : string;
  instruction : string;
  status : Status;
  steps : list PlanStep;
  task_result : Value;
  task_error : option string;
  timeout : Z;
  createdAt : Z;
  completedAt : option Z;
}.

Record TaskRequest := {
  req_instruction : string;
  req_timeout : option Z;
}.

Definition set_status (s : Status) (t : Task) : Task :=
  {| task_id := task_id t; instruction := instruction t; status := s;
     steps := steps t; task_result := task_result t;
     task_error := task_error t; timeout := timeout t;
     createdAt := createdAt t; completedAt := completedAt t |}.

Definition set_error (e : string) (t : Task) : Task :=
  {| task_id := task_id t; instruction := instruction t; status := status t;
     steps := steps t; task_result := task_result t;
     task_error := Some e; timeout := timeout t;
     createdAt := createdAt t; completedAt := completedAt t |}.

Definition set_completedAt (now : Z) (t : Task) : Task :=
  {| task_id := task_id t; instruction := instruction t; status := status t;
     steps := steps t; task_result := task_result t;
     task_error := task_error t; timeout := timeout t;
     createdAt := createdAt t; completedAt := Some now |}.

Definition set_result (v : Value) (t : Task) : Task :=
  {| task_id := task_id t; instruction := instruction t; status := status t;
     steps := steps t; task_result := v;
     task_error := task_error t; timeout := timeout t;
     createdAt := createdAt t; completedAt := completedAt t |}.

(** [task.steps.push(step)] *)
Definition push_step (s : PlanStep) (t : Task) : Task :=
  {| task_id := task_id t; instruction := instruction t; status := status t;
     steps := steps t ++ [s]; task_result := task_result t;
     task_error := task_error t; timeout := timeout t;
     createdAt := createdAt t; completedAt := completedAt t |}.

(** *** [isTaskComplete] *)

Definition completionPhrase (th : string) : bool :=
  includes (toLowerCase th) "task complete" ||
  includes (toLowerCase th) "successfully completed".

(** [task.steps.slice(-3)] *)
Definition lastThree (l : list PlanStep) : list PlanStep :=
  drop (length l - 3)%nat l.

Definition recentErrors (l : list PlanStep) : nat :=
  length (List.filter (fun s => truthyStr (step_error s)) (lastThree l)).

(** The result is [inl b] when the function returns [b] and [inr msg]
    when it throws [new Error(msg)]. *)
Definition isTaskComplete (t : Task) : bool + string :=
  if match last (steps t) with
     | Some lastStep => completionPhrase (thought lastStep)
     | None => false
     end
  then inl true
  else if (3 <=? recentErrors (steps t))%nat
       then inr "Too many consecutive errors"
       else inl false.

(** *** [extractResult] *)

Definition extractResult (t : Task) : Value :=
  match List.find (fun s => truthy (step_result s) && negb (truthyStr (step_error s)))
                  (rev (steps t)) with
  | Some s => step_result s
  | None => VSummary (length (steps t))
  end.

(** *** The planner's state and the generator [executeTask]

    [tasks] is the planner's [Map] of task objects.  A task object is
    shared between the map and the generator that created it, so the
    generator's assignments to [task] are writes to the map entry.
    A running generator is one [Frame]: its local variables and the
    place where it waits.  [generateNextStep], which asks the language
    model and dispatches the tool call, never throws into the loop; it
    is represented by the step it returns. *)

Record Config := {
  maxIterations : nat;
  maxConcurrentTasks : Z;
}.

Definition defaultConfig : Config :=
  {| maxIterations := 15; maxConcurrentTasks := 3 |}.

Inductive Effect :=
| Emit (event : string) (taskId : string) (st : Status)
| TaskMetric (outcome : string).

Inductive Point :=
| AwaitingStep   (* inside [await this.generateNextStep(task)] *)
| AtYield.       (* suspended at [yield step] *)

Record Frame := {
  iteration : nat;
  startTime : Z;
  point : Point;
}.

Record World := {
  tasks : gmap string Task;
  concurrentTasks : Z;
  frames : gmap string Frame;
  log : list Effect;
}.

Definition initial : World :=
  {| tasks := ∅; concurrentTasks := 0; frames := ∅; log := [] |}.

(** What drives a generator: the consumer ([Start] is its first
    [next()], [Next] a later one, [Return] is [return()], which a
    [break] out of [for await] calls, [Throw] is [throw(new Error(msg))])
    and the completion of [generateNextStep] ([StepReady]).  A generator
    runs only when its consumer resumes it.  Requests of the consumer
    that arrive while the generator is running wait until it yields, so
    [Next], [Return] and [Throw] are enabled at [yield] only.  One
    resumption reads the clock once ([now]). *)
Inductive Label :=
| Start (id : string) (req : TaskRequest) (now : Z)
| StepReady (id : string) (s : PlanStep)
| Next (id : string) (now : Z)
| Return (id : string)
| Throw (id : string) (msg : string) (now : Z).

(** What the consumer gets back. *)
Inductive Reply :=
| Pending                  (* the promise waits for [generateNextStep] *)
| Yields (s : PlanStep)    (* [{ value: step, done: false }] *)
| ReturnsTask (t : Task)   (* [{ value: task, done: true }], from [return task] *)
| Closed.                  (* [{ value: undefined, done: true }], from [return()] *)

Definition logged (es : list Effect) (w : World) : World :=
  {| tasks := tasks w; concurrentTasks := concurrentTasks w;
     frames := frames w; log := log w ++ es |}.

Section Body.
Context (cfg : Config).

(** [finally { this.concurrentTasks--; this.tasks.set(task.id, task) }] *)
Definition finallyBlock (id : string) (t : Task) (w : World) : World :=
  {| tasks := <[id := t]> (tasks w);
     concurrentTasks := concurrentTasks w - 1;
     frames := delete id (frames w);
     log := log w |}.

(** [catch (error)], then [finally], then [return task]. *)
Definition catchBlock (id : string) (t : Task) (msg : string) (now : Z)
    (w : World) : World * Reply :=
  let t := set_completedAt now (set_error msg (set_status failed t)) in
  (finallyBlock id t (logged [TaskMetric "failed"; Emit "task:failed" id failed] w),
   ReturnsTask t).

(** The end of the [try] block, then [finally], then [return task]. *)
Definition completeBlock (id : string) (t : Task) (now : Z)
    (w : World) : World * Reply :=
  let t := set_completedAt now (set_status completed t) in
  let t := set_result (extractResult t) t in
  (finallyBlock id t (logged [TaskMetric "succeeded"; Emit "task:completed" id completed] w),
   ReturnsTask t).

(** The loop test [while (!isComplete && iteration < this.maxIterations)],
    the start of an iteration up to the call of [generateNextStep], and
    what follows the loop. *)
Definition loopHead (id : string) (t : Task) (iter : nat) (isComplete : bool)
    (start now : Z) (w : World) : World * Reply :=
  if negb isComplete && (iter <? maxIterations cfg)%nat then
    let iter := S iter in
    if now - start >? timeout t * 1000
    then catchBlock id t "Task execution timeout" now w
    else ({| tasks := <[id := t]> (tasks w);
             concurrentTasks := concurrentTasks w;
             frames := <[id := {| iteration := iter; startTime := start;
                                  point := AwaitingStep |}]> (frames w);
             log := log w |}, Pending)
  else if (maxIterations cfg <=? iter)%nat
       then catchBlock id t "Maximum iterations reached" now w
       else completeBlock id t now w.

(** The generator body from its beginning. *)
Definition start (id : string) (req : TaskRequest) (now : Z)
    (w : World) : option (World * Reply) :=
  match tasks w !! id with
  | Some _ => None   (* [uuidv4()] gives an id that is not in use *)
  | None =>
      let task :=
        {| task_id := id; instruction := req_instruction req;
           status := queued; steps := [];
           task_result := VUndefined; task_error := None;
           timeout := match req_timeout req with
                      | Some n => if n =? 0 then 300 else n
                      | None => 300
                      end;
           createdAt := now; completedAt := None |} in
      let w := logged [Emit "task:created" id queued] w in
      if maxConcurrentTasks cfg <=? concurrentTasks w then
        let task := set_error "Maximum concurrent tasks reached"
                              (set_status failed task) in
        Some ({| tasks := <[id := task]> (tasks w);
                 concurrentTasks := concurrentTasks w;
                 frames := frames w;
                 log := log w ++ [Emit "task:failed" id failed;
                                  TaskMetric "failed"] |},
              ReturnsTask task)
      else
        let task := set_status running task in
        let w := {| tasks := tasks w;
                    concurrentTasks := concurrentTasks w + 1;
                    frames := frames w;
                    log := log w ++ [Emit "task:started" id running] |} in
        Some (loopHead id task 0 false now now w)
  end.

(** [generateNextStep] has returned: [task.steps.push(step); yield step]. *)
Definition stepReady (id : string) (s : PlanStep) (w : World)
    : option (World * Reply) :=
  match frames w !! id, tasks w !! id with
  | Some f, Some t =>
      match point f with
      | AwaitingStep =>
          Some ({| tasks := <[id := push_step s t]> (tasks w);
                   concurrentTasks := concurrentTasks w;
                   frames := <[id := {| iteration := iteration f;
                                        startTime := startTime f;
                                        point := AtYield |}]> (frames w);
                   log := log w |}, Yields s)
      | AtYield => None
      end
  | _, _ => None
  end.

(** The consumer resumes the generator after [yield step]. *)
Definition next (id : string) (now : Z) (w : World)
    : option (World * Reply) :=
  match frames w !! id, tasks w !! id with
  | Some f, Some t =>
      match point f with
      | AtYield =>
          match isTaskComplete t with
          | inr msg => Some (catchBlock id t msg now w)
          | inl isComplete =>
              Some (loopHead id t (iteration f) isComplete (startTime f) now
                      (logged [Emit "task:step" id (status t)] w))
          end
      | AwaitingStep => None
      end
  | _, _ => None
  end.

(** The consumer closes the generator at [yield step]: only the
    [finally] block runs. *)
Definition return_ (id : string) (w : World) : option (World * Reply) :=
  match frames w !! id, tasks w !! id with
  | Some f, Some t =>
      match point f with
      | AtYield => Some (finallyBlock id t w, Closed)
      | AwaitingStep => None
      end
  | _, _ => None
  end.

(** The consumer throws into the generator at [yield step]. *)
Definition throw (id : string) (msg : string) (now : Z) (w : World)
    : option (World * Reply) :=
  match frames w !! id, tasks w !! id with
  | Some f, Some t =>
      match point f with
      | AtYield => Some (catchBlock id t msg now w)
      | AwaitingStep => None
      end
  | _, _ => None
  end.

Definition step (l : Label) (w : World) : option (World * Reply) :=
  match l with
  | Start id req now => start id req now w
  | StepReady id s => stepReady id s w
  | Next id now => next id now w
  | Return id => return_ id w
  | Throw id msg now => throw id msg now w
  end.

(** A sequence of labels, with the replies it produced. *)
Fixpoint run (ls : list Label) (w : World) : option (World * list Reply) :=
  match ls with
  | [] => Some (w, [])
  | l :: ls =>
      match step l w with
      | Some (w, r) =>
          match run ls w with
          | Some (w, rs) => Some (w, r :: rs)
          | None => None
          end
      | None => None
      end
  end.

Inductive reachable : World -> Prop :=
| reachable_initial : reachable initial
| reachable_step w l w' r :
    reachable w -> step l w = Some (w', r) -> reachable w'.

End Body.

(** *** The order of the statuses, the invariant of the planner and the
    shape of a step *)



Definition terminal (s : Status) : Prop := s = completed \/ s = failed.

(** The tasks whose status is [running]. *)
Definition runningTasks (w : World) : nat :=
  size (filter (fun kt => status kt.2 = running) (tasks w)).

Section Shapes.
Context (cfg : Config).

Definition label_id (l : Label) : string :=
  match l with
  | Start id _ _ | StepReady id _ | Next id _ | Return id | Throw id _ _ => id
  end.

Definition frame_fits (f : Frame) (t : Task) : Prop :=
  (1 <= iteration f <= maxIterations cfg)%nat /\
  length (steps t) = match point f with
                     | AwaitingStep => pred (iteration f)
                     | AtYield => iteration f
                     end.

(** The blocks that end the generator: the task's entry is rewritten
    with a terminal status, the frame is dropped and the counter goes
    down by one. *)
Definition finished (id : string) (t : Task) (w w' : World) (r : Reply) : Prop :=
  exists t', r = ReturnsTask t' /\ terminal (status t') /\
    steps t' = steps t /\ task_id t' = task_id t /\
    tasks w' = <[id := t']> (tasks w) /\
    frames w' = delete id (frames w) /\
    concurrentTasks w' = concurrentTasks w - 1.

(** What one step does to the task of its label. *)
Inductive Summary (w w' : World) (r : Reply) (id : string) : Prop :=
| sum_new t' :
    tasks w !! id = None -> frames w !! id = None ->
    tasks w' = <[id := t']> (tasks w) -> task_id t' = id -> steps t' = [] ->
    ((status t' = running /\ r = Pending /\
      (exists f, frames w' = <[id := f]> (frames w) /\ frame_fits f t') /\
      concurrentTasks w < maxConcurrentTasks cfg /\
      concurrentTasks w' = concurrentTasks w + 1)
     \/ (terminal (status t') /\ r = ReturnsTask t' /\
         frames w' = frames w /\ concurrentTasks w' = concurrentTasks w)) ->
    Summary w w' r id
| sum_old t f t' :
    tasks w !! id = Some t -> frames w !! id = Some f ->
    tasks w' = <[id := t']> (tasks w) -> task_id t' = id ->
    steps t `prefix_of` steps t' ->
    ((status t' = running /\ (r = Pending \/ exists s, r = Yields s) /\
      (exists f', frames w' = <[id := f']> (frames w) /\ frame_fits f' t') /\
      concurrentTasks w' = concurrentTasks w)
     \/ (terminal (status t') /\ r = ReturnsTask t' /\
         steps t' = steps t /\
         frames w' = delete id (frames w) /\
         concurrentTasks w' = concurrentTasks w - 1)
     \/ (t' = t /\ r = Closed /\
         frames w' = delete id (frames w) /\
         concurrentTasks w' = concurrentTasks w - 1)) ->
    Summary w w' r id.

End Shapes.

Record Inv (cfg : Config) (w : World) : Prop := {
  inv_frame : forall id f, frames w !! id = Some f ->
    exists t, tasks w !! id = Some t /\ status t = running /\
      (1 <= iteration f <= maxIterations cfg)%nat /\
      length (steps t) = match point f with
                         | AwaitingStep => pred (iteration f)
                         | AtYield => iteration f
                         end;
  inv_task : forall id t, tasks w !! id = Some t ->
    task_id t = id /\ (length (steps t) <= maxIterations cfg)%nat /\
    (status t = running \/ terminal (status t));
  inv_counter : concurrentTasks w = Z.of_nat (size (frames w));
  inv_ceiling : concurrentTasks w <= Z.max 0 (maxConcurrentTasks cfg);
}.

(** *** Concrete runs with the default configuration *)

Definition request : TaskRequest :=
  {| req_instruction := "capture a screenshot then state task complete";
     req_timeout := None |}.

Definition plainStep (th : string) : PlanStep :=
  {| step_id := "step"; thought := th; action := None;
     actionInput := VUndefined; observation := None;
     step_result := VUndefined; timestamp := 0; step_error := None |}.

Definition failedStep (th err : string) : PlanStep :=
  {| step_id := "step"; thought := th; action := Some "exec";
     actionInput := VObject "{command: 'ls /nowhere'}";
     observation := Some ("Failed: " +:+ err);
     step_result := VUndefined; timestamp := 0; step_error := Some err |}.

(** [n] times: a step is generated and the consumer asks for the next. *)
Fixpoint rounds (id : string) (n : nat) : list Label :=
  match n with
  | O => []
  | S n => StepReady id (plainStep "Looking at the screen") :: Next id 0
           :: rounds id n
  end.

Definition worldAfter (ls : list Label) : World :=
  match run defaultConfig ls initial with
  | Some (w, _) => w
  | None => initial
  end.

(** Fourteen iterations, then the fifteenth step says the task is
    complete and is being yielded. *)
Definition capRun : list Label :=
  (Start "task-1" request 0 :: rounds "task-1" 14
   ++ [StepReady "task-1" (plainStep "The screenshot is saved. Task complete.")])%list.

(** Steps 13, 14 and 15 fail, and step 15 says the task is complete. *)
Definition errorsAtCapRun : list Label :=
  (Start "task-1" request 0 :: rounds "task-1" 12
   ++ [StepReady "task-1" (failedStep "Listing the folder" "No such file");
       Next "task-1" 0;
       StepReady "task-1" (failedStep "Trying again" "No such file");
       Next "task-1" 0;
       StepReady "task-1" (failedStep "Giving up: task complete" "No such file");
       Next "task-1" 0])%list.

(** The same three steps at the start of a task. *)
Definition errorsEarlyRun : list Label :=
  [Start "task-1" request 0;
   StepReady "task-1" (failedStep "Listing the folder" "No such file");
   Next "task-1" 0;
   StepReady "task-1" (failedStep "Trying again" "No such file");
   Next "task-1" 0;
   StepReady "task-1" (failedStep "Giving up: task complete" "No such file");
   Next "task-1" 0].

(** What the route POST /api/tasks does with a generator: it takes three
    steps and leaves its [for await] loop with [break]. *)
Definition postTask (id : string) : list Label :=
  [Start id request 0;
   StepReady id (plainStep "Looking at the screen"); Next id 0;
   StepReady id (plainStep "Opening the terminal"); Next id 0;
   StepReady id (plainStep "Typing the command"); Return id].

Definition fourPosts : list Label :=
  (postTask "task-1" ++ postTask "task-2" ++ postTask "task-3"
   ++ postTask "task-4")%list.

Definition statusOf (w : World) (id : string) : option Status :=
  status <$> tasks w !! id.

Definition errorOf (w : World) (id : string) : option string :=
  tasks w !! id ≫= task_error.

Definition stepsOf (w : World) (id : string) : list PlanStep :=
  match tasks w !! id with Some t => steps t | None => [] end.

Definition repliesAfter (ls : list Label) : list Reply :=
  match run defaultConfig ls initial with
  | Some (_, rs) => rs
  | None => []
  end.


Definition twoStepRun : list Label :=
  [Start "task-1" request 0;
   StepReady "task-1" (plainStep "Taking a screenshot");
   Next "task-1" 0;
   StepReady "task-1" (plainStep "Task complete")].

End Planner.

(** ** The approval broker ([requestApproval], [approveAction],
    [denyAction] in [agent/src/planner/react.ts]) *)

Module Broker.

Record ApprovalRequest := {
  id : string;
  taskId : string;
  tool : string;
  parameters : Value;
  riskLevel : string;
  timestamp : Z;
}.

Inductive Event :=
| ApprovalRequested (approvalId : string)
| ApprovalGranted (approvalId : string)
| ApprovalDenied (approvalId : string) (reason : option string).

(** [approvalQueue] is the planner's map of pending requests.  Each
    request belongs to one promise, the one [requestApproval] returned;
    [resolveCalls] keeps, per request id, the arguments of the calls of
    that promise's [resolve] in order (the promise settles with the first
    one), and [callbackCalls] those of the request's [callback]. *)
Record State := {
  approvalQueue : gmap string ApprovalRequest;
  resolveCalls : gmap string (list bool);
  callbackCalls : gmap string (list bool);
  emitted : list Event;
}.

Definition empty : State :=
  {| approvalQueue := ∅; resolveCalls := ∅; callbackCalls := ∅; emitted := [] |}.

Definition callsOf (m : gmap string (list bool)) (i : string) : list bool :=
  default [] (m !! i).

Definition addCall (i : string) (b : bool) (m : gmap string (list bool))
    : gmap string (list bool) :=
  <[i := (callsOf m i ++ [b])%list]> m.

(** The value the caller of [requestApproval] resumes with, if any. *)
Definition settled (st : State) (i : string) : option bool :=
  head (callsOf (resolveCalls st) i).

(** [resolve(approved)] of the promise of request [i]. *)
Definition resolve (i : string) (approved : bool) (st : State) : State :=
  {| approvalQueue := approvalQueue st;
     resolveCalls := addCall i approved (resolveCalls st);
     callbackCalls := callbackCalls st;
     emitted := emitted st |}.

(** [approvalRequest.callback]:
    [(approved) => { this.approvalQueue.delete(approvalRequest.id); resolve(approved); }] *)
Definition callback (request : ApprovalRequest) (approved : bool) (st : State) : State :=
  let st := {| approvalQueue := delete (id request) (approvalQueue st);
               resolveCalls := resolveCalls st;
               callbackCalls := addCall (id request) approved (callbackCalls st);
               emitted := emitted st |} in
  resolve (id request) approved st.

Definition emit (e : Event) (st : State) : State :=
  {| approvalQueue := approvalQueue st; resolveCalls := resolveCalls st;
     callbackCalls := callbackCalls st; emitted := (emitted st ++ [e])%list |}.

(** The executor of the promise in [requestApproval]; the timer it sets
    fires later, as [timerFires]. *)
Definition requestApproval (request : ApprovalRequest) (st : State) : State :=
  emit (ApprovalRequested (id request))
    {| approvalQueue := <[id request := request]> (approvalQueue st);
       resolveCalls := resolveCalls st;
       callbackCalls := callbackCalls st;
       emitted := emitted st |}.

(** The function given to [setTimeout(..., 30000)] by the request [i]. *)
Definition timerFires (i : string) (st : State) : State :=
  match approvalQueue st !! i with
  | Some _ =>
      resolve i false
        {| approvalQueue := delete i (approvalQueue st);
           resolveCalls := resolveCalls st;
           callbackCalls := callbackCalls st;
           emitted := emitted st |}
  | None => st
  end.

Definition approveAction (approvalId : string) (st : State) : State * bool :=
  match approvalQueue st !! approvalId with
  | Some request =>
      (emit (ApprovalGranted approvalId) (callback request true st), true)
  | None => (st, false)
  end.

Definition denyAction (approvalId : string) (reason : option string)
    (st : State) : State * bool :=
  match approvalQueue st !! approvalId with
  | Some request =>
      (emit (ApprovalDenied approvalId reason) (callback request false st), true)
  | None => (st, false)
  end.

(** What can happen to the broker, in any order. *)
Inductive Op :=
| Request (request : ApprovalRequest)
| Approve (approvalId : string)
| Deny (approvalId : string) (reason : option string)
| TimerFires (approvalId : string).

(** The state after an operation and what the operation returned. *)
Definition exec (o : Op) (st : State) : State * option bool :=
  match o with
  | Request request => (requestApproval request st, None)
  | Approve i => let (st, b) := approveAction i st in (st, Some b)
  | Deny i reason => let (st, b) := denyAction i reason st in (st, Some b)
  | TimerFires i => (timerFires i st, None)
  end.

Fixpoint run (os : list Op) (st : State) : State * list (option bool) :=
  match os with
  | [] => (st, [])
  | o :: os =>
      let (st, r) := exec o st in
      let (st, rs) := run os st in
      (st, r :: rs)
  end.

(** The operations on request [i] that can resolve it, with the value
    they resolve it with. *)
Definition resolver (i : string) (o : Op) : option bool :=
  match o with
  | Approve j => if decide (j = i) then Some true else None
  | Deny j _ => if decide (j = i) then Some false else None
  | TimerFires j => if decide (j = i) then Some false else None
  | Request _ => None
  end.

(** A human decision on request [i]. *)
Definition decision (i : string) (o : Op) : bool :=
  match o with
  | Approve j | Deny j _ => bool_decide (j = i)
  | _ => false
  end.

(** [uuidv4()] gives every request an id of its own. *)
Definition otherRequest (i : string) (o : Op) : Prop :=
  match o with
  | Request request => id request <> i
  | _ => True
  end.

(** The keys of the queue are the ids of its requests. *)
Definition keyed (st : State) : Prop :=
  forall k request, approvalQueue st !! k = Some request -> id request = k.

(** *** What the broker holds about one request, and a race *)

(** What the broker holds about request [i]. *)
Definition view (st : State) (i : string)
    : option ApprovalRequest * list bool * list bool :=
  (approvalQueue st !! i, callsOf (resolveCalls st) i, callsOf (callbackCalls st) i).

Definition lateRequest : ApprovalRequest :=
  {| id := "approval-1"; taskId := "task-1"; tool := "exec";
     parameters := VRecord [("command", VString "apt install htop")];
     riskLevel := "high"; timestamp := 0 |}.

Definition quickRequest : ApprovalRequest :=
  {| id := "approval-2"; taskId := "task-2"; tool := "exec";
     parameters := VRecord [("command", VString "ls")];
     riskLevel := "high"; timestamp := 5 |}.

(** Another request comes and is approved; the timer of the first
    request fires; then the human approves it, and denies it. *)
Definition raceOps : list Op :=
  [Request quickRequest; Approve "approval-2"; TimerFires "approval-1";
   Approve "approval-1"; Deny "approval-1" (Some "too late")].

End Broker.


(** ** The tool registry ([agent/src/tools/registry.ts]) *)

Module Registry.

Inductive RiskLevel := low | medium | high.

Record ExecutionContext := {
  ctx_taskId : option string;
  approved : option bool;
}.

Record ToolResult := {
  success : bool;
  data : Value;
  error : option string;
}.

Record ValidationResult := {
  valid : bool;
  errors : option (list string);
}.

(** The result of [schema.safeParse(params)]. *)
Inductive SafeParse :=
| ParseOk (data : Value)
| ParseError (message : string).

Record ToolDefinition := {
  name : string;
  parameters : Value -> SafeParse;
  requiresApproval : bool;
  riskLevel : RiskLevel;
  execute : Value -> ExecutionContext -> Outcome ToolResult;
  validate : option (Value -> Outcome ValidationResult);
}.

(** The calls that leave the registry and the planner, in order. *)
Inductive Call :=
| AskedApproval (tool : string)   (* [requestApproval], by the planner *)
| SafeParsed (tool : string)      (* [tool.parameters.safeParse] *)
| Validated (tool : string)       (* [tool.validate] *)
| Executed (tool : string)        (* [tool.execute] *)
| ToolMetric (tool : string) (ok : bool).   (* [recordToolMetric] *)

Definition failure (msg : string) : ToolResult :=
  {| success := false; data := VUndefined; error := Some msg |}.

Definition truthyFlag (o : option bool) : bool := default false o.

(** [message || 'Unknown error occurred'] *)
Definition messageOrUnknown (message : option string) : string :=
  if truthyStr message then default EmptyString message
  else "Unknown error occurred".

(** The [catch] block of [executeTool]: the metric is recorded, then
    [error.message || 'Unknown error occurred'] is read. *)
Definition caught (toolName : string) (e : Thrown) (calls : list Call)
    : Outcome ToolResult * list Call :=
  (match messageOf e with
   | Returns m => Returns (failure (messageOrUnknown m))
   | Throws e' => Throws e'
   end,
   (calls ++ [ToolMetric toolName false])%list).

(** [executeTool(name, params, context)] *)
Definition executeTool (tools : gmap string ToolDefinition) (toolName : string)
    (params : Value) (context : ExecutionContext)
    : Outcome ToolResult * list Call :=
  match tools !! toolName with
  | None =>
      (Returns (failure ("Tool not found: " +:+ toolName)),
       [ToolMetric toolName false])
  | Some tool =>
      match parameters tool params with
      | ParseError message =>
          (Returns (failure ("Invalid parameters: " +:+ message)),
           [SafeParsed toolName; ToolMetric toolName false])
      | ParseOk data =>
          let afterValidation (calls : list Call) :=
            if requiresApproval tool && negb (truthyFlag (approved context))
            then (Returns (failure "Tool requires approval"),
                  (calls ++ [ToolMetric toolName false])%list)
            else
              match execute tool data context with
              | Returns result =>
                  (Returns result,
                   (calls ++ [Executed toolName;
                              ToolMetric toolName (success result)])%list)
              | Throws e => caught toolName e (calls ++ [Executed toolName])%list
              end in
          match validate tool with
          | Some validator =>
              match validator data with
              | Returns validationResult =>
                  if valid validationResult
                  then afterValidation [SafeParsed toolName; Validated toolName]
                  else
                    (Returns (failure ("Validation failed: " +:+
                       match errors validationResult with
                       | Some es => join ", " es
                       | None => "undefined"
                       end)),
                     [SafeParsed toolName; Validated toolName;
                      ToolMetric toolName false])
              | Throws e =>
                  caught toolName e [SafeParsed toolName; Validated toolName]
              end
          | None => afterValidation [SafeParsed toolName]
          end
      end
  end.

(** *** [Planner.executeTool]: the planner's dispatch of an action

    [decision] is the value with which the promise of [requestApproval]
    settles, should the planner ask. *)
Definition dispatch (tools : gmap string ToolDefinition) (taskId toolName : string)
    (params : Value) (decision : bool) : Outcome ToolResult * list Call :=
  match tools !! toolName with
  | None => (Returns (failure ("Tool not found: " +:+ toolName)), [])
  | Some tool =>
      let run (asked : list Call) :=
        let (res, calls) :=
          executeTool tools toolName params
            {| ctx_taskId := Some taskId; approved := Some true |} in
        (res, (asked ++ calls)%list) in
      if requiresApproval tool then
        if decision then run [AskedApproval toolName]
        else (Returns (failure "Tool execution denied by user"),
              [AskedApproval toolName])
      else run []
  end.

(** *** The built-in tool [exec] *)

(** Its schema, as far as the field [command] goes: [command] is a
    string; the optional fields are passed on.  The text of the error
    stands for the message that zod builds. *)
Definition execSchema (params : Value) : SafeParse :=
  match field "command" params with
  | Some (VString _) => ParseOk params
  | _ => ParseError "command: Required"
  end.

Definition dangerous : list string :=
  ["rm -rf /"; "sudo rm"; "format"; "dd if="].

Definition execValidate (params : Value) : Outcome ValidationResult :=
  match field "command" params with
  | Some (VString command) =>
      let isDangerous := existsb (fun cmd => includes command cmd) dangerous in
      Returns {| valid := negb isDangerous;
                 errors := if isDangerous
                           then Some ["Potentially dangerous command detected"]
                           else None |}
  | _ => Throws (Raised (Some "Cannot read properties of undefined (reading 'includes')"))
  end.

Definition execTool : ToolDefinition :=
  {| name := "exec";
     parameters := execSchema;
     requiresApproval := true;
     riskLevel := high;
     execute := fun _ _ =>
       Returns {| success := true;
                  data := VRecord [("stdout", VString "Command output here");
                                   ("stderr", VString EmptyString);
                                   ("exitCode", VNumber 0)];
                  error := None |};
     validate := Some execValidate |}.

(** *** The stages of a dispatch *)

Inductive Stage := Approval | Schema | Validator | Execution.

Definition stageOf (c : Call) : option Stage :=
  match c with
  | AskedApproval _ => Some Approval
  | SafeParsed _ => Some Schema
  | Validated _ => Some Validator
  | Executed _ => Some Execution
  | ToolMetric _ _ => None
  end.

Definition stages (cs : list Call) : list Stage := omap stageOf cs.

(** The stages of a dispatch in which every check passes. *)
Definition plan (tool : ToolDefinition) : list Stage :=
  ((if requiresApproval tool then [Approval] else []) ++ [Schema] ++
   match validate tool with Some _ => [Validator] | None => [] end ++
   [Execution])%list.

Definition notSuccess (res : Outcome ToolResult) : Prop :=
  match res with
  | Returns r => success r = false
  | Throws _ => True
  end.

(** The custom validator of [tool], if there is one, accepts [data]. *)
Definition accepted (tool : ToolDefinition) (data : Value) : Prop :=
  match validate tool with
  | Some validator =>
      exists v, validator data = Returns v /\ valid v = true
  | None => True
  end.

(** *** Concrete tools and parameters *)

(** A registered tool whose [execute] throws [new Error()], an error
    with the empty message. *)
Definition probeTool : ToolDefinition :=
  {| name := "probe";
     parameters := fun params => ParseOk params;
     requiresApproval := false;
     riskLevel := low;
     execute := fun _ _ => Throws (Raised (Some EmptyString));
     validate := None |}.

(** A registered tool whose [execute] rejects without a reason. *)
Definition rejectingTool : ToolDefinition :=
  {| name := "flaky";
     parameters := fun params => ParseOk params;
     requiresApproval := false;
     riskLevel := low;
     execute := fun _ _ => Throws Nullish;
     validate := None |}.

Definition someTools : gmap string ToolDefinition :=
  <["exec" := execTool]> (<["probe" := probeTool]> {["flaky" := rejectingTool]}).

Definition plannerContext : ExecutionContext :=
  {| ctx_taskId := Some "task-1"; approved := Some true |}.

Definition riskyCommand : Value :=
  VRecord [("command", VString "sudo rm -rf /tmp/cache")].

Definition harmlessCommand : Value :=
  VRecord [("command", VString "ls -la")].

End Registry.


(** ** The language-model client ([LLMClient]) *)

Module LLM.

Record LLMError := {
  status : option Z;            (* [error.status] *)
  responseStatus : option Z;    (* [error.response?.status] *)
  message : string;
}.

Record Usage := {
  prompt_tokens : Z;
  completion_tokens : Z;
  total_tokens : Z;
}.

Record ToolCall := {
  call_id : string;
  call_name : string;
  arguments : Value;
}.

(** The estimated cost, a floating-point number, is left out of [usage]. *)
Record LLMResponse := {
  content : string;
  toolCalls : option (list ToolCall);
  usage : option Usage;
}.

Record Message := {
  role : string;
  text : string;
}.

(** The part of the configuration that [chat] reads; [fallbackModels] is
    the parsed list. *)
Record Config := {
  openRouterModel : string;
  fallbackModels : list string;
}.

Definition defaultConfig : Config :=
  {| openRouterModel := "anthropic/claude-3.5-sonnet";
     fallbackModels := ["openai/gpt-4o"; "anthropic/claude-3-haiku"] |}.

(** One call of [client.chat.completions.create] for a model, with what
    follows it inside the [try] block. *)
Inductive Attempt :=
| Fails (e : LLMError)
    (* [create] rejects, or [parseResponse] throws *)
| Succeeds (r : LLMResponse) (u : option Usage)
    (* the response as parsed, or as assembled from the stream, and
       the usage that the provider reported, if any *)
| StreamFails (e : LLMError).
    (* streaming only: reading the stream throws *)

Inductive Metric :=
| LLMMetric (model : string) (ok : bool).

(** [cache] is the [NodeCache]: a value and the time in milliseconds at
    which it expires.  [requests] lists the models for which the provider
    was called. *)
Record Client := {
  cache : gmap string (LLMResponse * Z);
  metrics : list Metric;
  requests : list string;
}.

Definition fresh : Client :=
  {| cache := ∅; metrics := []; requests := [] |}.

Inductive Result :=
| Response (r : LLMResponse)
| Error (e : LLMError).

(** [new NodeCache({ stdTTL: 300, checkperiod: 60 })] *)
Definition stdTTL : Z := 300.

(** [cache.get(key)] at the time [now], in two parts.  [cacheGet] is the
    value it returns: an entry is returned until its expiry time has
    passed.  [cacheAfterGet] is the store it leaves: an entry whose
    time has passed is deleted by the lookup that finds it
    ([deleteOnExpire], the default of [NodeCache]); a live entry and
    every other key stay.  The periodic check of the cache
    ([checkperiod: 60]) is a timer of its own, not a part of [chat]; it
    deletes only entries that [cacheGet] no longer returns. *)
Definition cacheGet (key : string) (now : Z) (c : gmap string (LLMResponse * Z))
    : option LLMResponse :=
  match c !! key with
  | Some (v, expires) => if expires <? now then None else Some v
  | None => None
  end.

Definition cacheAfterGet (key : string) (now : Z)
    (c : gmap string (LLMResponse * Z)) : gmap string (LLMResponse * Z) :=
  match c !! key with
  | Some (_, expires) => if expires <? now then delete key c else c
  | None => c
  end.

(** [cache.set(key, value)] at the time [now]. *)
Definition cacheSet (key : string) (v : LLMResponse) (now : Z)
    (c : gmap string (LLMResponse * Z)) : gmap string (LLMResponse * Z) :=
  <[key := (v, now + stdTTL * 1000)]> c.

(** [error.status || error.response?.status] *)
Definition statusCode (e : LLMError) : option Z :=
  match status e with
  | Some s => if s =? 0 then responseStatus e else Some s
  | None => responseStatus e
  end.

Definition shouldRetry (e : LLMError) : bool :=
  match statusCode e with
  | Some c => (c =? 429) || (c =? 500) || (c =? 502) || (c =? 503)
  | None => false
  end.

Definition withUsage (r : LLMResponse) (u : option Usage) : LLMResponse :=
  match u with
  | Some _ => {| content := content r; toolCalls := toolCalls r; usage := u |}
  | None => r
  end.

Definition recordMetric (m : Metric) (cl : Client) : Client :=
  {| cache := cache cl; metrics := (metrics cl ++ [m])%list;
     requests := requests cl |}.

Definition recordSuccess (model : string) (u : option Usage) (cl : Client) : Client :=
  match u with
  | Some _ => recordMetric (LLMMetric model true) cl
  | None => cl
  end.

(** [new Error(`All models failed. Last error: ${lastError?.message}`)] *)
Definition allFailed (lastError : option LLMError) : LLMError :=
  {| status := None; responseStatus := None;
     message := "All models failed. Last error: " +:+
                match lastError with
                | Some e => message e
                | None => "undefined"
                end |}.

Section Chat.
Context (stringify : list Message -> option (list string) -> string -> string).
Context (cfg : Config).

(** [getCacheKey]: [JSON.stringify({ messages, tools, model })] *)
Definition getCacheKey (messages : list Message) (tools : option (list string))
    : string :=
  stringify messages tools (openRouterModel cfg).

(** The loop [for (const model of models)] and what follows it.
    [provider] answers the request made for a model; [later] is the time
    at which a response is stored. *)
Fixpoint tryModels (provider : string -> Attempt) (key : string)
    (stream : bool) (later : Z) (models : list string)
    (lastError : option LLMError) (cl : Client) : Client * Result :=
  match models with
  | [] => (cl, Error (allFailed lastError))
  | model :: rest =>
      let cl := {| cache := cache cl; metrics := metrics cl;
                   requests := (requests cl ++ [model])%list |} in
      let failed (e : LLMError) :=
        let cl := recordMetric (LLMMetric model false) cl in
        if shouldRetry e
        then tryModels provider key stream later rest (Some e) cl
        else (cl, Error e) in
      match provider model with
      | Fails e => failed e
      | Succeeds r u =>
          if stream
          then (recordSuccess model u cl, Response (withUsage r u))
          else
            let cl := recordSuccess model u cl in
            let response := withUsage r u in
            ({| cache := cacheSet key response later (cache cl);
                metrics := metrics cl; requests := requests cl |},
             Response response)
      | StreamFails e =>
          if stream then (cl, Error e) else failed e
      end
  end.

(** The client after [cache.get(key)] has found nothing to return. *)
Definition afterMiss (key : string) (now : Z) (cl : Client) : Client :=
  {| cache := cacheAfterGet key now (cache cl); metrics := metrics cl;
     requests := requests cl |}.

(** [chat(messages, tools, stream)] at the time [now].  A call that is
    not streaming looks the key up first; a lookup that returns an
    entry leaves the store as it is, one that returns nothing has
    deleted the entry if it had expired. *)
Definition chat (provider : string -> Attempt) (now later : Z)
    (messages : list Message) (tools : option (list string)) (stream : bool)
    (cl : Client) : Client * Result :=
  let cacheKey := getCacheKey messages tools in
  match (if stream then None else cacheGet cacheKey now (cache cl)) with
  | Some cached => (cl, Response cached)
  | None =>
      tryModels provider cacheKey stream later
                (openRouterModel cfg :: fallbackModels cfg) None
                (if stream then cl else afterMiss cacheKey now cl)
  end.

End Chat.

(** A model fails in a way that lets the loop go on. *)
Definition transient (provider : string -> Attempt) (model : string) : Prop :=
  exists e, provider model = Fails e /\ shouldRetry e = true.

Definition failureMetrics (models : list string) : list Metric :=
  map (fun model => LLMMetric model false) models.

(** The error that the loop remembers after the models [pre]. *)
Fixpoint lastErrorAfter (provider : string -> Attempt) (pre : list string)
    (lastError : option LLMError) : option LLMError :=
  match pre with
  | [] => lastError
  | model :: pre =>
      lastErrorAfter provider pre
        match provider model with
        | Fails e | StreamFails e => Some e
        | Succeeds _ _ => lastError
        end
  end.

(** *** Concrete calls with the default models *)

(** A stand-in for [JSON.stringify] in the examples. *)
Definition render (messages : list Message) (tools : option (list string))
    (model : string) : string :=
  join ";" (map (fun m => role m +:+ ":" +:+ text m) messages) +:+ "#" +:+
  match tools with
  | Some ts => join "," ts
  | None => "undefined"
  end +:+ "#" +:+ model.

Definition conversation : list Message :=
  [{| role := "system"; text := "You are a desktop agent." |};
   {| role := "user"; text := "Task: capture a screenshot" |}].

Definition rateLimited : LLMError :=
  {| status := Some 429; responseStatus := None;
     message := "429 Rate limit exceeded" |}.

Definition unauthorized : LLMError :=
  {| status := Some 401; responseStatus := None;
     message := "401 Invalid API key" |}.

Definition answer : LLMResponse :=
  {| content := "THOUGHT: I will take a screenshot.";
     toolCalls := Some [{| call_id := "call-1"; call_name := "screenshot";
                           arguments := VRecord [] |}];
     usage := None |}.

Definition reportedUsage : Usage :=
  {| prompt_tokens := 120; completion_tokens := 30; total_tokens := 150 |}.

(** The primary model is rate limited, every other model answers, and
    reports the usage [u]. *)
Definition primaryLimited (u : option Usage) (model : string) : Attempt :=
  if String.eqb model "anthropic/claude-3.5-sonnet"
  then Fails rateLimited
  else Succeeds answer u.

(** The key is refused for every model. *)
Definition keyRefused (model : string) : Attempt := Fails unauthorized.

Definition primary : string := "anthropic/claude-3.5-sonnet".
Definition firstFallback : string := "openai/gpt-4o".

End LLM.


(** ** More of JavaScript's strings *)

Module Text.

(** The line break in a template string. *)
Definition newline : string := String (ascii_of_nat 10) EmptyString.

(** White space for [trim], among the characters below 128. *)
Definition isSpace (c : ascii) : bool :=
  let n := nat_of_ascii c in
  ((9 <=? n)%nat && (n <=? 13)%nat) || (n =? 32)%nat.

Fixpoint trimStart (s : string) : string :=
  match s with
  | EmptyString => EmptyString
  | String c r => if isSpace c then trimStart r else s
  end.

Fixpoint trimEnd (s : string) : string :=
  match s with
  | EmptyString => EmptyString
  | String c r =>
      match trimEnd r with
      | EmptyString => if isSpace c then EmptyString else String c EmptyString
      | r' => String c r'
      end
  end.

(** [s.trim()] *)
Definition trim (s : string) : string := trimEnd (trimStart s).

(** What follows [p] in [s] when [s] begins with [p]. *)
Fixpoint stripPrefix (p s : string) : option string :=
  match p, s with
  | EmptyString, _ => Some s
  | String a p', String b s' => if Ascii.eqb a b then stripPrefix p' s' else None
  | String _ _, EmptyString => None
  end.

(** The text before and the text after the first occurrence of [p] in
    [s], if [p] occurs. *)
Fixpoint splitFirst (p s : string) : option (string * string) :=
  match stripPrefix p s with
  | Some after => Some (EmptyString, after)
  | None =>
      match s with
      | EmptyString => None
      | String c r =>
          match splitFirst p r with
          | Some (before, after) => Some (String c before, after)
          | None => None
          end
      end
  end.

(** Truthiness of a string. *)
Definition nonEmpty (s : string) : bool := negb (String.eqb s EmptyString).

End Text.


(** ** One step of the planner ([generateNextStep] and what it calls, in
    [agent/src/planner/react.ts]) *)

Module Steps.
Import Text Planner Registry.

(** The steps that [extractResult] looks for: [s.result && !s.error]. *)
Definition usable (s : PlanStep) : bool :=
  truthy (step_result s) && negb (truthyStr (step_error s)).

(** [private memoryWindow: number = 10] *)
Definition memoryWindow : nat := 10.

(** [task.steps.slice(-this.memoryWindow)] *)
Definition recentSteps (l : list PlanStep) : list PlanStep :=
  drop (length l - memoryWindow)%nat l.

(** The messages that [buildMessages] adds for one step. *)
Definition stepMessages (s : PlanStep) : list LLM.Message :=
  ((if nonEmpty (thought s)
    then [{| LLM.role := "assistant";
             LLM.text := "THOUGHT: " +:+ thought s +:+
                         (if truthyStr (action s)
                          then newline +:+ "ACTION: " +:+ default EmptyString (action s)
                          else EmptyString) |}]
    else []) ++
   (if truthyStr (observation s)
    then [{| LLM.role := "system";
             LLM.text := "OBSERVATION: " +:+ default EmptyString (observation s) |}]
    else []))%list.

Definition nextActionPrompt : LLM.Message :=
  {| LLM.role := "system";
     LLM.text := "Based on the observations so far, what is your next thought and action? Use the ReAct format." |}.

(** The regular expression [/THOUGHT:(.*?)(?:ACTION:|$)/s] matches at the
    first [THOUGHT:]; its group is the text up to the next [ACTION:], or
    up to the end.  Without a match the whole content is the thought. *)
Definition extractThought (content : string) : string :=
  match splitFirst "THOUGHT:" content with
  | Some (_, rest) =>
      trim match splitFirst "ACTION:" rest with
           | Some (body, _) => body
           | None => rest
           end
  | None => trim content
  end.

Section Step.
(** [SYSTEM_PROMPTS.planner]; the task's [context], rendered by
    [JSON.stringify(task.context, null, 2)] when it has a key, and its
    [constraints]; [JSON.stringify(v, null, 2)] for a tool's data. *)
Context (plannerPrompt : string).
Context (context : option string) (constraints : list string).
Context (jsonStringify : Value -> option string).

Definition formatTaskInstruction (t : Task) : string :=
  "Task: " +:+ instruction t +:+
  match context with
  | Some json => newline +:+ newline +:+ "Context:" +:+ newline +:+ json
  | None => EmptyString
  end +:+
  match constraints with
  | [] => EmptyString
  | _ => newline +:+ newline +:+ "Constraints:" +:+ newline +:+
         join newline (map (fun c => "- " +:+ c) constraints)
  end.

Definition buildMessages (t : Task) : list LLM.Message :=
  ({| LLM.role := "system"; LLM.text := plannerPrompt |}
   :: {| LLM.role := "user"; LLM.text := formatTaskInstruction t |}
   :: flat_map stepMessages (recentSteps (steps t))
   ++ [nextActionPrompt])%list.

Definition formatObservation (r : ToolResult) : option string :=
  if negb (success r)
  then Some ("Failed: " +:+ default "undefined" (error r))
  else match data r with
       | VString s => Some s
       | v => jsonStringify v
       end.

(** [generateNextStep(task)].  [llm] is the answer of
    [this.llmClient.chat(messages, tools)], [decision] the value with
    which an approval request settles, [uuid] and [now] the step's id
    and timestamp.  The result comes with the calls that the dispatch
    of the tool made. *)
Definition generateNextStep (tools : gmap string ToolDefinition)
    (llm : list LLM.Message -> LLM.Result) (decision : bool)
    (uuid : string) (now : Z) (t : Task) : Outcome PlanStep * list Call :=
  match llm (buildMessages t) with
  | LLM.Error e =>
      (Returns {| step_id := uuid; thought := EmptyString; action := None;
                  actionInput := VUndefined;
                  observation := Some ("Error: " +:+ LLM.message e);
                  step_result := VUndefined; timestamp := now;
                  step_error := Some (LLM.message e) |}, [])
  | LLM.Response response =>
      let th := if nonEmpty (LLM.content response)
                then extractThought (LLM.content response)
                else EmptyString in
      match LLM.toolCalls response with
      | Some (toolCall :: _) =>
          let toolName := LLM.call_name toolCall in
          let input := LLM.arguments toolCall in
          match dispatch tools (task_id t) toolName input decision with
          | (Returns toolResult, calls) =>
              (Returns {| step_id := uuid; thought := th;
                          action := Some toolName; actionInput := input;
                          observation := formatObservation toolResult;
                          step_result := data toolResult; timestamp := now;
                          step_error := if success toolResult then None
                                        else error toolResult |}, calls)
          | (Throws e, calls) =>
              (match messageOf e with
               | Returns m =>
                   Returns {| step_id := uuid; thought := th;
                              action := Some toolName; actionInput := input;
                              observation := Some ("Error: " +:+ default "undefined" m);
                              step_result := VUndefined; timestamp := now;
                              step_error := m |}
               | Throws e' => Throws e'
               end, calls)
          end
      | _ =>
          (Returns {| step_id := uuid; thought := th; action := None;
                      actionInput := VUndefined; observation := None;
                      step_result := VUndefined; timestamp := now;
                      step_error := None |}, [])
      end
  end.

End Step.

(** Concrete steps and a concrete answer of the model. *)
Definition shot : Value := VRecord [("image", VString "base64")].

Definition threeSteps : list PlanStep :=
  [{| step_id := "s1"; thought := "Taking a screenshot"; action := Some "screenshot";
      actionInput := VRecord []; observation := Some "ok";
      step_result := shot; timestamp := 1; step_error := None |};
   {| step_id := "s2"; thought := "Listing a folder"; action := Some "exec";
      actionInput := VRecord [("command", VString "ls /nowhere")];
      observation := Some "Failed: No such file";
      step_result := VString "partial"; timestamp := 2;
      step_error := Some "No such file" |};
   {| step_id := "s3"; thought := "Done"; action := None;
      actionInput := VUndefined; observation := None;
      step_result := VUndefined; timestamp := 3; step_error := None |}].

Definition taskWith (l : list PlanStep) : Task :=
  {| task_id := "task-1"; instruction := "capture a screenshot";
     status := running; steps := l; task_result := VUndefined;
     task_error := None; timeout := 300; createdAt := 0;
     completedAt := None |}.

(** What reading [error.message] throws when [error] is nullish. *)
Definition typeErrorOfNullish : Thrown :=
  Raised (Some "Cannot read properties of undefined (reading 'message')").

(** The tool that a call concerns. *)
Definition callTool (c : Call) : string :=
  match c with
  | AskedApproval n | SafeParsed n | Validated n | Executed n | ToolMetric n _ => n
  end.

(** A response cut down to its first tool call. *)
Definition firstCallOnly (r : LLM.LLMResponse) : LLM.LLMResponse :=
  {| LLM.content := LLM.content r;
     LLM.toolCalls := match LLM.toolCalls r with
                      | Some (c :: _) => Some [c]
                      | other => other
                      end;
     LLM.usage := LLM.usage r |}.

(** An answer of the model that asks for two tools. *)
Definition twoCalls : LLM.LLMResponse :=
  {| LLM.content := "THOUGHT: I will run the command. ACTION: exec";
     LLM.toolCalls :=
       Some [{| LLM.call_id := "call-1"; LLM.call_name := "exec";
                LLM.arguments := harmlessCommand |};
             {| LLM.call_id := "call-2"; LLM.call_name := "probe";
                LLM.arguments := VNull |}];
     LLM.usage := None |}.

End Steps.



(** ** What the planner keeps of a task and what it announces *)

Module Lifecycle.
Import Planner.

Section Kept.
Context (cfg : Config).

(** The fields of a stored task that go with its status. *)
Definition kept (t : Task) : Prop :=
  timeout t <> 0 /\
  match status t with
  | running =>
      task_error t = None /\ completedAt t = None /\ task_result t = VUndefined
  | completed =>
      task_error t = None /\ completedAt t <> None /\
      truthy (task_result t) = true /\
      (length (steps t) < maxIterations cfg)%nat /\
      exists s, last (steps t) = Some s /\ completionPhrase (thought s) = true
  | failed =>
      task_error t <> None /\ task_result t = VUndefined /\
      (completedAt t = None ->
       task_error t = Some "Maximum concurrent tasks reached" /\ steps t = [])
  | queued | pending_approval => False
  end.

End Kept.

(** The names of the events emitted for one task, in order. *)
Definition eventsFor (id : string) (l : list Effect) : list string :=
  flat_map (fun e => match e with
                     | Emit ev i _ => if decide (i = id) then [ev] else []
                     | TaskMetric _ => []
                     end) l.

(** The outcomes handed to [recordTaskMetric], in order. *)
Definition metrics (l : list Effect) : list string :=
  flat_map (fun e => match e with
                     | TaskMetric outcome => [outcome]
                     | Emit _ _ _ => []
                     end) l.

(** The outcomes that the events 'task:completed' and 'task:failed'
    announce, in order. *)
Definition endings (l : list Effect) : list string :=
  flat_map (fun e => match e with
                     | Emit ev _ _ =>
                         if decide (ev = "task:completed") then ["succeeded"]
                         else if decide (ev = "task:failed") then ["failed"]
                         else []
                     | TaskMetric _ => []
                     end) l.

(** The events of a task, given its status and its generator. *)
Definition announced (t : Task) (f : option Frame) (evs : list string) : Prop :=
  match status t, f with
  | running, Some f =>
      evs = "task:created" :: "task:started"
            :: repeat "task:step" (pred (iteration f))
  | running, None =>
      evs = "task:created" :: "task:started"
            :: repeat "task:step" (pred (length (steps t)))
  | completed, None =>
      evs = ("task:created" :: "task:started"
             :: repeat "task:step" (length (steps t)) ++ ["task:completed"])%list
  | failed, None =>
      evs = ["task:created"; "task:failed"] \/
      exists k, (k <= length (steps t))%nat /\
        evs = ("task:created" :: "task:started"
               :: repeat "task:step" k ++ ["task:failed"])%list
  | _, _ => False
  end.

Record Full (cfg : Config) (w : World) : Prop := {
  full_inv : Inv cfg w;
  full_task : forall id t, tasks w !! id = Some t ->
    kept cfg t /\ announced t (frames w !! id) (eventsFor id (log w));
  full_none : forall id, tasks w !! id = None -> eventsFor id (log w) = [];
  full_metrics : metrics (log w) = endings (log w);
}.

(** What one step does to the task of its label and to the log. *)
Definition Detail (cfg : Config) (id : string) (w w' : World) : Prop :=
  exists t' es,
    tasks w' = <[id := t']> (tasks w) /\ log w' = (log w ++ es)%list /\
    (forall id0, id0 <> id ->
       frames w' !! id0 = frames w !! id0 /\ eventsFor id0 es = []) /\
    kept cfg t' /\
    announced t' (frames w' !! id)
              (eventsFor id (log w) ++ eventsFor id es)%list /\
    metrics es = endings es.

(** After three failing steps in a row, and after a step whose thought
    holds a completion phrase, the steps of [t] end. *)
Definition Closing (t : Task) : Prop :=
  (forall pre a b c post,
     steps t = (pre ++ [a; b; c] ++ post)%list ->
     truthyStr (step_error a) = true -> truthyStr (step_error b) = true ->
     truthyStr (step_error c) = true -> post = []) /\
  (forall pre s post,
     steps t = (pre ++ s :: post)%list ->
     completionPhrase (thought s) = true -> post = []).

(** The checks that let the loop go on: fewer than three errors in the
    last three steps, and no completion phrase in the last thought. *)
Definition MayGoOn (t : Task) : Prop :=
  (recentErrors (steps t) < 3)%nat /\
  forall s, last (steps t) = Some s -> completionPhrase (thought s) = false.

Record Checked (w : World) : Prop := {
  checked_tasks : forall id t, tasks w !! id = Some t -> Closing t;
  checked_frames : forall id f t,
    frames w !! id = Some f -> point f = AwaitingStep ->
    tasks w !! id = Some t -> MayGoOn t;
}.

End Lifecycle.



(** ** The two consumers of [executeTask]

    The handler of the socket message 'task:start'
    ([agent/src/api/websocket.ts]) and the route POST /api/tasks
    ([agent/src/api/routes.ts]).  Both run the generator with
    [for await] and then call [taskGenerator.return(undefined)].  The
    environment of a handler is the step that [generateNextStep]
    returns in iteration [k + 1] ([stepAt k]) and the clock at the
    [k]-th resumption of the generator ([timeAt k]). *)

Module Consumers.
Import Planner.

(** The answer sent by POST /api/tasks. *)
Record Response := {
  res_id : option string;
  res_status : option Status;
  res_steps : list PlanStep;
  res_instruction : option string;
}.

(** A step leaves every other task and generator as it is. *)
Definition sameElsewhere (id : string) (w w' : World) : Prop :=
  forall id0, id0 <> id ->
    tasks w' !! id0 = tasks w !! id0 /\ frames w' !! id0 = frames w !! id0.

Section Handlers.
Context (cfg : Config).
Context (stepAt : nat -> PlanStep) (timeAt : nat -> Z).

(** [taskGenerator.return(undefined)]: a generator that has finished
    answers [{ value: undefined, done: true }] and runs nothing. *)
Definition returnUndefined (id : string) (w : World) : option (World * Reply) :=
  match frames w !! id with
  | None => Some (w, Closed)
  | Some _ => return_ id w
  end.

(** [for await (const step of taskGenerator) { emit(step) }], from the
    point where the generator waits for the step of iteration [k + 1];
    [sent] are the steps passed on so far.  The task that the generator
    returns is dropped by [for await]. *)
Fixpoint drain (fuel k : nat) (id : string) (sent : list PlanStep)
    (w : World) : option (World * list PlanStep) :=
  match fuel with
  | O => None
  | S fuel =>
      match stepReady id (stepAt k) w with
      | Some (w, Yields s) =>
          match next cfg id (timeAt (S k)) w with
          | Some (w, Pending) => drain fuel (S k) id (sent ++ [s])%list w
          | Some (w, ReturnsTask _) => Some (w, (sent ++ [s])%list)
          | _ => None
          end
      | _ => None
      end
  end.

(** The handler of 'task:start': the steps it passes on and what it
    sends as 'task:completed'. *)
Definition taskStart (fuel : nat) (id : string) (req : TaskRequest)
    (w : World) : option (World * list PlanStep * Reply) :=
  match start cfg id req (timeAt 0) w with
  | Some (w, r) =>
      match match r with
            | Pending => drain fuel 0 id [] w
            | ReturnsTask _ => Some (w, [])
            | _ => None
            end with
      | Some (w, sent) =>
          match returnUndefined id w with
          | Some (w, task) => Some (w, sent, task)
          | None => None
          end
      | None => None
      end
  | None => None
  end.

(** [for await (const step of taskGenerator) { steps.push(step);
    if (steps.length >= 3) break; }]: the [break] closes the
    generator. *)
Fixpoint collect (fuel k : nat) (id : string) (got : list PlanStep)
    (w : World) : option (World * list PlanStep) :=
  match fuel with
  | O => None
  | S fuel =>
      match stepReady id (stepAt k) w with
      | Some (w, Yields s) =>
          let got := (got ++ [s])%list in
          if (3 <=? length got)%nat then
            match return_ id w with
            | Some (w, _) => Some (w, got)
            | None => None
            end
          else
            match next cfg id (timeAt (S k)) w with
            | Some (w, Pending) => collect fuel (S k) id got w
            | Some (w, ReturnsTask _) => Some (w, got)
            | _ => None
            end
      | _ => None
      end
  end.

(** [{ id: task.value?.id, status: task.value?.status, steps,
    instruction: task.value?.instruction }] for the result [task] of
    [return(undefined)]. *)
Definition respond (task : Reply) (got : list PlanStep) : Response :=
  match task with
  | ReturnsTask t =>
      {| res_id := Some (task_id t); res_status := Some (status t);
         res_steps := got; res_instruction := Some (instruction t) |}
  | Yields s =>
      {| res_id := Some (step_id s); res_status := None;
         res_steps := got; res_instruction := None |}
  | Pending | Closed =>
      {| res_id := None; res_status := None;
         res_steps := got; res_instruction := None |}
  end.

(** The route POST /api/tasks up to its answer.  The loop that follows
    the answer in the source iterates a generator that has finished
    and so does nothing. *)
Definition postTasks (fuel : nat) (id : string) (req : TaskRequest)
    (w : World) : option (World * Response) :=
  match start cfg id req (timeAt 0) w with
  | Some (w, r) =>
      match match r with
            | Pending => collect fuel 0 id [] w
            | ReturnsTask _ => Some (w, [])
            | _ => None
            end with
      | Some (w, got) =>
          match returnUndefined id w with
          | Some (w, task) => Some (w, respond task got)
          | None => None
          end
      | None => None
      end
  | None => None
  end.

End Handlers.

(** An environment for concrete runs: the third step says that the
    task is complete. *)
Definition stepAt0 (k : nat) : PlanStep :=
  match k with
  | 2%nat => plainStep "The file is saved. Task complete."
  | _ => plainStep "Looking at the screen"
  end.

Definition timeAt0 (k : nat) : Z := Z.of_nat k.

End Consumers.



(** ** The catalogue of the registry ([registerTool], [getTool],
    [getAllTools], [getToolCount], [getToolsForLLM] in
    [agent/src/tools/registry.ts]) *)

Module Catalog.
Import Registry.

(** The [Map] of the registry with its order: a key that is set again
    keeps its place. *)
Definition ToolMap := list (string * ToolDefinition).

(** [m.set(k, v)] *)
Fixpoint mapSet (k : string) (v : ToolDefinition) (m : ToolMap) : ToolMap :=
  match m with
  | [] => [(k, v)]
  | (k', v') :: r =>
      if String.eqb k' k then (k, v) :: r else (k', v') :: mapSet k v r
  end.

(** [m.get(k)] *)
Definition mapGet (k : string) (m : ToolMap) : option ToolDefinition :=
  snd <$> List.find (fun p => String.eqb (fst p) k) m.

Definition registerTool (tool : ToolDefinition) (m : ToolMap) : ToolMap :=
  mapSet (name tool) tool m.

Definition getTool (toolName : string) (m : ToolMap) : option ToolDefinition :=
  mapGet toolName m.

Definition getAllTools (m : ToolMap) : list ToolDefinition := map snd m.

Definition getToolCount (m : ToolMap) : nat := length m.

(** The names in [getToolsForLLM()], that is
    [getToolsForLLM().map(t => t.function.name)]. *)
Definition offeredNames (m : ToolMap) : list string :=
  map name (getAllTools m).

(** The registry after the registrations [l], in order. *)
Definition registry (l : list ToolDefinition) : ToolMap :=
  fold_left (fun m tool => registerTool tool m) l [].

(** The map that [executeTool] looks the tool up in. *)
Definition lookupMap (m : ToolMap) : gmap string ToolDefinition :=
  list_to_map m.

(** The last tool of [l] with the name [n]. *)
Definition lastNamed (n : string) (l : list ToolDefinition) : option ToolDefinition :=
  List.find (fun tool => String.eqb (name tool) n) (rev l).

Definition isToolMetric (c : Call) : bool :=
  match c with
  | ToolMetric _ _ => true
  | _ => false
  end.

(** The outcome that the metric of an invocation should carry. *)
Definition succeeded (res : Outcome ToolResult) : bool :=
  match res with
  | Returns r => success r
  | Throws _ => false
  end.

(** A second version of a registered tool. *)
Definition probeTool' : ToolDefinition :=
  {| name := "probe";
     parameters := fun params => ParseOk params;
     requiresApproval := true;
     riskLevel := high;
     execute := fun _ _ => Returns {| success := true; data := VNull; error := None |};
     validate := None |}.

End Catalog.



(** ** The list of fallback models (the constructor of [LLMClient]) *)

Module Models.
Import Text.

(** [s.split(',')] *)
Fixpoint splitOn (sep : ascii) (s : string) : list string :=
  match s with
  | EmptyString => [EmptyString]
  | String c r =>
      if Ascii.eqb c sep then EmptyString :: splitOn sep r
      else match splitOn sep r with
           | x :: xs => String c x :: xs
           | [] => [String c EmptyString]
           end
  end.

(** [config.openRouterFallbackModels.split(',').map(m => m.trim())
      .filter(m => m.length > 0)] *)
Definition parseFallbackModels (s : string) : list string :=
  List.filter (fun m => (0 <? String.length m)%nat) (map trim (splitOn "," s)).

(** The character [c] does not occur in [s]. *)
Fixpoint without (c : ascii) (s : string) : bool :=
  match s with
  | EmptyString => true
  | String a r => negb (Ascii.eqb a c) && without c r
  end.

(** A model name as the parser gives it back. *)
Definition modelName (m : string) : Prop :=
  m <> EmptyString /\ trim m = m /\ without "," m = true.

(** A provider whose streams break. *)
Definition brokenStream (model : string) : LLM.Attempt :=
  LLM.StreamFails LLM.rateLimited.

(** A client whose cache holds an answer to [conversation] that expired
    at the time 1000. *)
Definition staleClient : LLM.Client :=
  {| LLM.cache := {[ LLM.render LLM.conversation None LLM.primary
                     := (LLM.answer, 1000) ]};
     LLM.metrics := []; LLM.requests := [] |}.

End Models.



(** ** The events of the approval broker *)

Module Approvals.
Import Broker.

Definition eventId (e : Event) : string :=
  match e with
  | ApprovalRequested i | ApprovalGranted i | ApprovalDenied i _ => i
  end.

(** The events about the request [i], in order. *)
Definition eventsOf (i : string) (es : list Event) : list Event :=
  List.filter (fun e => bool_decide (eventId e = i)) es.

(** The events that an operation emits. *)
Definition emits (o : Op) (st : State) : list Event :=
  match o with
  | Request request => [ApprovalRequested (id request)]
  | Approve j =>
      match approvalQueue st !! j with
      | Some _ => [ApprovalGranted j]
      | None => []
      end
  | Deny j reason =>
      match approvalQueue st !! j with
      | Some _ => [ApprovalDenied j reason]
      | None => []
      end
  | TimerFires _ => []
  end.

(** The request id that an operation is about. *)
Definition target (o : Op) : string :=
  match o with
  | Request request => id request
  | Approve j | Deny j _ | TimerFires j => j
  end.

(** The ids of the requests among the operations. *)
Definition requested (os : list Op) : list string :=
  omap (fun o => match o with Request request => Some (id request) | _ => None end) os.

(** Where a request id stands: not used, waiting, approved, denied, or
    timed out. *)
Inductive Phase (st : State) (i : string) : Prop :=
| unused :
    view st i = (None, [], []) -> eventsOf i (emitted st) = [] -> Phase st i
| waiting request :
    view st i = (Some request, [], []) -> id request = i ->
    eventsOf i (emitted st) = [ApprovalRequested i] -> Phase st i
| approved_ :
    view st i = (None, [true], [true]) ->
    eventsOf i (emitted st) = [ApprovalRequested i; ApprovalGranted i] ->
    Phase st i
| denied reason :
    view st i = (None, [false], [false]) ->
    eventsOf i (emitted st) = [ApprovalRequested i; ApprovalDenied i reason] ->
    Phase st i
| timedOut :
    view st i = (None, [false], []) ->
    eventsOf i (emitted st) = [ApprovalRequested i] -> Phase st i.

End Approvals.


(** * Properties *)

(** ** Properties of the generator *)

Module PlannerFacts.
Import Planner.

Section Facts.
Context (cfg : Config).

Lemma Inv_initial : Inv cfg initial.
Proof.
  split; simpl.
  - intros id f H. rewrite lookup_empty in H. discriminate.
  - intros id t H. rewrite lookup_empty in H. discriminate.
  - rewrite map_size_empty. reflexivity.
  - lia.
Qed.

Lemma catchBlock_finished id t msg now w :
  finished id t w (catchBlock id t msg now w).1 (catchBlock id t msg now w).2.
Proof.
  unfold finished, catchBlock; simpl.
  eexists; split; [reflexivity|]. simpl.
  repeat split; auto. right; reflexivity.
Qed.

Lemma completeBlock_finished id t now w :
  finished id t w (completeBlock id t now w).1 (completeBlock id t now w).2.
Proof.
  unfold finished, completeBlock; simpl.
  eexists; split; [reflexivity|]. simpl.
  repeat split; auto. left; reflexivity.
Qed.

(** The loop test either starts one more iteration or ends the
    generator. *)
Lemma loopHead_cases id t iter isComplete start now w :
  let res := loopHead cfg id t iter isComplete start now w in
  (isComplete = false /\ (iter < maxIterations cfg)%nat /\
   res.2 = Pending /\
   tasks res.1 = <[id := t]> (tasks w) /\
   frames res.1 = <[id := {| iteration := S iter; startTime := start;
                             point := AwaitingStep |}]> (frames w) /\
   concurrentTasks res.1 = concurrentTasks w)
  \/ finished id t w res.1 res.2.
Proof.
  unfold loopHead.
  destruct isComplete; simpl.
  - right. destruct (maxIterations cfg <=? iter)%nat;
      [apply catchBlock_finished | apply completeBlock_finished].
  - destruct (iter <? maxIterations cfg)%nat eqn:Hlt; simpl.
    + destruct (now - start >? timeout t * 1000).
      * right. apply catchBlock_finished.
      * left. apply Nat.ltb_lt in Hlt. simpl. repeat split; auto.
    + right. destruct (maxIterations cfg <=? iter)%nat;
        [apply catchBlock_finished | apply completeBlock_finished].
Qed.

Lemma no_frame_without_task w id :
  Inv cfg w -> tasks w !! id = None -> frames w !! id = None.
Proof.
  intros HI Hn. destruct (frames w !! id) as [f|] eqn:Hf; [|reflexivity].
  destruct (inv_frame _ _ HI _ _ Hf) as (t & Ht & _). congruence.
Qed.

Lemma start_summary id req now w w' r :
  Inv cfg w -> start cfg id req now w = Some (w', r) -> Summary cfg w w' r id.
Proof.
  intros HI. unfold start.
  destruct (tasks w !! id) eqn:Hid; [discriminate|].
  pose proof (no_frame_without_task _ _ HI Hid) as Hfr.
  simpl. destruct (maxConcurrentTasks cfg <=? concurrentTasks w) eqn:Hcap.
  - intros [= <- <-]. eapply sum_new; eauto; simpl; auto.
    right. repeat split; auto. right; reflexivity.
  - apply Z.leb_gt in Hcap.
    match goal with |- Some (loopHead _ ?i ?t ?k ?b ?s ?n ?w0) = _ -> _ =>
      destruct (loopHead_cases i t k b s n w0) as [(_ & Hlt & Hr & Ht & Hf & Hc)|(t' & Hr & Hterm & Hs & Hi & Ht & Hf & Hc)];
      destruct (loopHead cfg i t k b s n w0) as [w1 r1] end;
      simpl in *; intros [= <- <-].
    + eapply sum_new; eauto; simpl; auto.
      left. repeat split; auto; try lia.
      eexists; split; [eassumption|]. split; simpl; [lia|reflexivity].
    + eapply sum_new; eauto.
      right. repeat split; auto; try lia.
      rewrite Hf. apply delete_id. assumption.
Qed.

(** A label of a started generator is enabled only where its frame
    waits: this takes the frame and the task out of [H]. *)
Local Ltac at_frame H f t Hf Ht Hp :=
  destruct (frames _ !! _) as [f|] eqn:Hf; [|discriminate H];
  destruct (tasks _ !! _) as [t|] eqn:Ht; [|discriminate H];
  destruct (point f) eqn:Hp; try discriminate H.

Lemma stepReady_summary id s w w' r :
  Inv cfg w -> stepReady id s w = Some (w', r) -> Summary cfg w w' r id.
Proof.
  intros HI H. unfold stepReady in H. at_frame H f t Hf Ht Hp.
  injection H as <- <-.
  destruct (inv_frame _ _ HI _ _ Hf) as (t0 & Ht0 & Hrun & Hit & Hlen).
  destruct (inv_task _ _ HI _ _ Ht) as (Hid & _).
  rewrite Ht in Ht0. injection Ht0 as <-. rewrite Hp in Hlen.
  eapply sum_old; eauto; simpl; auto.
  - apply prefix_app_r. reflexivity.
  - left. repeat split; eauto; simpl.
    eexists; split; [reflexivity|]. split; simpl; [lia|].
    rewrite length_app; simpl. lia.
Qed.

Lemma finished_summary id t f w w0 w' r :
  Inv cfg w -> tasks w !! id = Some t -> frames w !! id = Some f ->
  tasks w0 = tasks w -> frames w0 = frames w ->
  concurrentTasks w0 = concurrentTasks w ->
  finished id t w0 w' r -> Summary cfg w w' r id.
Proof.
  intros HI Ht Hf E1 E2 E3 (t' & Hr & Hterm & Hs & Hi & Ht' & Hf' & Hc).
  destruct (inv_task _ _ HI _ _ Ht) as (Hid & _).
  apply (sum_old _ _ _ _ _ t f t'); try congruence.
  - rewrite Hs. reflexivity.
  - right; left. repeat split; auto; congruence.
Qed.

Lemma next_summary id now w w' r :
  Inv cfg w -> next cfg id now w = Some (w', r) -> Summary cfg w w' r id.
Proof.
  intros HI H. unfold next in H. at_frame H f t Hf Ht Hp.
  destruct (inv_frame _ _ HI _ _ Hf) as (t0 & Ht0 & Hrun & Hit & Hlen).
  destruct (inv_task _ _ HI _ _ Ht) as (Hid & _).
  rewrite Ht in Ht0. injection Ht0 as <-. rewrite Hp in Hlen.
  destruct (isTaskComplete t) as [b|msg].
  - match type of H with Some (loopHead _ ?i ?t ?k ?b ?s ?n ?w0) = _ =>
      destruct (loopHead_cases i t k b s n w0) as [(_ & Hlt & Hr & Ht' & Hf' & Hc)|Hfin];
      destruct (loopHead cfg i t k b s n w0) as [w1 r1] end;
      simpl in *; injection H as <- <-.
    + eapply sum_old; eauto.
      left. repeat split; auto.
      eexists; split; [eassumption|]. split; simpl; lia.
    + eapply finished_summary; eauto.
  - injection H as <- <-.
    eapply finished_summary; eauto.
    exact (catchBlock_finished id t msg now w).
Qed.

Lemma throw_summary id msg now w w' r :
  Inv cfg w -> throw id msg now w = Some (w', r) -> Summary cfg w w' r id.
Proof.
  intros HI H. unfold throw in H. at_frame H f t Hf Ht Hp.
  injection H as <- <-.
  eapply finished_summary; eauto.
  exact (catchBlock_finished id t msg now w).
Qed.

Lemma return_summary id w w' r :
  Inv cfg w -> return_ id w = Some (w', r) -> Summary cfg w w' r id.
Proof.
  intros HI H. unfold return_ in H. at_frame H f t Hf Ht Hp.
  injection H as <- <-.
  destruct (inv_task _ _ HI _ _ Ht) as (Hid & _).
  eapply sum_old; eauto; simpl; auto.
  right; right. auto.
Qed.

Lemma step_summary l w w' r :
  Inv cfg w -> step cfg l w = Some (w', r) -> Summary cfg w w' r (label_id l).
Proof.
  destruct l; simpl;
    eauto using start_summary, stepReady_summary, next_summary,
                return_summary, throw_summary.
Qed.

Lemma Inv_step l w w' r :
  Inv cfg w -> step cfg l w = Some (w', r) -> Inv cfg w'.
Proof.
  intros HI Hstep.
  pose proof (step_summary _ _ _ _ HI Hstep) as HS.
  set (id := label_id l) in *. clearbody id.
  destruct HI as [Hfr Htk Hcnt Hceil].
  assert (Hothers : forall id0 f0, id0 <> id -> frames w !! id0 = Some f0 ->
            forall t', exists t0, <[id := t']> (tasks w) !! id0 = Some t0 /\
              status t0 = running /\ frame_fits cfg f0 t0).
  { intros id0 f0 Hne Hf0 t'. rewrite lookup_insert_ne by congruence.
    destruct (Hfr _ _ Hf0) as (t0 & ? & ? & ? & ?). exists t0.
    unfold frame_fits. auto. }
  assert (Htasks : forall t', task_id t' = id ->
            (length (steps t') <= maxIterations cfg)%nat ->
            (status t' = running \/ terminal (status t')) ->
            forall id0 t0, <[id := t']> (tasks w) !! id0 = Some t0 ->
              task_id t0 = id0 /\ (length (steps t0) <= maxIterations cfg)%nat /\
              (status t0 = running \/ terminal (status t0))).
  { intros t' ? ? ? id0 t0. destruct (decide (id0 = id)) as [->|Hne].
    - rewrite lookup_insert_eq. intros [= <-]. auto.
    - rewrite lookup_insert_ne by congruence. apply Htk. }
  destruct HS as [t' Hold Hnof Ht' Hid Hsteps Hcase | t f t' Hold Hf Ht' Hid Hpre Hcase].
  - destruct Hcase as [(Hrun & _ & (f & Hf' & Hfit) & Hlt & Hc) | (Hterm & _ & Hf' & Hc)].
    + split.
      * intros id0 f0. rewrite Hf', Ht'.
        destruct (decide (id0 = id)) as [->|Hne].
        -- rewrite !lookup_insert_eq. intros [= <-]. exists t'.
           destruct Hfit. auto.
        -- rewrite lookup_insert_ne by congruence. intros Hf0.
           destruct (Hothers _ _ Hne Hf0 t') as (t0 & ? & ? & ? & ?). eauto.
      * rewrite Ht'. apply Htasks; auto. rewrite Hsteps; simpl; lia.
      * rewrite Hc, Hf', map_size_insert_None by assumption. lia.
      * lia.
    + split.
      * intros id0 f0. rewrite Hf', Ht'. intros Hf0.
        assert (id0 <> id) as Hne by congruence.
        destruct (Hothers _ _ Hne Hf0 t') as (t0 & ? & ? & ? & ?). eauto.
      * rewrite Ht'. apply Htasks; auto. rewrite Hsteps; simpl; lia.
      * rewrite Hc, Hf'. assumption.
      * lia.
  - destruct (Htk _ _ Hold) as (_ & Hlen & Hst).
    assert (Hsz : (0 < size (frames w))%nat).
    { enough (size (frames w) <> 0)%nat by lia.
      eapply map_size_ne_0_lookup_2. eauto. }
    assert (Hdel : forall t1, task_id t1 = id ->
              (length (steps t1) <= maxIterations cfg)%nat ->
              (status t1 = running \/ terminal (status t1)) ->
              tasks w' = <[id := t1]> (tasks w) ->
              frames w' = delete id (frames w) ->
              concurrentTasks w' = concurrentTasks w - 1 -> Inv cfg w').
    { intros t1 ? ? ? E1 E2 E3. split.
      - intros id0 f0. rewrite E1, E2.
        destruct (decide (id0 = id)) as [->|Hne].
        + rewrite lookup_delete_eq. discriminate.
        + rewrite lookup_delete_ne by congruence. intros Hf0.
          destruct (Hothers _ _ Hne Hf0 t1) as (t0 & ? & ? & ? & ?). eauto.
      - rewrite E1. apply Htasks; auto.
      - rewrite E3, E2, map_size_delete_Some by eauto. lia.
      - lia. }
    destruct Hcase as [(Hrun & _ & (f' & Hf' & Hfit) & Hc)
                      | [(Hterm & _ & Hs & Hf' & Hc) | (-> & _ & Hf' & Hc)]].
    + split.
      * intros id0 f0. rewrite Hf', Ht'.
        destruct (decide (id0 = id)) as [->|Hne].
        -- rewrite !lookup_insert_eq. intros [= <-]. exists t'.
           destruct Hfit. auto.
        -- rewrite lookup_insert_ne by congruence. intros Hf0.
           destruct (Hothers _ _ Hne Hf0 t') as (t0 & ? & ? & ? & ?). eauto.
      * rewrite Ht'. apply Htasks; auto.
        destruct Hfit as [? Hl]. rewrite Hl. destruct (point f'); lia.
      * rewrite Hc, Hf', map_size_insert_Some by eauto. assumption.
      * lia.
    + apply (Hdel t'); auto. rewrite Hs. assumption.
    + apply (Hdel t); auto.
Qed.

Lemma reachable_Inv w : reachable cfg w -> Inv cfg w.
Proof.
  induction 1 as [|w l w' r _ IH Hstep]; [apply Inv_initial|].
  eapply Inv_step; eauto.
Qed.

Lemma run_reachable ls w w' rs :
  reachable cfg w -> run cfg ls w = Some (w', rs) -> reachable cfg w'.
Proof.
  revert w rs. induction ls as [|l ls IH]; simpl; intros w rs Hw Hrun.
  - injection Hrun as <- _. assumption.
  - destruct (step cfg l w) as [[w1 r1]|] eqn:Hstep; [|discriminate].
    destruct (run cfg ls w1) as [[w2 rs2]|] eqn:Hrest; [|discriminate].
    injection Hrun as <- _.
    eapply IH; [|eassumption]. econstructor; eassumption.
Qed.





(** *** Completion and the iteration cap *)

Lemma isTaskComplete_phrase t s :
  last (steps t) = Some s -> completionPhrase (thought s) = true ->
  isTaskComplete t = inl true.
Proof. intros Hl Hp. unfold isTaskComplete. rewrite Hl, Hp. reflexivity. Qed.

Lemma isTaskComplete_throws t msg :
  isTaskComplete t = inr msg ->
  msg = "Too many consecutive errors" /\
  (3 <= recentErrors (steps t))%nat /\
  forall s, last (steps t) = Some s -> completionPhrase (thought s) = false.
Proof.
  unfold isTaskComplete.
  destruct (last (steps t)) as [s0|] eqn:Hl.
  - destruct (completionPhrase (thought s0)) eqn:Hp; [discriminate|].
    destruct (3 <=? recentErrors (steps t))%nat eqn:He; [|discriminate].
    intros [= <-]. apply Nat.leb_le in He.
    repeat split; auto. intros s [= <-]. assumption.
  - destruct (3 <=? recentErrors (steps t))%nat eqn:He; [|discriminate].
    intros [= <-]. apply Nat.leb_le in He.
    repeat split; auto. discriminate.
Qed.

(** C5.  What the generator does when it is resumed after a step whose
    thought holds a completion phrase: no further step is generated
    and the generator returns the task.  Below the iteration cap the
    task is [completed]; when the phrase arrives on iteration
    [maxIterations] the test after the loop throws and the task is
    [failed] with the error 'Maximum iterations reached'. *)
Theorem completion_phrase_at_cap w id f t s now :
  frames w !! id = Some f -> point f = AtYield ->
  tasks w !! id = Some t ->
  last (steps t) = Some s -> completionPhrase (thought s) = true ->
  exists w' t',
    next cfg id now w = Some (w', ReturnsTask t') /\
    tasks w' !! id = Some t' /\ frames w' !! id = None /\
    steps t' = steps t /\
    if (iteration f <? maxIterations cfg)%nat
    then status t' = completed /\ task_error t' = task_error t
    else status t' = failed /\
         task_error t' = Some "Maximum iterations reached".
Proof.
  intros Hf Hp Ht Hl Hc. unfold next. rewrite Hf, Ht, Hp.
  rewrite (isTaskComplete_phrase _ _ Hl Hc). unfold loopHead. simpl.
  destruct (iteration f <? maxIterations cfg)%nat eqn:Hlt.
  - apply Nat.ltb_lt in Hlt.
    destruct (maxIterations cfg <=? iteration f)%nat eqn:Hle;
      [apply Nat.leb_le in Hle; lia|].
    unfold completeBlock, finallyBlock. simpl.
    eexists _, _. split; [reflexivity|]. simpl.
    rewrite lookup_insert_eq, lookup_delete_eq. auto.
  - apply Nat.ltb_ge in Hlt.
    destruct (maxIterations cfg <=? iteration f)%nat eqn:Hle;
      [|apply Nat.leb_gt in Hle; lia].
    unfold catchBlock, finallyBlock. simpl.
    eexists _, _. split; [reflexivity|]. simpl.
    rewrite lookup_insert_eq, lookup_delete_eq. auto.
Qed.

(** *** A consumer that stops early *)

Lemma other_labels_preserve l w w' r id :
  Inv cfg w -> step cfg l w = Some (w', r) -> label_id l <> id ->
  tasks w' !! id = tasks w !! id /\ frames w' !! id = frames w !! id.
Proof.
  intros HI Hstep Hne.
  destruct (step_summary _ _ _ _ HI Hstep) as [t' _ _ E _ _ Hc | t f t' _ _ E _ _ Hc];
    rewrite E, lookup_insert_ne by assumption; (split; [reflexivity|]).
  - destruct Hc as [(_ & _ & (f & -> & _) & _) | (_ & _ & -> & _)];
      [rewrite lookup_insert_ne by assumption|]; reflexivity.
  - destruct Hc as [(_ & _ & (f' & -> & _) & _) | [(_ & _ & _ & -> & _) | (_ & _ & -> & _)]];
      [rewrite lookup_insert_ne by assumption
      |rewrite lookup_delete_ne by assumption
      |rewrite lookup_delete_ne by assumption]; reflexivity.
Qed.

(** Once the generator of a task is gone, no label moves the task. *)
Lemma finished_task_frozen l w w' r id t :
  Inv cfg w -> tasks w !! id = Some t -> frames w !! id = None ->
  step cfg l w = Some (w', r) ->
  tasks w' !! id = Some t /\ frames w' !! id = None.
Proof.
  intros HI Ht Hf Hstep.
  destruct (decide (label_id l = id)) as [E|Hne].
  - destruct (step_summary _ _ _ _ HI Hstep) as [? Hn | ? ? ? _ Hs];
      rewrite E in *; congruence.
  - destruct (other_labels_preserve _ _ _ _ id HI Hstep Hne) as [-> ->]. auto.
Qed.

Lemma finished_task_frozen_run ls : forall w w' rs id t,
  Inv cfg w -> tasks w !! id = Some t -> frames w !! id = None ->
  run cfg ls w = Some (w', rs) ->
  tasks w' !! id = Some t /\ frames w' !! id = None.
Proof.
  induction ls as [|l ls IH]; simpl; intros w w' rs id t HI Ht Hf Hrun.
  - injection Hrun as <- _. auto.
  - destruct (step cfg l w) as [[w1 r1]|] eqn:Hstep; [|discriminate].
    destruct (run cfg ls w1) as [[w2 rs2]|] eqn:Hrest; [|discriminate].
    injection Hrun as <- _.
    destruct (finished_task_frozen _ _ _ _ _ _ HI Ht Hf Hstep).
    eapply (IH w1); [eapply Inv_step| | |]; eassumption.
Qed.

Lemma untouched_task_waits_run ls : forall w w' rs id,
  Inv cfg w -> Forall (fun l => label_id l <> id) ls ->
  run cfg ls w = Some (w', rs) ->
  tasks w' !! id = tasks w !! id /\ frames w' !! id = frames w !! id.
Proof.
  induction ls as [|l ls IH]; simpl; intros w w' rs id HI Hall Hrun.
  - injection Hrun as <- _. auto.
  - destruct (step cfg l w) as [[w1 r1]|] eqn:Hstep; [|discriminate].
    destruct (run cfg ls w1) as [[w2 rs2]|] eqn:Hrest; [|discriminate].
    injection Hrun as <- _. inversion Hall as [|? ? Hl Hls]; subst.
    destruct (other_labels_preserve _ _ _ _ id HI Hstep Hl) as [<- <-].
    eapply (IH w1); [eapply Inv_step| |]; eassumption.
Qed.

(** C9.  The loop is driven by the consumer alone.  At a [yield], as
    long as the consumer does not resume the generator the task keeps
    the status [running], its generator stays suspended and is counted
    in [concurrentTasks]; and when the consumer closes the generator
    with [return()], as a [break] out of [for await] does, only the
    [finally] block runs: the counter goes down by one, nothing is
    emitted or recorded, and in every later state the task is the same
    object, still [running]. *)
Theorem early_stop_leaves_task_running w id f t :
  reachable cfg w ->
  frames w !! id = Some f -> point f = AtYield ->
  tasks w !! id = Some t ->
  status t = running /\
  (forall ls w' rs, Forall (fun l => label_id l <> id) ls ->
     run cfg ls w = Some (w', rs) ->
     tasks w' !! id = Some t /\ frames w' !! id = Some f /\
     1 <= concurrentTasks w') /\
  exists w1,
    return_ id w = Some (w1, Closed) /\
    concurrentTasks w1 = concurrentTasks w - 1 /\
    log w1 = log w /\
    forall ls w' rs, run cfg ls w1 = Some (w', rs) ->
      tasks w' !! id = Some t /\ frames w' !! id = None.
Proof.
  intros Hreach Hf Hp Ht.
  pose proof (reachable_Inv _ Hreach) as HI.
  destruct (inv_frame _ _ HI _ _ Hf) as (t0 & Ht0 & Hrun & _).
  rewrite Ht in Ht0. injection Ht0 as <-.
  split; [assumption|]. split.
  - intros ls w' rs Hall Hrun'.
    destruct (untouched_task_waits_run _ _ _ _ _ HI Hall Hrun') as [E1 E2].
    rewrite E1, E2. repeat split; auto.
    assert (HI' : Inv cfg w').
    { apply reachable_Inv. eapply run_reachable; eauto. }
    rewrite (inv_counter _ _ HI').
    enough (size (frames w') <> 0)%nat by lia.
    apply (map_size_ne_0_lookup_2 _ id). rewrite E2. eauto.
  - assert (Hret : return_ id w = Some (finallyBlock id t w, Closed)).
    { unfold return_. rewrite Hf, Ht, Hp. reflexivity. }
    eexists. split; [exact Hret|]. split; [reflexivity|].
    split; [reflexivity|].
    intros ls w' rs Hrun'.
    assert (HI1 : Inv cfg (finallyBlock id t w)).
    { eapply (Inv_step (Return id)); [exact HI|exact Hret]. }
    eapply finished_task_frozen_run; eauto; simpl.
    + apply lookup_insert_eq.
    + apply lookup_delete_eq.
Qed.

(** *** The concurrency gate *)

Lemma counter_within_ceiling w :
  reachable cfg w ->
  0 <= concurrentTasks w <= Z.max 0 (maxConcurrentTasks cfg) /\
  concurrentTasks w = Z.of_nat (size (frames w)).
Proof.
  intros Hr. destruct (reachable_Inv _ Hr) as [_ _ Hc Hm].
  split; [lia | assumption].
Qed.

(** At the ceiling a new task is failed at once: the counter and the
    frames are untouched and the loop is not entered. *)
Lemma start_at_capacity id req now w :
  tasks w !! id = None ->
  maxConcurrentTasks cfg <= concurrentTasks w ->
  exists w' t,
    start cfg id req now w = Some (w', ReturnsTask t) /\
    status t = failed /\
    task_error t = Some "Maximum concurrent tasks reached" /\
    steps t = [] /\
    tasks w' !! id = Some t /\
    concurrentTasks w' = concurrentTasks w /\ frames w' = frames w.
Proof.
  intros Hn Hcap. unfold start. rewrite Hn. simpl.
  apply Z.leb_le in Hcap. rewrite Hcap.
  eexists _, _. split; [reflexivity|]. simpl.
  rewrite lookup_insert_eq. auto 10.
Qed.

(** The counter goes up by one exactly when a step admits a task into
    the loop and down by one exactly when a step ends a generator
    that was in the loop. *)
Lemma counter_follows_frames l w w' r :
  reachable cfg w -> step cfg l w = Some (w', r) ->
  let id := label_id l in
  match frames w !! id, frames w' !! id with
  | None, Some _ => concurrentTasks w' = concurrentTasks w + 1
  | Some _, None => concurrentTasks w' = concurrentTasks w - 1
  | _, _ => concurrentTasks w' = concurrentTasks w
  end.
Proof.
  intros Hreach Hstep id.
  pose proof (reachable_Inv _ Hreach) as HI.
  destruct (step_summary _ _ _ _ HI Hstep) as [t' _ Hnf _ _ _ Hc | t f t' _ Hf _ _ _ Hc];
    fold id in Hnf || fold id in Hf.
  - rewrite Hnf.
    destruct Hc as [(_ & _ & (f & -> & _) & _ & ->) | (_ & _ & -> & ->)].
    + fold id. rewrite lookup_insert_eq. reflexivity.
    + rewrite Hnf. reflexivity.
  - rewrite Hf.
    destruct Hc as [(_ & _ & (f' & -> & _) & ->) | [(_ & _ & _ & -> & ->) | (_ & _ & -> & ->)]];
      fold id; rewrite ?lookup_insert_eq, ?lookup_delete_eq; reflexivity.
Qed.

End Facts.

(** *** Concrete runs with the default configuration *)

Lemma worldAfter_reachable ls :
  run defaultConfig ls initial = Some (worldAfter ls, repliesAfter ls) ->
  reachable defaultConfig (worldAfter ls).
Proof. apply run_reachable. constructor. Qed.


(** C5 at the fifteenth iteration of the default configuration. *)
Lemma completion_phrase_at_cap_witness :
  let w := worldAfter capRun in
  length (stepsOf w "task-1") = 15%nat /\
  statusOf w "task-1" = Some running /\
  exists w' t',
    next defaultConfig "task-1" 0 w = Some (w', ReturnsTask t') /\
    tasks w' !! "task-1" = Some t' /\
    status t' = failed /\
    task_error t' = Some "Maximum iterations reached".
Proof.
  intros w.
  split; [vm_compute; reflexivity|].
  split; [vm_compute; reflexivity|].
  destruct (completion_phrase_at_cap defaultConfig w "task-1"
              {| iteration := 15; startTime := 0; point := AtYield |}
              (default (Build_Task EmptyString EmptyString queued [] VUndefined None 0 0 None)
                       (tasks w !! "task-1"))
              (plainStep "The screenshot is saved. Task complete.") 0)
    as (w' & t' & Hnext & Hstored & _ & _ & Hst & Herr);
    try (vm_compute; reflexivity).
  exists w', t'. auto.
Defined.

(** C9 after three steps of a task, where the route POST /api/tasks
    leaves its loop. *)
Lemma early_stop_leaves_task_running_witness :
  let w := worldAfter (removelast (postTask "task-1")) in
  length (stepsOf w "task-1") = 3%nat /\
  concurrentTasks w = 1 /\
  exists w1,
    return_ "task-1" w = Some (w1, Closed) /\
    concurrentTasks w1 = 0 /\
    forall ls w' rs, run defaultConfig ls w1 = Some (w', rs) ->
      statusOf w' "task-1" = Some running.
Proof.
  intros w.
  split; [vm_compute; reflexivity|].
  split; [vm_compute; reflexivity|].
  assert (Hreach : reachable defaultConfig w)
    by (apply worldAfter_reachable; vm_compute; reflexivity).
  destruct (early_stop_leaves_task_running defaultConfig w "task-1"
              {| iteration := 3; startTime := 0; point := AtYield |}
              (default (Build_Task EmptyString EmptyString queued [] VUndefined None 0 0 None)
                       (tasks w !! "task-1"))
              Hreach)
    as (Hrun & _ & w1 & Hret & Hcnt & _ & Hfrozen);
    try (vm_compute; reflexivity).
  exists w1. split; [exact Hret|]. split.
  - rewrite Hcnt. vm_compute. reflexivity.
  - intros ls w' rs Hrun'. destruct (Hfrozen ls w' rs Hrun') as [Ht _].
    unfold statusOf. rewrite Ht. exact (f_equal Some Hrun).
Defined.

(** C3.  Four requests to POST /api/tasks with the default ceiling of
    three: each generator is closed after three steps, so its
    [finally] block gives the slot back while the task keeps the status
    [running].  After the fourth request four tasks hold the status
    [running] and the counter is back to zero. *)
Theorem four_tasks_hold_running_status :
  let w := worldAfter fourPosts in
  run defaultConfig fourPosts initial = Some (w, repliesAfter fourPosts) /\
  maxConcurrentTasks defaultConfig = 3 /\
  runningTasks w = 4%nat /\
  concurrentTasks w = 0 /\
  statusOf w "task-1" = Some running /\
  statusOf w "task-2" = Some running /\
  statusOf w "task-3" = Some running /\
  statusOf w "task-4" = Some running.
Proof. vm_compute. repeat split; reflexivity. Qed.

(** C10.  Three failed steps of which the last one says the task is
    complete: [isTaskComplete] answers [true] and does not throw.  As
    the first three steps of a task they end it as [completed]; as the
    steps 13, 14 and 15 they end it as [failed] with the error
    'Maximum iterations reached'. *)
Theorem completion_with_errors_at_cap_fails :
  let early := worldAfter errorsEarlyRun in
  let late := worldAfter errorsAtCapRun in
  (forall t, tasks late !! "task-1" = Some t ->
     recentErrors (steps t) = 3%nat /\ isTaskComplete t = inl true) /\
  length (stepsOf early "task-1") = 3%nat /\
  statusOf early "task-1" = Some completed /\
  errorOf early "task-1" = None /\
  length (stepsOf late "task-1") = 15%nat /\
  statusOf late "task-1" = Some failed /\
  errorOf late "task-1" = Some "Maximum iterations reached".
Proof.
  split.
  - intros t Ht. vm_compute in Ht. injection Ht as <-.
    split; vm_compute; reflexivity.
  - vm_compute. repeat split; reflexivity.
Qed.

End PlannerFacts.


Module BrokerFacts.
Import Broker.

Lemma callsOf_addCall_eq i b m : callsOf (addCall i b m) i = (callsOf m i ++ [b])%list.
Proof. unfold callsOf at 1, addCall. rewrite lookup_insert_eq. reflexivity. Qed.

Lemma callsOf_addCall_ne i j b m : j <> i -> callsOf (addCall j b m) i = callsOf m i.
Proof. intros H. unfold callsOf, addCall. rewrite lookup_insert_ne by assumption. reflexivity. Qed.

Lemma keyed_delete k st rc cc em :
  keyed st ->
  keyed {| approvalQueue := delete k (approvalQueue st); resolveCalls := rc;
           callbackCalls := cc; emitted := em |}.
Proof.
  intros Hk j r; simpl. intros H.
  apply lookup_delete_Some in H as [_ H]. eauto.
Qed.

Lemma keyed_exec o st : keyed st -> keyed (exec o st).1.
Proof.
  intros Hk. destruct o as [request|j|j reason|j]; simpl.
  - intros k r; simpl. destruct (decide (k = id request)) as [->|Hne].
    + rewrite lookup_insert_eq. intros [= <-]. reflexivity.
    + rewrite lookup_insert_ne by congruence. apply Hk.
  - unfold approveAction. destruct (approvalQueue st !! j); simpl; [|assumption].
    apply keyed_delete. assumption.
  - unfold denyAction. destruct (approvalQueue st !! j); simpl; [|assumption].
    apply keyed_delete. assumption.
  - unfold timerFires. destruct (approvalQueue st !! j); simpl; [|assumption].
    apply keyed_delete. assumption.
Qed.

(** An operation on another request leaves request [i] as it is. *)
Lemma exec_other i o st :
  keyed st -> resolver i o = None -> otherRequest i o ->
  view (exec o st).1 i = view st i /\ (decision i o = false).
Proof.
  intros Hk Hres Hoth. unfold view.
  destruct o as [request|j|j reason|j]; simpl in *.
  - rewrite lookup_insert_ne by assumption. auto.
  - case_decide; [discriminate|]. rewrite bool_decide_eq_false_2 by assumption.
    unfold approveAction. destruct (approvalQueue st !! j) as [r|] eqn:Hj; simpl; [|auto].
    rewrite (Hk _ _ Hj).
    rewrite lookup_delete_ne, !callsOf_addCall_ne by assumption. auto.
  - case_decide; [discriminate|]. rewrite bool_decide_eq_false_2 by assumption.
    unfold denyAction. destruct (approvalQueue st !! j) as [r|] eqn:Hj; simpl; [|auto].
    rewrite (Hk _ _ Hj).
    rewrite lookup_delete_ne, !callsOf_addCall_ne by assumption. auto.
  - case_decide; [discriminate|].
    unfold timerFires. destruct (approvalQueue st !! j) as [r|] eqn:Hj; simpl; [|auto].
    rewrite lookup_delete_ne, !callsOf_addCall_ne by assumption. auto.
Qed.

(** Once request [i] has left the queue, nothing resolves it again and
    the decisions on it are refused. *)
Lemma exec_resolved i o st :
  keyed st -> approvalQueue st !! i = None -> otherRequest i o ->
  view (exec o st).1 i = view st i /\
  (decision i o = true -> (exec o st).2 = Some false).
Proof.
  intros Hk Hgone Hoth.
  destruct (resolver i o) as [d|] eqn:Hres.
  - unfold view. destruct o as [request|j|j reason|j]; simpl in *;
      try discriminate; case_decide; try discriminate; subst j.
    + unfold approveAction. rewrite Hgone. simpl. rewrite Hgone. auto.
    + unfold denyAction. rewrite Hgone. simpl. rewrite Hgone. auto.
    + unfold timerFires. rewrite Hgone. simpl. rewrite Hgone.
      split; [reflexivity|discriminate].
  - destruct (exec_other i o st Hk Hres Hoth) as [Hv Hd].
    split; [assumption|]. rewrite Hd. discriminate.
Qed.

(** The first operation that resolves a pending request. *)
Lemma exec_first i o st request d :
  keyed st -> approvalQueue st !! i = Some request -> resolver i o = Some d ->
  view (exec o st).1 i =
    (None, (callsOf (resolveCalls st) i ++ [d])%list,
     (callsOf (callbackCalls st) i ++ if decision i o then [d] else [])%list) /\
  (exec o st).2 = if decision i o then Some true else None.
Proof.
  intros Hk Hpend Hres. pose proof (Hk _ _ Hpend) as Hid. unfold view.
  destruct o as [r|j|j reason|j]; simpl in *;
    try discriminate; case_decide; try discriminate; subst j;
    injection Hres as <-.
  - unfold approveAction. rewrite Hpend. simpl. rewrite Hid.
    rewrite lookup_delete_eq, !callsOf_addCall_eq, bool_decide_eq_true_2 by reflexivity.
    auto.
  - unfold denyAction. rewrite Hpend. simpl. rewrite Hid.
    rewrite lookup_delete_eq, !callsOf_addCall_eq, bool_decide_eq_true_2 by reflexivity.
    auto.
  - unfold timerFires. rewrite Hpend. simpl.
    rewrite lookup_delete_eq, !callsOf_addCall_eq, app_nil_r. auto.
Qed.

Lemma keyed_run os : forall st, keyed st -> keyed (run os st).1.
Proof.
  induction os as [|o os IH]; simpl; intros st Hk; [assumption|].
  pose proof (keyed_exec o st Hk) as Hk1.
  destruct (exec o st) as [st1 r1]. specialize (IH st1 Hk1).
  destruct (run os st1) as [st2 rs]. exact IH.
Qed.

Lemma run_other i os : forall st,
  keyed st -> Forall (fun o => resolver i o = None /\ otherRequest i o) os ->
  view (run os st).1 i = view st i.
Proof.
  induction os as [|o os IH]; simpl; intros st Hk Hall; [reflexivity|].
  inversion Hall as [|? ? [Hres Hoth] Hrest]; subst.
  destruct (exec_other i o st Hk Hres Hoth) as [Hv _].
  pose proof (keyed_exec o st Hk) as Hk1.
  destruct (exec o st) as [st1 r1]. simpl in *.
  specialize (IH st1 Hk1 Hrest).
  destruct (run os st1) as [st2 rs]. simpl in *. congruence.
Qed.

Lemma run_resolved i os : forall st,
  keyed st -> approvalQueue st !! i = None -> Forall (otherRequest i) os ->
  view (run os st).1 i = view st i /\
  Forall2 (fun o r => decision i o = true -> r = Some false) os (run os st).2.
Proof.
  induction os as [|o os IH]; simpl; intros st Hk Hgone Hall; [auto|].
  inversion Hall as [|? ? Hoth Hrest]; subst.
  destruct (exec_resolved i o st Hk Hgone Hoth) as [Hv Hret].
  pose proof (keyed_exec o st Hk) as Hk1.
  destruct (exec o st) as [st1 r1]. simpl in *.
  assert (Hgone1 : approvalQueue st1 !! i = None).
  { unfold view in Hv. injection Hv as -> _ _. assumption. }
  specialize (IH st1 Hk1 Hgone1 Hrest).
  destruct (run os st1) as [st2 rs]. simpl in *.
  destruct IH as [IHv IHr]. split; [congruence|]. constructor; assumption.
Qed.

Lemma run_app os1 os2 st :
  run (os1 ++ os2) st =
  ((run os2 (run os1 st).1).1, ((run os1 st).2 ++ (run os2 (run os1 st).1).2)%list).
Proof.
  revert st. induction os1 as [|o os1 IH]; simpl; intros st.
  - destruct (run os2 st); reflexivity.
  - destruct (exec o st) as [st1 r1]. rewrite IH.
    destruct (run os1 st1) as [st2 rs]. reflexivity.
Qed.

(** A sequence of operations has a first one that resolves [i], or none. *)
Lemma first_resolver i os :
  Forall (fun o => resolver i o = None) os \/
  exists pre o post d, os = (pre ++ o :: post)%list /\
    Forall (fun o => resolver i o = None) pre /\ resolver i o = Some d.
Proof.
  induction os as [|o os [IH|(pre & o' & post & d & -> & Hpre & Ho)]].
  - left. constructor.
  - destruct (resolver i o) as [d|] eqn:Hr.
    + right. exists [], o, os, d. auto.
    + left. constructor; assumption.
  - destruct (resolver i o) as [d0|] eqn:Hr.
    + right. exists [], o, (pre ++ o' :: post)%list, d0. auto.
    + right. exists (o :: pre), o', post, d. auto.
Qed.

(** C4.  A request with a fresh id is registered and then any operations
    follow, in any order: decisions and timers for this and for other
    requests, and other requests.  Whatever the order, [resolve] of the
    request's promise and the request's [callback] are each called at
    most once.  Up to the first operation [o] that resolves the request
    (an [Approve], a [Deny] or its timer) the request is pending.  That
    operation removes it from the queue and resolves the promise with
    its value [d] - a decision does so through the request's [callback]
    and returns [true], the timer calls [resolve(false)] itself - and
    from then on the request stays out of the queue, neither [resolve]
    nor [callback] is called again, and every [Approve] or [Deny] of the
    same id returns [false].  Once the timer of the request has fired
    the promise has been resolved exactly once. *)
Theorem approval_resolved_at_most_once st request ops :
  let i := id request in
  keyed st -> view st i = (None, [], []) -> Forall (otherRequest i) ops ->
  let final := (run ops (requestApproval request st)).1 in
  (length (callsOf (resolveCalls final) i) <= 1)%nat /\
  (length (callsOf (callbackCalls final) i) <= 1)%nat /\
  (is_Some (approvalQueue final !! i) <-> settled final i = None) /\
  (In (TimerFires i) ops -> exists d, callsOf (resolveCalls final) i = [d]) /\
  forall pre o post d,
    ops = (pre ++ o :: post)%list ->
    Forall (fun o => resolver i o = None) pre -> resolver i o = Some d ->
    let st1 := (run pre (requestApproval request st)).1 in
    let st2 := (exec o st1).1 in
    view st1 i = (Some request, [], []) /\
    view st2 i = (None, [d], if decision i o then [d] else []) /\
    (exec o st1).2 = (if decision i o then Some true else None) /\
    view final i = view st2 i /\ settled final i = Some d /\
    Forall2 (fun o r => decision i o = true -> r = Some false)
            post (run post st2).2.
Proof.
  intros i Hk Hfresh Hops final.
  set (st0 := requestApproval request st).
  assert (Hk0 : keyed st0) by exact (keyed_exec (Request request) st Hk).
  assert (Hv0 : view st0 i = (Some request, [], [])).
  { unfold view in *. injection Hfresh as _ H2 H3. subst st0; simpl.
    rewrite lookup_insert_eq. fold i. congruence. }
  assert (Hdetail : forall pre o post d,
    ops = (pre ++ o :: post)%list ->
    Forall (fun o => resolver i o = None) pre -> resolver i o = Some d ->
    let st1 := (run pre st0).1 in
    let st2 := (exec o st1).1 in
    view st1 i = (Some request, [], []) /\
    view st2 i = (None, [d], if decision i o then [d] else []) /\
    (exec o st1).2 = (if decision i o then Some true else None) /\
    view final i = view st2 i /\ settled final i = Some d /\
    Forall2 (fun o r => decision i o = true -> r = Some false)
            post (run post st2).2).
  { intros pre o post d -> Hpre Ho st1 st2.
    apply Forall_app in Hops as [Hops1 Hops2].
    inversion Hops2 as [|? ? Hoo Hops3]; subst.
    assert (Hv1 : view st1 i = (Some request, [], [])).
    { subst st1. rewrite run_other; [assumption|assumption|].
      rewrite Forall_forall in *. auto. }
    assert (Hk1 : keyed st1) by (apply keyed_run; assumption).
    assert (Hp1 : approvalQueue st1 !! i = Some request).
    { unfold view in Hv1. congruence. }
    destruct (exec_first i o st1 request d Hk1 Hp1 Ho) as [Hv2 Hret].
    fold st2 in Hv2.
    assert (Hv2' : view st2 i = (None, [d], if decision i o then [d] else [])).
    { rewrite Hv2. unfold view in Hv1. injection Hv1 as _ -> ->. reflexivity. }
    assert (Hk2 : keyed st2) by (apply keyed_exec; assumption).
    assert (Hg2 : approvalQueue st2 !! i = None).
    { unfold view in Hv2'. congruence. }
    destruct (run_resolved i post st2 Hk2 Hg2 Hops3) as [Hv3 Hrets].
    assert (Hfin : final = (run post st2).1).
    { subst final. fold st0. rewrite run_app. simpl.
      fold st1. destruct (exec o st1) as [s r] eqn:He. simpl in *.
      subst st2. destruct (run post s); reflexivity. }
    repeat split; try assumption.
    - rewrite Hfin. assumption.
    - unfold settled. rewrite Hfin.
      unfold view in Hv3, Hv2'. injection Hv3 as _ -> _.
      injection Hv2' as _ -> _. reflexivity. }
  destruct (first_resolver i ops) as [Hnone | (pre & o & post & d & E & Hpre & Ho)].
  - assert (Hvf : view final i = (Some request, [], [])).
    { subst final. fold st0. rewrite run_other; [assumption|assumption|].
      rewrite Forall_forall in *. auto. }
    unfold view in Hvf. injection Hvf as Hq Hr Hc.
    refine (conj _ (conj _ (conj _ (conj _ Hdetail)))).
    + rewrite Hr. simpl. lia.
    + rewrite Hc. simpl. lia.
    + unfold settled. rewrite Hr, Hq. simpl. split; eauto.
    + intros Hin. rewrite List.Forall_forall in Hnone.
      specialize (Hnone _ Hin). simpl in Hnone.
      rewrite decide_True in Hnone by reflexivity. discriminate.
  - destruct (Hdetail pre o post d E Hpre Ho) as (_ & Hv2 & _ & Hvf & Hs & _).
    rewrite Hv2 in Hvf. unfold view in Hvf. injection Hvf as Hq Hr Hc.
    refine (conj _ (conj _ (conj _ (conj _ Hdetail)))).
    + rewrite Hr. simpl. lia.
    + rewrite Hc. destruct (decision i o); simpl; lia.
    + rewrite Hs, Hq. split; [intros [? [=]] | discriminate].
    + intros _. eauto.
Qed.

(** *** A late decision races the timer *)

Lemma keyed_empty : keyed empty.
Proof. intros k r H. simpl in H. rewrite lookup_empty in H. discriminate. Qed.

(** C4 at the race between the timer and a late decision. *)
Lemma approval_resolved_at_most_once_witness :
  let final := (run raceOps (requestApproval lateRequest empty)).1 in
  (length (callsOf (resolveCalls final) "approval-1") <= 1)%nat /\
  settled final "approval-1" = Some false /\
  approvalQueue final !! "approval-1" = None /\
  (run raceOps (requestApproval lateRequest empty)).2
    = [None; Some true; None; Some false; Some false].
Proof.
  intros final.
  destruct (approval_resolved_at_most_once empty lateRequest raceOps)
    as (Hres & _ & _ & _ & Hdetail).
  - exact keyed_empty.
  - vm_compute. reflexivity.
  - repeat constructor; simpl; discriminate.
  - destruct (Hdetail [Request quickRequest; Approve "approval-2"]
                      (TimerFires "approval-1")
                      [Approve "approval-1"; Deny "approval-1" (Some "too late")]
                      false)
      as (_ & _ & _ & _ & Hsettled & _);
      [reflexivity | repeat constructor | reflexivity |].
    split; [exact Hres|]. split; [exact Hsettled|].
    split; vm_compute; reflexivity.
Defined.

End BrokerFacts.


Module RegistryFacts.
Import Registry.

Lemma executeTool_unknown tools toolName params context :
  tools !! toolName = None ->
  executeTool tools toolName params context =
    (Returns (failure ("Tool not found: " +:+ toolName)), [ToolMetric toolName false]).
Proof. intros H. unfold executeTool. rewrite H. reflexivity. Qed.

Lemma caught_raised toolName m calls :
  (caught toolName (Raised m) calls).1 = Returns (failure (messageOrUnknown m)).
Proof. reflexivity. Qed.



(** *** Concrete tools *)


(** A rejection without a reason leaves [executeTool] through its own
    [catch] block. *)
Lemma executeTool_nullish_escapes :
  exists e, (executeTool someTools "flaky" VNull plannerContext).1 = Throws e.
Proof. eexists. vm_compute. reflexivity. Qed.


(** *** The order of the checks of a dispatch *)

(** C6, as amended.  A dispatch of the planner looks the tool up, asks
    for approval when the tool requires it - before any validation and
    whatever the parameters are - and only then enters the registry,
    which parses the parameters against the schema, runs the custom
    validator when there is one and executes the tool.  The stages run
    in this order and a dispatch that stops early does not succeed. *)
Theorem dispatch_order tools taskId toolName params decision :
  let res := (dispatch tools taskId toolName params decision).1 in
  let calls := (dispatch tools taskId toolName params decision).2 in
  match tools !! toolName with
  | None =>
      res = Returns (failure ("Tool not found: " +:+ toolName)) /\ calls = []
  | Some tool =>
      stages calls `prefix_of` plan tool /\
      (requiresApproval tool = true -> head calls = Some (AskedApproval toolName)) /\
      (requiresApproval tool = false -> ~ In Approval (stages calls)) /\
      (requiresApproval tool = true -> decision = false ->
         res = Returns (failure "Tool execution denied by user") /\
         calls = [AskedApproval toolName]) /\
      (stages calls <> plan tool -> notSuccess res) /\
      (stages calls = plan tool ->
         exists data, parameters tool params = ParseOk data /\ accepted tool data /\
           match execute tool data {| ctx_taskId := Some taskId; approved := Some true |} with
           | Returns r => res = Returns r
           | Throws e => res = (caught toolName e []).1
           end)
  end.
Proof.
  intros res calls. subst res calls. unfold dispatch.
  destruct (tools !! toolName) as [tool|] eqn:Htool; [|auto].
  unfold executeTool, plan, accepted, caught. rewrite Htool.
  destruct (requiresApproval tool) eqn:Hreq; destruct decision; simpl;
    destruct (parameters tool params) as [data|message]; simpl;
    destruct (validate tool) as [validator|]; simpl;
    repeat match goal with
    | |- context [validator data] =>
        destruct (validator data) as [v|e] eqn:?; simpl
    | |- context [valid ?v] => destruct (valid v) eqn:?; simpl
    | |- context [execute tool ?d ?c] =>
        destruct (execute tool d c) as [r|e'] eqn:?; simpl
    end;
    repeat split;
    try discriminate; try congruence; try tauto;
    try (intros; discriminate);
    try (intros _; reflexivity);
    try (intros _; eexists; split; [reflexivity|]; split; [eauto|];
         match goal with H : execute _ _ _ = _ |- _ => rewrite H end;
         reflexivity);
    try (intros _;
         match goal with
         | |- notSuccess (match messageOf ?e with _ => _ end) =>
             destruct e; simpl; auto
         end);
    try (intros _ H; intuition discriminate);
    try (eexists; reflexivity).
Qed.

(** C6, the claim as stated fails: the built-in tool [exec] requires
    approval and has a validator that rejects dangerous commands.  For a
    command that the validator rejects, and for parameters that the
    schema rejects, the planner has asked for approval before the
    registry validates anything. *)
Lemma approval_asked_before_validation :
  requiresApproval execTool = true /\
  execValidate riskyCommand =
    Returns {| valid := false;
               errors := Some ["Potentially dangerous command detected"] |} /\
  dispatch someTools "task-1" "exec" riskyCommand true =
    (Returns (failure "Validation failed: Potentially dangerous command detected"),
     [AskedApproval "exec"; SafeParsed "exec"; Validated "exec";
      ToolMetric "exec" false]) /\
  execSchema (VRecord []) = ParseError "command: Required" /\
  dispatch someTools "task-1" "exec" (VRecord []) true =
    (Returns (failure "Invalid parameters: command: Required"),
     [AskedApproval "exec"; SafeParsed "exec"; ToolMetric "exec" false]).
Proof. vm_compute. repeat split; reflexivity. Qed.

(** An approved harmless command passes every stage. *)
Lemma dispatch_exec_harmless :
  let res := dispatch someTools "task-1" "exec" harmlessCommand true in
  stages res.2 = plan execTool /\
  exists r, res.1 = Returns r /\ success r = true.
Proof. vm_compute. split; [reflexivity|]. eexists. split; reflexivity. Qed.

(** C6, as amended, at the tool [exec] and a command its validator
    rejects. *)
Lemma dispatch_order_witness :
  let calls := (dispatch someTools "task-1" "exec" riskyCommand true).2 in
  head calls = Some (AskedApproval "exec") /\
  stages calls = [Approval; Schema; Validator] /\
  notSuccess (dispatch someTools "task-1" "exec" riskyCommand true).1.
Proof.
  intros calls.
  pose proof (dispatch_order someTools "task-1" "exec" riskyCommand true) as H.
  cbv zeta in H.
  assert (Hlook : someTools !! "exec" = Some execTool) by (vm_compute; reflexivity).
  rewrite Hlook in H. destruct H as (_ & Hfirst & _ & _ & Hstop & _).
  split; [apply Hfirst; reflexivity|].
  split; [vm_compute; reflexivity|].
  apply Hstop. vm_compute. discriminate.
Defined.

End RegistryFacts.


Module LLMFacts.
Import LLM.

Section Facts.
Context (stringify : list Message -> option (list string) -> string -> string).
Context (cfg : Config).

Lemma lastErrorAfter_snoc provider pre model : forall lastError,
  lastErrorAfter provider (pre ++ [model]) lastError =
  match provider model with
  | Fails e | StreamFails e => Some e
  | Succeeds _ _ => lastErrorAfter provider pre lastError
  end.
Proof. induction pre as [|m pre IH]; intros lastError; simpl; auto. Qed.

(** Models that fail transiently are passed over: each one is requested
    and gets a failure metric. *)
Lemma tryModels_skips provider key stream later pre : forall rest lastError cl,
  Forall (transient provider) pre ->
  tryModels provider key stream later (pre ++ rest) lastError cl =
  tryModels provider key stream later rest
    (lastErrorAfter provider pre lastError)
    {| cache := cache cl;
       metrics := (metrics cl ++ failureMetrics pre)%list;
       requests := (requests cl ++ pre)%list |}.
Proof.
  induction pre as [|model pre IH]; intros rest lastError cl Hall.
  - simpl. rewrite !app_nil_r. destruct cl; reflexivity.
  - inversion Hall as [|? ? (e & He & Hretry) Hrest]; subst.
    cbn [app tryModels]. rewrite He, Hretry. rewrite IH by assumption.
    unfold recordMetric; simpl. rewrite He, <- !app_assoc. reflexivity.
Qed.

(** C7, as amended.  When the cache does not answer, [chat] requests the
    models in order, the primary one first.  It passes over the models
    that fail with the status 429, 500, 502 or 503 and records a failure
    metric for each.  At the first model that does something else it
    stops: a response is returned as it is, with a success metric only if
    the provider reported the usage; another failure is recorded and
    thrown as it is.  When every model fails transiently the error
    'All models failed. Last error: ...' with the message of the last
    model's error is thrown. *)
Theorem chat_fallback provider now later messages tools stream cl :
  stream = true \/
  cacheGet (getCacheKey stringify cfg messages tools) now (cache cl) = None ->
  let models := openRouterModel cfg :: fallbackModels cfg in
  let res := chat stringify cfg provider now later messages tools stream cl in
  (forall pre model post, models = (pre ++ model :: post)%list ->
     Forall (transient provider) pre ->
     (forall r u, provider model = Succeeds r u ->
        res.2 = Response (withUsage r u) /\
        requests res.1 = (requests cl ++ pre ++ [model])%list /\
        metrics res.1 = (metrics cl ++ failureMetrics pre ++
                         match u with
                         | Some _ => [LLMMetric model true]
                         | None => []
                         end)%list) /\
     (forall e, provider model = Fails e -> shouldRetry e = false ->
        res.2 = Error e /\
        requests res.1 = (requests cl ++ pre ++ [model])%list /\
        metrics res.1 = (metrics cl ++ failureMetrics (pre ++ [model]))%list)) /\
  (forall pre model e, models = (pre ++ [model])%list ->
     Forall (transient provider) models -> provider model = Fails e ->
     res.2 = Error (allFailed (Some e)) /\
     message (allFailed (Some e)) = "All models failed. Last error: " +:+ message e /\
     requests res.1 = (requests cl ++ models)%list /\
     metrics res.1 = (metrics cl ++ failureMetrics models)%list).
Proof.
  intros Hmiss models res. subst res. unfold chat.
  assert (Hmiss' : (if stream then None
                    else cacheGet (getCacheKey stringify cfg messages tools) now (cache cl))
                   = None) by (destruct Hmiss as [->| ->]; [|destruct stream]; reflexivity).
  rewrite Hmiss'. fold models. clear Hmiss Hmiss'.
  set (cl0 := if stream then cl
              else afterMiss (getCacheKey stringify cfg messages tools) now cl).
  assert (Hr0 : requests cl0 = requests cl)
    by (subst cl0; destruct stream; reflexivity).
  assert (Hm0 : metrics cl0 = metrics cl)
    by (subst cl0; destruct stream; reflexivity).
  clearbody cl0. rewrite <- Hr0, <- Hm0. clear Hr0 Hm0 cl. rename cl0 into cl.
  split.
  - intros pre model post -> Hpre. rewrite tryModels_skips by assumption.
    split.
    + intros r u Hp. cbn [tryModels]. rewrite Hp.
      destruct stream, u; simpl; rewrite <- ?app_assoc, ?app_nil_r; auto.
    + intros e Hp Hno. cbn [tryModels]. rewrite Hp, Hno. simpl.
      unfold failureMetrics. rewrite map_app, <- !app_assoc. auto.
  - intros pre model e E Hall Hp.
    clearbody models.
    pose proof (tryModels_skips provider (getCacheKey stringify cfg messages tools)
                  stream later models [] None cl Hall) as Hrun.
    rewrite app_nil_r in Hrun. rewrite Hrun. simpl.
    split; [|auto].
    rewrite E, lastErrorAfter_snoc, Hp. reflexivity.
Qed.






Lemma tryModels_frame provider key stream later models :
  forall lastError cl,
  let res := tryModels provider key stream later models lastError cl in
  (forall k, k <> key -> cache res.1 !! k = cache cl !! k) /\
  (forall e, res.2 = Error e -> cache res.1 = cache cl) /\
  exists pre, pre `prefix_of` models /\
    requests res.1 = (requests cl ++ pre)%list /\
    (length (metrics res.1) <= length (metrics cl) + length pre)%nat /\
    (models <> [] -> pre <> []).
Proof.
  induction models as [|model rest IH]; intros lastError cl; cbn [tryModels].
  - simpl. repeat split; auto.
    exists []. rewrite app_nil_r. split; [reflexivity|]. split; [reflexivity|].
    split; [lia|congruence].
  - assert (Hfailed : forall e,
      let res := (let cl0 := recordMetric (LLMMetric model false)
                               {| cache := cache cl; metrics := metrics cl;
                                  requests := (requests cl ++ [model])%list |} in
                  if shouldRetry e
                  then tryModels provider key stream later rest (Some e) cl0
                  else (cl0, Error e)) in
      (forall k, k <> key -> cache res.1 !! k = cache cl !! k) /\
      (forall e0, res.2 = Error e0 -> cache res.1 = cache cl) /\
      exists pre, pre `prefix_of` (model :: rest) /\
        requests res.1 = (requests cl ++ pre)%list /\
        (length (metrics res.1) <= length (metrics cl) + length pre)%nat /\
        (model :: rest <> [] -> pre <> [])).
    { intros e. cbv zeta. destruct (shouldRetry e).
      - match goal with
        | |- context [tryModels _ _ _ _ _ ?le ?c] =>
            destruct (IH le c) as (Hk & He & pre & Hpre & Hreq & Hlen & Hne)
        end.
        simpl in Hk, He, Hreq, Hlen.
        split; [exact Hk|]. split; [exact He|].
        exists (model :: pre). split; [apply prefix_cons; assumption|].
        split; [rewrite Hreq, <- app_assoc; reflexivity|].
        split; [|discriminate].
        rewrite length_app in Hlen. simpl in *. lia.
      - simpl. split; [auto|]. split; [auto|].
        exists [model]. split; [apply prefix_cons, prefix_nil|].
        split; [reflexivity|]. split; [|discriminate].
        rewrite length_app. simpl. lia. }
    destruct (provider model) as [e|r u|e].
    + apply Hfailed.
    + destruct stream.
      * simpl. split; [destruct u; auto|]. split; [discriminate|].
        exists [model]. split; [apply prefix_cons, prefix_nil|].
        split; [destruct u; reflexivity|]. split; [|discriminate].
        destruct u; simpl; rewrite ?length_app; simpl; lia.
      * simpl. split; [|split; [discriminate|]].
        -- intros k Hk. unfold cacheSet. rewrite lookup_insert_ne by congruence.
           destruct u; reflexivity.
        -- exists [model]. split; [apply prefix_cons, prefix_nil|].
           split; [destruct u; reflexivity|]. split; [|discriminate].
           destruct u; simpl; rewrite ?length_app; simpl; lia.
    + destruct stream; [|apply Hfailed].
      simpl. split; [auto|]. split; [auto|].
      exists [model]. split; [apply prefix_cons, prefix_nil|].
      split; [reflexivity|]. split; [lia|discriminate].
Qed.

Lemma cacheAfterGet_miss key now c :
  cacheGet key now c = None -> cacheAfterGet key now c = delete key c.
Proof.
  unfold cacheGet, cacheAfterGet.
  destruct (c !! key) as [[v expires]|] eqn:Hc.
  - destruct (expires <? now); [reflexivity|discriminate].
  - intros _. symmetry. apply delete_id. assumption.
Qed.

Lemma cacheAfterGet_other key now c k :
  k <> key -> cacheAfterGet key now c !! k = c !! k.
Proof.
  intros Hne. unfold cacheAfterGet.
  destruct (c !! key) as [[v expires]|]; [|reflexivity].
  destruct (expires <? now); [|reflexivity].
  apply lookup_delete_ne. congruence.
Qed.


End Facts.

(** *** Concrete calls with the default models *)

(** C7, the claim as stated fails: the primary model fails with the
    status 429 and the first fallback answers without reporting the
    usage, as a streamed completion does unless the usage is asked for.
    Two attempts were made and one metric was recorded, in a streaming
    call and in a call that is not streaming. *)
Lemma fallback_success_without_metric :
  let res := chat render defaultConfig (primaryLimited None) 0 1
                  conversation None false fresh in
  let streamed := chat render defaultConfig (primaryLimited None) 0 1
                       conversation None true fresh in
  res.2 = Response answer /\
  requests res.1 = [primary; firstFallback] /\
  metrics res.1 = [LLMMetric primary false] /\
  streamed.2 = Response answer /\
  requests streamed.1 = [primary; firstFallback] /\
  metrics streamed.1 = [LLMMetric primary false].
Proof. vm_compute. repeat split; reflexivity. Qed.

(** C7, as amended, at a rate-limited primary model and a fallback that
    reports the usage. *)
Lemma chat_fallback_witness :
  let res := chat render defaultConfig (primaryLimited (Some reportedUsage)) 0 1
                  conversation None false fresh in
  res.2 = Response (withUsage answer (Some reportedUsage)) /\
  requests res.1 = [primary; firstFallback] /\
  metrics res.1 = [LLMMetric primary false; LLMMetric firstFallback true].
Proof.
  intros res.
  destruct (chat_fallback render defaultConfig (primaryLimited (Some reportedUsage))
              0 1 conversation None false fresh) as [Hfirst _].
  - right. vm_compute. reflexivity.
  - destruct (Hfirst [primary] firstFallback ["anthropic/claude-3-haiku"])
      as [Hok _].
    + reflexivity.
    + repeat constructor. exists rateLimited. split; reflexivity.
    + exact (Hok answer (Some reportedUsage) eq_refl).
Defined.



End LLMFacts.


(** ** Properties of the strings *)

Module TextFacts.
Import Text.

Lemma append_cons c a b : String c a +:+ b = String c (a +:+ b).
Proof. reflexivity. Qed.

Lemma append_assoc a b c : (a +:+ b) +:+ c = a +:+ (b +:+ c).
Proof.
  induction a as [|x a IH]; [reflexivity|].
  rewrite !append_cons, IH. reflexivity.
Qed.

Lemma append_length a b :
  String.length (a +:+ b) = (String.length a + String.length b)%nat.
Proof.
  induction a as [|x a IH]; [reflexivity|].
  rewrite append_cons. cbn [String.length]. rewrite IH. reflexivity.
Qed.

Lemma prefix_spec p s :
  String.prefix p s = true <-> exists r, s = p +:+ r.
Proof.
  revert s. induction p as [|a p IH]; intros s.
  - split; [intros _; exists s; reflexivity | intros _; destruct s; reflexivity].
  - destruct s as [|b s].
    + split; [discriminate | intros [r Hr]; discriminate].
    + cbn [String.prefix]. destruct (ascii_dec a b) as [->|Hne].
      * rewrite IH. split; intros [r Hr]; exists r.
        -- rewrite Hr. reflexivity.
        -- cbn [String.append] in Hr. injection Hr as ->. reflexivity.
      * split; [discriminate|].
        intros [r Hr]. cbn [String.append] in Hr. injection Hr as -> _.
        contradiction.
Qed.

(** [includes] is the substring test. *)
Lemma includes_spec s sub :
  includes s sub = true <-> exists pre post, s = pre +:+ sub +:+ post.
Proof.
  induction s as [|c s IH]; cbn [includes].
  - rewrite orb_false_r, prefix_spec. split.
    + intros [r Hr]. exists EmptyString, r. exact Hr.
    + intros (pre & post & H). destruct pre; [exists post; exact H|discriminate].
  - rewrite orb_true_iff, prefix_spec, IH. split.
    + intros [[r Hr] | (pre & post & ->)].
      * exists EmptyString, r. exact Hr.
      * exists (String c pre), post. reflexivity.
    + intros (pre & post & H). destruct pre as [|c' pre]; cbn [String.append] in H.
      * left. exists post. exact H.
      * right. injection H as _ ->. eauto.
Qed.

Lemma toLowerCase_app a b :
  toLowerCase (a +:+ b) = toLowerCase a +:+ toLowerCase b.
Proof.
  induction a as [|c a IH]; [reflexivity|].
  rewrite !append_cons. cbn [toLowerCase]. rewrite IH, append_cons. reflexivity.
Qed.

Lemma stripPrefix_spec p s after :
  stripPrefix p s = Some after <-> s = p +:+ after.
Proof.
  revert s. induction p as [|a p IH]; intros s; simpl.
  - split; [intros [= ->]; reflexivity | intros ->; reflexivity].
  - destruct s as [|b s]; [split; [discriminate|discriminate]|].
    destruct (Ascii.eqb_spec a b) as [->|Hne].
    + rewrite IH. split; [intros ->; reflexivity | intros [= ->]; reflexivity].
    + split; [discriminate | intros [= E _]; symmetry in E; contradiction].
Qed.

Lemma splitFirst_spec p s before after :
  splitFirst p s = Some (before, after) -> s = before +:+ p +:+ after.
Proof.
  revert before. induction s as [|c s IH]; intros before; cbn [splitFirst].
  - destruct (stripPrefix p EmptyString) as [a|] eqn:Hs; [|discriminate].
    intros [= <- <-]. apply stripPrefix_spec in Hs. exact Hs.
  - destruct (stripPrefix p (String c s)) as [a|] eqn:Hs.
    + intros [= <- <-]. apply stripPrefix_spec in Hs. exact Hs.
    + destruct (splitFirst p s) as [[b a]|]; [|discriminate].
      intros [= <- <-]. rewrite append_cons. f_equal. apply IH. reflexivity.
Qed.

Lemma stripPrefix_prefix p s :
  String.prefix p s = match stripPrefix p s with Some _ => true | None => false end.
Proof.
  destruct (stripPrefix p s) as [a|] eqn:Hs.
  - apply prefix_spec. exists a. apply stripPrefix_spec. exact Hs.
  - destruct (String.prefix p s) eqn:Hp; [|reflexivity].
    apply prefix_spec in Hp as [r Hr]. apply stripPrefix_spec in Hr. congruence.
Qed.

(** [splitFirst] finds the pattern whenever it occurs. *)
Lemma splitFirst_None p s :
  splitFirst p s = None <-> includes s p = false.
Proof.
  induction s as [|c s IH]; cbn [splitFirst includes]; rewrite stripPrefix_prefix.
  - destruct (stripPrefix p EmptyString); simpl; split; congruence.
  - destruct (stripPrefix p (String c s)); simpl; [split; congruence|].
    rewrite <- IH. destruct (splitFirst p s) as [[b a]|]; split; congruence.
Qed.

End TextFacts.


(** ** Properties of [extractResult] and [isTaskComplete] *)

Module StepFacts.
Import Text Planner Registry Steps TextFacts.

Lemma find_skips {A} (f : A -> bool) (l1 : list A) x l2 :
  Forall (fun y => f y = false) l1 -> f x = true ->
  List.find f (l1 ++ x :: l2) = Some x.
Proof.
  induction 1 as [|y l1 Hy _ IH]; intros Hx; simpl.
  - rewrite Hx. reflexivity.
  - rewrite Hy. apply IH. assumption.
Qed.

Lemma find_none {A} (f : A -> bool) (l : list A) :
  Forall (fun y => f y = false) l -> List.find f l = None.
Proof. induction 1 as [|y l Hy _ IH]; simpl; [reflexivity | rewrite Hy; exact IH]. Qed.

Lemma find_true {A} (f : A -> bool) (l : list A) x :
  List.find f l = Some x -> f x = true.
Proof.
  induction l as [|y l IH]; simpl; [discriminate|].
  destruct (f y) eqn:Hy; [intros [= <-]; exact Hy | exact IH].
Qed.

(** X1.  [extractResult] never returns a falsy value.  It returns the
    result of the last step that has a truthy result and no error, and
    the summary with the number of steps when there is no such step. *)
Theorem extractResult_last_usable t :
  truthy (extractResult t) = true /\
  (Forall (fun s => usable s = false) (steps t) ->
   extractResult t = VSummary (length (steps t))) /\
  (forall pre s post,
     steps t = (pre ++ s :: post)%list -> usable s = true ->
     Forall (fun s' => usable s' = false) post ->
     extractResult t = step_result s).
Proof.
  unfold extractResult. fold usable. split; [|split].
  - destruct (List.find usable (rev (steps t))) as [s|] eqn:Hf; [|reflexivity].
    apply find_true in Hf. unfold usable in Hf.
    apply andb_true_iff in Hf as [Hf _]. exact Hf.
  - intros Hall. rewrite find_none; [reflexivity|].
    apply Forall_rev. exact Hall.
  - intros pre s post -> Hs Hpost.
    rewrite rev_app_distr. simpl. rewrite <- app_assoc. simpl.
    rewrite find_skips; [reflexivity| |assumption].
    apply Forall_rev. exact Hpost.
Qed.

Lemma lastThree_snoc3 pre (a b c : PlanStep) :
  lastThree (pre ++ [a; b; c]) = [a; b; c].
Proof.
  unfold lastThree. rewrite length_app. simpl.
  replace (length pre + 3 - 3)%nat with (length pre) by lia.
  rewrite drop_app_length. reflexivity.
Qed.

Lemma last_snoc3 pre (a b c : PlanStep) : last (pre ++ [a; b; c]) = Some c.
Proof.
  change (pre ++ [a; b; c])%list with (pre ++ [a; b] ++ [c])%list.
  rewrite app_assoc. apply last_snoc.
Qed.

Lemma recentErrors_three l :
  (3 <= recentErrors l)%nat <->
  exists pre a b c, l = (pre ++ [a; b; c])%list /\
    truthyStr (step_error a) = true /\ truthyStr (step_error b) = true /\
    truthyStr (step_error c) = true.
Proof.
  split.
  - unfold recentErrors, lastThree. intros H.
    pose proof (take_drop (length l - 3) l) as Hsplit.
    pose proof (length_drop l (length l - 3)) as Hlen.
    destruct (drop (length l - 3) l) as [|a [|b [|c [|d rest]]]] eqn:Hd;
      simpl in H, Hlen; try lia.
    + destruct (truthyStr (step_error a)); simpl in H; lia.
    + destruct (truthyStr (step_error a)), (truthyStr (step_error b));
        simpl in H; lia.
    + exists (take (length l - 3) l), a, b, c.
      split; [symmetry; exact Hsplit|].
      destruct (truthyStr (step_error a)), (truthyStr (step_error b)),
        (truthyStr (step_error c)); simpl in H; auto; lia.
  - intros (pre & a & b & c & -> & Ha & Hb & Hc).
    unfold recentErrors. rewrite lastThree_snoc3. simpl.
    rewrite Ha, Hb, Hc. simpl. lia.
Qed.

(** X2.  [isTaskComplete] throws exactly when the task has at least
    three steps, its last three steps all carry an error, and the
    thought of the last one holds no completion phrase; what it throws
    is 'Too many consecutive errors'.  With fewer than three steps it
    never throws. *)
Theorem isTaskComplete_throws_iff t :
  ((exists msg, isTaskComplete t = inr msg) <->
   exists pre a b c, steps t = (pre ++ [a; b; c])%list /\
     truthyStr (step_error a) = true /\ truthyStr (step_error b) = true /\
     truthyStr (step_error c) = true /\ completionPhrase (thought c) = false) /\
  (forall msg, isTaskComplete t = inr msg -> msg = "Too many consecutive errors") /\
  ((length (steps t) < 3)%nat -> exists b, isTaskComplete t = inl b).
Proof.
  assert (Hiff : (exists msg, isTaskComplete t = inr msg) <->
     exists pre a b c, steps t = (pre ++ [a; b; c])%list /\
       truthyStr (step_error a) = true /\ truthyStr (step_error b) = true /\
       truthyStr (step_error c) = true /\ completionPhrase (thought c) = false).
  { split.
    - intros [msg H]. unfold isTaskComplete in H.
      destruct (match last (steps t) with
                | Some lastStep => completionPhrase (thought lastStep)
                | None => false end) eqn:Hp; [discriminate|].
      destruct (3 <=? recentErrors (steps t))%nat eqn:He; [|discriminate].
      apply Nat.leb_le, recentErrors_three in He
        as (pre & a & b & c & E & Ha & Hb & Hc).
      exists pre, a, b, c. rewrite E, last_snoc3 in Hp. auto.
    - intros (pre & a & b & c & E & Ha & Hb & Hc & Hp).
      exists "Too many consecutive errors". unfold isTaskComplete.
      rewrite E, last_snoc3, Hp.
      assert (He : (3 <= recentErrors (pre ++ [a; b; c]))%nat)
        by (apply recentErrors_three; eauto 10).
      apply Nat.leb_le in He. rewrite He. reflexivity. }
  split; [exact Hiff|]. split.
  - intros msg H. unfold isTaskComplete in H.
    repeat match type of H with
           | (if ?c then _ else _) = _ => destruct c
           end; congruence.
  - intros Hlen. destruct (isTaskComplete t) as [b|msg] eqn:H; [eauto|].
    destruct Hiff as [Hiff _].
    destruct (Hiff (ex_intro _ msg eq_refl)) as (pre & a & b & c & E & _).
    rewrite E, length_app in Hlen. simpl in Hlen. lia.
Qed.

(** X3.  The completion test ignores the case of the letters and the
    place of the phrase: when the last thought holds 'task complete' or
    'successfully completed' anywhere, in any mix of capitals and small
    letters, [isTaskComplete] returns [true], whatever errors the steps
    carry. *)
Theorem isTaskComplete_any_case t s pre mid post :
  last (steps t) = Some s ->
  thought s = pre +:+ mid +:+ post ->
  toLowerCase mid = "task complete" \/
  toLowerCase mid = "successfully completed" ->
  isTaskComplete t = inl true.
Proof.
  intros Hl Hth Hmid. unfold isTaskComplete. rewrite Hl.
  assert (Hp : completionPhrase (thought s) = true).
  { unfold completionPhrase. rewrite Hth, !toLowerCase_app.
    apply orb_true_iff.
    destruct Hmid as [-> | ->]; [left|right]; apply includes_spec; eauto. }
  rewrite Hp. reflexivity.
Qed.

(** X3 at a thought in capitals, in a task whose steps all failed. *)
Lemma isTaskComplete_any_case_witness :
  let s := failedStep "Giving up. TASK COMPLETE, more or less" "No such file" in
  isTaskComplete (taskWith [s; s; s]) = inl true.
Proof.
  intros s.
  apply (isTaskComplete_any_case (taskWith [s; s; s]) s
           "Giving up. " "TASK COMPLETE" ", more or less");
    [reflexivity | reflexivity | left; reflexivity].
Defined.

(** X1 at three steps of which the second has a result and an error. *)
Lemma extractResult_last_usable_witness :
  extractResult (taskWith threeSteps) = shot.
Proof.
  destruct (extractResult_last_usable (taskWith threeSteps)) as (_ & _ & H).
  apply (H [] (nth 0 threeSteps (plainStep EmptyString)) (skipn 1 threeSteps));
    [reflexivity | reflexivity | repeat constructor].
Defined.

(** X2 at three failed steps without a completion phrase. *)
Lemma isTaskComplete_throws_iff_witness :
  let s := failedStep "Trying again" "No such file" in
  isTaskComplete (taskWith [s; s; s]) = inr "Too many consecutive errors" /\
  exists b, isTaskComplete (taskWith [s; s]) = inl b.
Proof.
  intros s.
  destruct (isTaskComplete_throws_iff (taskWith [s; s; s])) as ([_ Hthrows] & Hmsg & _).
  destruct Hthrows as [msg Hm].
  { exists [], s, s, s. repeat split; reflexivity. }
  split.
  - rewrite Hm. f_equal. apply Hmsg. exact Hm.
  - destruct (isTaskComplete_throws_iff (taskWith [s; s])) as (_ & _ & Hshort).
    apply Hshort. simpl. lia.
Defined.

End StepFacts.


(** ** Properties of [buildMessages], [extractThought] and
    [generateNextStep] *)

Module GenerateFacts.
Import Text Planner Registry Steps TextFacts.

Lemma recentSteps_length l : (length (recentSteps l) <= memoryWindow)%nat.
Proof. unfold recentSteps. rewrite length_drop. lia. Qed.

Lemma recentSteps_app older recent :
  (memoryWindow <= length recent)%nat ->
  recentSteps (older ++ recent) = recentSteps recent.
Proof.
  intros H. unfold recentSteps. rewrite length_app.
  replace (length older + length recent - memoryWindow)%nat
    with (length older + (length recent - memoryWindow))%nat by lia.
  rewrite drop_app_add'; reflexivity.
Qed.

Lemma stepMessages_length s : (length (stepMessages s) <= 2)%nat.
Proof.
  unfold stepMessages.
  destruct (nonEmpty (thought s)), (truthyStr (observation s)); simpl; lia.
Qed.

Lemma flat_map_stepMessages_length l :
  (length (flat_map stepMessages l) <= 2 * length l)%nat.
Proof.
  induction l as [|s l IH]; simpl; [lia|].
  rewrite length_app. pose proof (stepMessages_length s). lia.
Qed.

Section Facts.
Context (plannerPrompt : string).
Context (context : option string) (constraints : list string).
Context (jsonStringify : Value -> option string).

(** X4.  The prompt is bounded: [buildMessages] gives the system prompt,
    the task instruction, at most two messages for each of the last
    [memoryWindow] = 10 steps, and the closing question, so at most 23
    messages however long the task is; steps older than the window do
    not change the result. *)
Theorem buildMessages_window t :
  let ms := buildMessages plannerPrompt context constraints t in
  (length ms <= 23)%nat /\
  (exists middle,
     ms = ({| LLM.role := "system"; LLM.text := plannerPrompt |}
           :: {| LLM.role := "user";
                 LLM.text := formatTaskInstruction context constraints t |}
           :: middle ++ [nextActionPrompt])%list /\
     (length middle <= 2 * length (steps t))%nat) /\
  (forall t' older,
     instruction t' = instruction t ->
     steps t' = (older ++ steps t)%list ->
     (memoryWindow <= length (steps t))%nat ->
     buildMessages plannerPrompt context constraints t' = ms).
Proof.
  intros ms. subst ms. unfold buildMessages. split; [|split].
  - simpl. rewrite length_app. simpl.
    pose proof (flat_map_stepMessages_length (recentSteps (steps t))).
    pose proof (recentSteps_length (steps t)). unfold memoryWindow in *. lia.
  - eexists. split; [reflexivity|].
    pose proof (flat_map_stepMessages_length (recentSteps (steps t))) as H.
    assert (length (recentSteps (steps t)) <= length (steps t))%nat
      by (unfold recentSteps; rewrite length_drop; lia).
    lia.
  - intros t' older Hi Hs Hlen.
    rewrite Hs, recentSteps_app by assumption.
    unfold formatTaskInstruction. rewrite Hi. reflexivity.
Qed.

End Facts.

(** *** [trim] and [extractThought] *)

Lemma trimStart_prefix s : exists ws, s = ws +:+ trimStart s.
Proof.
  induction s as [|c s [ws IH]]; [exists EmptyString; reflexivity|].
  cbn [trimStart]. destruct (isSpace c).
  - exists (String c ws). rewrite append_cons. congruence.
  - exists EmptyString. reflexivity.
Qed.

Lemma trimEnd_suffix s : exists ws, s = trimEnd s +:+ ws.
Proof.
  induction s as [|c s [ws IH]]; [exists EmptyString; reflexivity|].
  cbn [trimEnd]. destruct (trimEnd s) as [|c' r'] eqn:Ht.
  - destruct (isSpace c).
    + exists (String c s). reflexivity.
    + exists s. reflexivity.
  - exists ws. rewrite append_cons. congruence.
Qed.

Lemma trimStart_idem s : trimStart (trimStart s) = trimStart s.
Proof.
  induction s as [|c s IH]; [reflexivity|].
  cbn [trimStart]. destruct (isSpace c) eqn:Hc; [exact IH|].
  cbn [trimStart]. rewrite Hc. reflexivity.
Qed.

Lemma trimEnd_idem s : trimEnd (trimEnd s) = trimEnd s.
Proof.
  induction s as [|c s IH]; [reflexivity|].
  cbn [trimEnd]. destruct (trimEnd s) as [|c' r'] eqn:Ht.
  - destruct (isSpace c) eqn:Hc; [reflexivity|].
    cbn [trimEnd]. rewrite Hc. reflexivity.
  - cbn [trimEnd]. cbn [trimEnd] in IH. rewrite IH. reflexivity.
Qed.

Lemma trimEnd_keeps_start s :
  trimStart s = s -> trimStart (trimEnd s) = trimEnd s.
Proof.
  destruct s as [|c s]; [reflexivity|].
  cbn [trimStart]. destruct (isSpace c) eqn:Hc.
  - intros H. exfalso.
    destruct (trimStart_prefix s) as [ws Hws].
    assert (Hl : String.length (trimStart s) = S (String.length s))
      by (rewrite H; reflexivity).
    assert (Hs : String.length s
                 = (String.length ws + String.length (trimStart s))%nat)
      by (rewrite Hws at 1; apply append_length).
    lia.
  - intros _. cbn [trimEnd]. destruct (trimEnd s) as [|c' r'].
    + rewrite Hc. cbn [trimStart]. rewrite Hc. reflexivity.
    + cbn [trimStart]. rewrite Hc. reflexivity.
Qed.

Lemma trim_idem s : trim (trim s) = trim s.
Proof.
  unfold trim.
  rewrite (trimEnd_keeps_start (trimStart s)) by apply trimStart_idem.
  apply trimEnd_idem.
Qed.

Lemma trim_substring s : exists pre post, s = pre +:+ trim s +:+ post.
Proof.
  unfold trim. destruct (trimStart_prefix s) as [ws Hws].
  destruct (trimEnd_suffix (trimStart s)) as [ws' Hws'].
  exists ws, ws'. rewrite <- Hws'. exact Hws.
Qed.

Lemma includes_trans a b c :
  includes a b = true -> includes b c = true -> includes a c = true.
Proof.
  rewrite !includes_spec. intros (p1 & q1 & ->) (p2 & q2 & ->).
  exists (p1 +:+ p2), (q2 +:+ q1). rewrite !append_assoc. reflexivity.
Qed.

(** The text before the first occurrence of a pattern holds no
    occurrence of it. *)
Lemma splitFirst_before p s before after :
  p <> EmptyString ->
  splitFirst p s = Some (before, after) -> includes before p = false.
Proof.
  intros Hp. revert before. induction s as [|c s IH]; intros before; cbn [splitFirst].
  - destruct (stripPrefix p EmptyString) as [a|] eqn:Hs; [|discriminate].
    apply stripPrefix_spec in Hs. destruct p; [contradiction|discriminate].
  - destruct (stripPrefix p (String c s)) as [a|] eqn:Hs.
    + intros [= <- <-]. cbn [includes]. rewrite orb_false_r.
      destruct p; [contradiction|reflexivity].
    + destruct (splitFirst p s) as [[b a]|] eqn:Hsp; [|discriminate].
      intros [= <- <-]. cbn [includes]. rewrite (IH b eq_refl), orb_false_r.
      destruct (String.prefix p (String c b)) eqn:Hpre; [|reflexivity].
      apply prefix_spec in Hpre as [r Hr].
      apply splitFirst_spec in Hsp.
      assert (Hstrip : stripPrefix p (String c s) = Some (r +:+ p +:+ a)).
      { apply stripPrefix_spec. rewrite Hsp, <- append_cons, Hr.
        rewrite !append_assoc. reflexivity. }
      congruence.
Qed.

(** X7.  The thought that [generateNextStep] takes from the model's text
    is a piece of that text with the white space at both ends removed.
    When the text has a [THOUGHT:] marker the thought holds no
    [ACTION:] marker; when it has none the thought is the whole text,
    trimmed. *)
Theorem extractThought_piece content :
  let th := extractThought content in
  (exists pre post, content = pre +:+ th +:+ post) /\
  trim th = th /\
  (includes content "THOUGHT:" = true -> includes th "ACTION:" = false) /\
  (includes content "THOUGHT:" = false -> th = trim content).
Proof.
  intros th. subst th. unfold extractThought.
  destruct (splitFirst "THOUGHT:" content) as [[before rest]|] eqn:Hth.
  - pose proof (splitFirst_spec _ _ _ _ Hth) as Hc.
    assert (Hinc : includes content "THOUGHT:" = true).
    { destruct (includes content "THOUGHT:") eqn:Hi; [reflexivity|].
      apply splitFirst_None in Hi. congruence. }
    destruct (splitFirst "ACTION:" rest) as [[body after]|] eqn:Hact.
    + pose proof (splitFirst_spec _ _ _ _ Hact) as Hr.
      destruct (trim_substring body) as (p & q & Hb).
      repeat split.
      * exists (before +:+ "THOUGHT:" +:+ p), (q +:+ "ACTION:" +:+ after).
        rewrite Hc, Hr. rewrite Hb at 1. rewrite !append_assoc. reflexivity.
      * apply trim_idem.
      * intros _. destruct (includes (trim body) "ACTION:") eqn:Hi; [|reflexivity].
        assert (Hbody : includes body "ACTION:" = true).
        { eapply includes_trans; [|exact Hi]. apply includes_spec. eauto. }
        rewrite (splitFirst_before "ACTION:" rest body after) in Hbody;
          [discriminate|discriminate|exact Hact].
      * congruence.
    + destruct (trim_substring rest) as (p & q & Hb).
      repeat split.
      * exists (before +:+ "THOUGHT:" +:+ p), q.
        rewrite Hc. rewrite Hb at 1. rewrite !append_assoc. reflexivity.
      * apply trim_idem.
      * intros _. destruct (includes (trim rest) "ACTION:") eqn:Hi; [|reflexivity].
        assert (Hrest : includes rest "ACTION:" = true).
        { eapply includes_trans; [|exact Hi]. apply includes_spec. eauto. }
        apply splitFirst_None in Hact. congruence.
      * congruence.
  - apply splitFirst_None in Hth. repeat split.
    + apply trim_substring.
    + apply trim_idem.
    + congruence.
Qed.

(** *** [generateNextStep] *)

Lemma caught_throws toolName e calls e' :
  (caught toolName e calls).1 = Throws e' -> e' = typeErrorOfNullish.
Proof. destruct e; simpl; [intros [= <-]; reflexivity | discriminate]. Qed.

Local Ltac branches :=
  repeat match goal with
         | |- context [match ?x with _ => _ end] =>
             match type of x with
             | sumbool _ _ => fail 1
             | _ => destruct x eqn:?; simpl
             end
         | |- context [if ?x then _ else _] => destruct x eqn:?; simpl
         end.

(** What [executeTool] throws, when it does, is the [TypeError] of its
    own [catch] block. *)
Lemma executeTool_throws tools toolName params context e :
  (executeTool tools toolName params context).1 = Throws e ->
  e = typeErrorOfNullish.
Proof.
  unfold executeTool.
  destruct (tools !! toolName) as [tool|]; [|discriminate].
  destruct (parameters tool params) as [data|]; [|discriminate].
  assert (Hexec : forall calls,
    (if requiresApproval tool && negb (truthyFlag (approved context))
     then (Returns (failure "Tool requires approval"),
           (calls ++ [ToolMetric toolName false])%list)
     else match execute tool data context with
          | Returns result =>
              (Returns result,
               (calls ++ [Executed toolName; ToolMetric toolName (success result)])%list)
          | Throws e0 => caught toolName e0 (calls ++ [Executed toolName])%list
          end).1 = Throws e -> e = typeErrorOfNullish).
  { intros calls.
    destruct (requiresApproval tool && negb (truthyFlag (approved context)));
      [discriminate|].
    destruct (execute tool data context); [discriminate|apply caught_throws]. }
  destruct (validate tool) as [validator|]; [|apply Hexec].
  destruct (validator data) as [v|e0]; [|apply caught_throws].
  destruct (valid v); [apply Hexec|discriminate].
Qed.

Lemma dispatch_throws tools taskId toolName params decision e :
  (dispatch tools taskId toolName params decision).1 = Throws e ->
  e = typeErrorOfNullish.
Proof.
  unfold dispatch.
  destruct (tools !! toolName) as [tool|]; [|discriminate].
  destruct (executeTool tools toolName params
              {| ctx_taskId := Some taskId; approved := Some true |})
    as [res calls] eqn:Hex.
  assert (Hres : res = Throws e -> e = typeErrorOfNullish).
  { intros ->. eapply executeTool_throws. rewrite Hex. reflexivity. }
  destruct (requiresApproval tool), decision; simpl; auto; discriminate.
Qed.

Lemma executeTool_calls tools toolName params context :
  Forall (fun c => callTool c = toolName)
         (executeTool tools toolName params context).2.
Proof.
  unfold executeTool, caught. branches; repeat constructor.
Qed.

Lemma dispatch_calls tools taskId toolName params decision :
  Forall (fun c => callTool c = toolName)
         (dispatch tools taskId toolName params decision).2.
Proof.
  unfold dispatch.
  pose proof (executeTool_calls tools toolName params
                {| ctx_taskId := Some taskId; approved := Some true |}) as H.
  destruct (tools !! toolName) as [tool|]; [|constructor].
  destruct (executeTool tools toolName params
              {| ctx_taskId := Some taskId; approved := Some true |})
    as [res calls].
  destruct (requiresApproval tool), decision; simpl in *;
    repeat constructor; assumption.
Qed.

Section Generate.
Context (plannerPrompt : string).
Context (context : option string) (constraints : list string).
Context (jsonStringify : Value -> option string).
Context (tools : gmap string ToolDefinition).

Local Ltac settle :=
  repeat split; try discriminate; try reflexivity;
  repeat match goal with
         | H : LLM.Response _ = LLM.Response _ |- _ => injection H as <-
         | H : LLM.Error _ = LLM.Error _ |- _ => injection H as <-
         | H : Some _ = Some _ |- _ => injection H as <-
         | H : _ \/ _ |- _ => destruct H
         end;
  try congruence; try reflexivity.

(** X5.  Whether the language model answers or fails with an error
    object, [generateNextStep] returns a step, with the id and the
    timestamp it was given: it does not throw into the loop.  A failure
    of the language model becomes the step's error, with the
    observation 'Error: ' and the message, an empty thought and no tool
    call; an answer without tool calls gives a step with neither error
    nor observation. *)
Theorem generateNextStep_captures llm decision uuid now t :
  let res := generateNextStep plannerPrompt context constraints jsonStringify tools llm decision uuid now t in
  exists s,
    res.1 = Returns s /\ step_id s = uuid /\ timestamp s = now /\
    (forall e, llm (buildMessages plannerPrompt context constraints t) = LLM.Error e ->
       thought s = EmptyString /\ action s = None /\
       step_error s = Some (LLM.message e) /\
       observation s = Some ("Error: " +:+ LLM.message e) /\ res.2 = []) /\
    (forall r, llm (buildMessages plannerPrompt context constraints t) = LLM.Response r ->
       LLM.toolCalls r = None \/ LLM.toolCalls r = Some [] ->
       action s = None /\ step_error s = None /\ observation s = None /\
       res.2 = []).
Proof.
  intros res. subst res. unfold generateNextStep.
  destruct (llm (buildMessages plannerPrompt context constraints t)) as [r|e].
  - destruct (LLM.toolCalls r) as [[|toolCall others]|] eqn:Hcalls.
    + eexists. settle.
    + destruct (dispatch tools (task_id t) (LLM.call_name toolCall)
                  (LLM.arguments toolCall) decision) as [[toolResult|thrown] calls] eqn:Hd.
      * eexists. settle.
      * assert (thrown = typeErrorOfNullish) as ->.
        { eapply dispatch_throws. rewrite Hd. reflexivity. }
        eexists. settle.
    + eexists. settle.
  - eexists. settle.
Qed.

(** X6.  Of the tool calls in the model's answer only the first one is
    dispatched: the step and the calls made are those for the answer
    cut down to its first call, and every call made concerns that tool.
    The step names the tool and its input.  An unknown tool and a
    refused or timed-out approval end in a step with the failure as
    error and observation, and the tool is not executed. *)
Theorem generateNextStep_first_call llm decision uuid now t r toolCall others :
  llm (buildMessages plannerPrompt context constraints t) = LLM.Response r ->
  LLM.toolCalls r = Some (toolCall :: others) ->
  let res := generateNextStep plannerPrompt context constraints jsonStringify tools llm decision uuid now t in
  let toolName := LLM.call_name toolCall in
  res = generateNextStep plannerPrompt context constraints jsonStringify tools (fun _ => LLM.Response (firstCallOnly r)) decision uuid now t /\
  Forall (fun c => callTool c = toolName) res.2 /\
  exists s,
    res.1 = Returns s /\
    action s = Some toolName /\ actionInput s = LLM.arguments toolCall /\
    (tools !! toolName = None ->
       step_error s = Some ("Tool not found: " +:+ toolName) /\
       observation s = Some ("Failed: " +:+ "Tool not found: " +:+ toolName) /\
       res.2 = []) /\
    (forall tool, tools !! toolName = Some tool ->
       requiresApproval tool = true -> decision = false ->
       step_error s = Some "Tool execution denied by user" /\
       observation s = Some "Failed: Tool execution denied by user" /\
       res.2 = [AskedApproval toolName]).
Proof.
  intros Hllm Hcalls res toolName. subst res toolName.
  unfold generateNextStep. rewrite Hllm. unfold firstCallOnly. rewrite Hcalls.
  cbn [LLM.toolCalls LLM.content].
  split; [reflexivity|].
  pose proof (dispatch_calls tools (task_id t) (LLM.call_name toolCall)
                (LLM.arguments toolCall) decision) as Hfor.
  pose proof (dispatch_throws tools (task_id t) (LLM.call_name toolCall)
                (LLM.arguments toolCall) decision) as Hthr.
  unfold dispatch in *.
  destruct (tools !! LLM.call_name toolCall) as [tool|] eqn:Htool.
  - destruct (executeTool tools (LLM.call_name toolCall) (LLM.arguments toolCall)
                {| ctx_taskId := Some (task_id t); approved := Some true |})
      as [out calls] eqn:Hex.
    destruct (requiresApproval tool) eqn:Hreq; [destruct decision|];
      cbn [fst snd] in *;
      try (destruct out as [toolResult|thrown];
           [|pose proof (Hthr thrown eq_refl); subst thrown]);
      cbn [messageOf typeErrorOfNullish fst snd];
      (split; [exact Hfor|]); eexists; settle.
  - cbn [fst snd] in *. split; [constructor|].
    eexists. settle.
Qed.

(** Steps that have left the memory window do not change the next
    step. *)
Lemma generateNextStep_forgets llm decision uuid now t t' older :
  task_id t' = task_id t -> instruction t' = instruction t ->
  steps t' = (older ++ steps t)%list ->
  (memoryWindow <= length (steps t))%nat ->
  generateNextStep plannerPrompt context constraints jsonStringify tools llm decision uuid now t' = generateNextStep plannerPrompt context constraints jsonStringify tools llm decision uuid now t.
Proof.
  intros Hid Hi Hs Hlen. unfold generateNextStep.
  assert (Hsame : buildMessages plannerPrompt context constraints t'
                  = buildMessages plannerPrompt context constraints t).
  { unfold buildMessages. rewrite Hs, recentSteps_app by assumption.
    unfold formatTaskInstruction. rewrite Hi. reflexivity. }
  rewrite Hsame, Hid. reflexivity.
Qed.

End Generate.

Lemma generateNextStep_first_call_witness :
  (generateNextStep "prompt" None [] (fun _ => None) someTools
     (fun _ => LLM.Response twoCalls) false "step-1" 7 (taskWith [])).2
  = [AskedApproval "exec"].
Proof.
  destruct (generateNextStep_first_call "prompt" None [] (fun _ => None)
              someTools (fun _ => LLM.Response twoCalls) false "step-1" 7
              (taskWith []) twoCalls _ _ eq_refl eq_refl)
    as (_ & _ & s & _ & _ & _ & _ & H).
  destruct (H execTool) as (_ & _ & Hc);
    [vm_compute; reflexivity | reflexivity | reflexivity |].
  exact Hc.
Defined.


(** X4 for a task with three steps. *)
Lemma buildMessages_window_witness :
  (length (buildMessages "You are a planner." None [] (taskWith threeSteps)) <= 23)%nat.
Proof.
  exact (proj1 (buildMessages_window "You are a planner." None []
                  (taskWith threeSteps))).
Defined.

(** X5 when the language model is rate limited. *)
Lemma generateNextStep_captures_witness :
  exists s,
    (generateNextStep "You are a planner." None [] (fun _ => None) someTools
       (fun _ => LLM.Error LLM.rateLimited) true "step-1" 7 (taskWith [])).1
    = Returns s /\
    step_error s = Some "429 Rate limit exceeded".
Proof.
  destruct (generateNextStep_captures "You are a planner." None []
              (fun _ => None) someTools (fun _ => LLM.Error LLM.rateLimited)
              true "step-1" 7 (taskWith []))
    as (s & Hs & _ & _ & He & _).
  exists s. split; [exact Hs|].
  exact (proj1 (proj2 (proj2 (He _ eq_refl)))).
Defined.

(** X7 for an answer in the ReAct format. *)
Lemma extractThought_piece_witness :
  includes (extractThought "THOUGHT: I will look. ACTION: screenshot") "ACTION:"
  = false.
Proof.
  destruct (extractThought_piece "THOUGHT: I will look. ACTION: screenshot")
    as (_ & _ & H & _).
  apply H. vm_compute. reflexivity.
Defined.

End GenerateFacts.


(** ** Properties of the stored tasks and of the events *)

Module LifecycleFacts.
Import Planner Lifecycle PlannerFacts.

Lemma eventsFor_app id a b :
  eventsFor id (a ++ b) = (eventsFor id a ++ eventsFor id b)%list.
Proof. apply flat_map_app. Qed.

Lemma metrics_app a b : metrics (a ++ b) = (metrics a ++ metrics b)%list.
Proof. apply flat_map_app. Qed.

Lemma endings_app a b : endings (a ++ b) = (endings a ++ endings b)%list.
Proof. apply flat_map_app. Qed.

Lemma extractResult_truthy t : truthy (extractResult t) = true.
Proof.
  unfold extractResult.
  destruct (List.find _ _) as [s|] eqn:H; [|reflexivity].
  apply find_some in H as [_ H]. apply andb_true_iff in H. tauto.
Qed.

Lemma isTaskComplete_true t :
  isTaskComplete t = inl true ->
  exists s, last (steps t) = Some s /\ completionPhrase (thought s) = true.
Proof.
  unfold isTaskComplete.
  destruct (last (steps t)) as [s|].
  - destruct (completionPhrase (thought s)) eqn:Hp; [eauto|].
    destruct (3 <=? recentErrors (steps t))%nat; discriminate.
  - destruct (3 <=? recentErrors (steps t))%nat; discriminate.
Qed.

Section Facts.
Context (cfg : Config).

Lemma Full_initial : Full cfg initial.
Proof.
  split; [apply Inv_initial| | |]; simpl; try reflexivity.
  intros id t H. rewrite lookup_empty in H. discriminate.
Qed.

Lemma Detail_Full id w w' :
  Full cfg w -> Inv cfg w' -> Detail cfg id w w' -> Full cfg w'.
Proof.
  intros [HI Htk Hno Hm] HI' (t' & es & Ht & Hl & Hoth & Hk & Ha & Hes).
  split; [assumption| | |].
  - intros id0 t0. rewrite Ht, Hl, eventsFor_app.
    destruct (decide (id0 = id)) as [->|Hne].
    + rewrite lookup_insert_eq. intros [= <-]. auto.
    + rewrite lookup_insert_ne by congruence. intros H0.
      destruct (Hoth id0 Hne) as [-> ->]. rewrite app_nil_r. auto.
  - intros id0. rewrite Ht, Hl, eventsFor_app.
    destruct (decide (id0 = id)) as [->|Hne].
    + rewrite lookup_insert_eq. discriminate.
    + rewrite lookup_insert_ne by congruence. intros H0.
      destruct (Hoth id0 Hne) as [_ ->]. rewrite (Hno _ H0). reflexivity.
  - rewrite Hl, metrics_app, endings_app, Hm, Hes. reflexivity.
Qed.

(** The [catch] block, entered after the events [pre] of this
    resumption. *)
Lemma catch_detail id t msg now w w0 pre :
  tasks w0 = tasks w -> frames w0 = frames w ->
  log w0 = (log w ++ pre)%list ->
  (forall id0, id0 <> id -> eventsFor id0 pre = []) ->
  metrics pre = endings pre ->
  timeout t <> 0 -> task_result t = VUndefined ->
  (exists k, (k <= length (steps t))%nat /\
     (eventsFor id (log w) ++ eventsFor id pre)%list
     = "task:created" :: "task:started" :: repeat "task:step" k) ->
  Detail cfg id w (catchBlock id t msg now w0).1.
Proof.
  intros Ht Hf Hl Hpre Hm Hto Hres (k & Hk & Hev).
  unfold Detail, catchBlock, finallyBlock, logged; simpl.
  eexists _, (pre ++ [TaskMetric "failed"; Emit "task:failed" id failed])%list.
  split; [rewrite Ht; reflexivity|].
  split; [rewrite Hl, <- app_assoc; reflexivity|].
  split; [|split; [|split]].
  - intros id0 Hne. rewrite lookup_delete_ne, Hf by congruence.
    split; [reflexivity|]. rewrite eventsFor_app, Hpre by assumption.
    simpl. rewrite !decide_False by congruence. reflexivity.
  - unfold kept; simpl. repeat split; auto; discriminate.
  - unfold announced; simpl. rewrite lookup_delete_eq. right.
    exists k. split; [assumption|].
    rewrite eventsFor_app, app_assoc, Hev. simpl.
    rewrite !decide_True by reflexivity. reflexivity.
  - rewrite metrics_app, endings_app, Hm. reflexivity.
Qed.

(** The end of the [try] block, entered after the events [pre]. *)
Lemma complete_detail id t now w w0 pre :
  tasks w0 = tasks w -> frames w0 = frames w ->
  log w0 = (log w ++ pre)%list ->
  (forall id0, id0 <> id -> eventsFor id0 pre = []) ->
  metrics pre = endings pre ->
  timeout t <> 0 -> task_error t = None ->
  (length (steps t) < maxIterations cfg)%nat ->
  (exists s, last (steps t) = Some s /\ completionPhrase (thought s) = true) ->
  (eventsFor id (log w) ++ eventsFor id pre)%list
  = "task:created" :: "task:started" :: repeat "task:step" (length (steps t)) ->
  Detail cfg id w (completeBlock id t now w0).1.
Proof.
  intros Ht Hf Hl Hpre Hm Hto Herr Hlen Hlast Hev.
  unfold Detail, completeBlock, finallyBlock, logged; simpl.
  eexists _, (pre ++ [TaskMetric "succeeded"; Emit "task:completed" id completed])%list.
  split; [rewrite Ht; reflexivity|].
  split; [rewrite Hl, <- app_assoc; reflexivity|].
  split; [|split; [|split]].
  - intros id0 Hne. rewrite lookup_delete_ne, Hf by congruence.
    split; [reflexivity|]. rewrite eventsFor_app, Hpre by assumption.
    simpl. rewrite !decide_False by congruence. reflexivity.
  - unfold kept; simpl. repeat split; auto; try discriminate.
    apply extractResult_truthy.
  - unfold announced; simpl. rewrite lookup_delete_eq.
    rewrite eventsFor_app, app_assoc, Hev. simpl.
    rewrite !decide_True by reflexivity. reflexivity.
  - rewrite metrics_app, endings_app, Hm. reflexivity.
Qed.

(** The three ways out of the loop test. *)
Lemma loopHead_detail id t iter isComplete start now w :
  let res := loopHead cfg id t iter isComplete start now w in
  (isComplete = false /\ (iter < maxIterations cfg)%nat /\
   res = ({| tasks := <[id := t]> (tasks w);
             concurrentTasks := concurrentTasks w;
             frames := <[id := {| iteration := S iter; startTime := start;
                                  point := AwaitingStep |}]> (frames w);
             log := log w |}, Pending))
  \/ (exists msg, res = catchBlock id t msg now w)
  \/ (isComplete = true /\ (iter < maxIterations cfg)%nat /\
      res = completeBlock id t now w).
Proof.
  unfold loopHead.
  destruct isComplete; simpl.
  - destruct (maxIterations cfg <=? iter)%nat eqn:H; [eauto|].
    apply Nat.leb_gt in H. auto.
  - destruct (iter <? maxIterations cfg)%nat eqn:Hlt; simpl.
    + apply Nat.ltb_lt in Hlt.
      destruct (now - start >? timeout t * 1000); eauto.
    + apply Nat.ltb_ge in Hlt. apply Nat.leb_le in Hlt. rewrite Hlt. eauto.
Qed.

(** The loop test, entered after the events [pre] of this resumption,
    for a running task whose events so far are those of [iter]
    iterations. *)
Lemma loop_detail id t iter isComplete start now w w0 pre :
  tasks w0 = tasks w -> frames w0 = frames w ->
  log w0 = (log w ++ pre)%list ->
  (forall id0, id0 <> id -> eventsFor id0 pre = []) ->
  metrics pre = endings pre ->
  kept cfg t -> status t = running -> length (steps t) = iter ->
  (isComplete = true ->
   exists s, last (steps t) = Some s /\ completionPhrase (thought s) = true) ->
  (eventsFor id (log w) ++ eventsFor id pre)%list
  = "task:created" :: "task:started" :: repeat "task:step" iter ->
  Detail cfg id w (loopHead cfg id t iter isComplete start now w0).1.
Proof.
  intros Ht Hf Hl Hpre Hm Hk Hrun Hlen Hlast Hev.
  pose proof Hk as [Hto Hk']. rewrite Hrun in Hk'.
  destruct Hk' as (Herr & Hdone & Hres).
  destruct (loopHead_detail id t iter isComplete start now w0)
    as [(_ & Hlt & ->)|[(msg & ->)|(-> & Hlt & ->)]].
  - unfold Detail; simpl. exists t, pre.
    split; [rewrite Ht; reflexivity|]. split; [assumption|].
    split; [|split; [|split]]; auto.
    + intros id0 Hne. rewrite lookup_insert_ne, Hf by congruence. auto.
    + unfold announced. rewrite Hrun, lookup_insert_eq. simpl. assumption.
  - eapply catch_detail; eauto. exists iter. split; [lia|assumption].
  - eapply complete_detail; eauto; [lia|]. rewrite Hlen. assumption.
Qed.

Lemma step_detail l w w' r :
  Full cfg w -> step cfg l w = Some (w', r) -> Detail cfg (label_id l) w w'.
Proof.
  intros [HI Htk Hno Hm] Hstep.
  destruct l as [id req now|id s|id now|id|id msg now]; simpl in *.
  - unfold start in Hstep.
    destruct (tasks w !! id) eqn:Hid; [discriminate|].
    pose proof (no_frame_without_task _ _ _ HI Hid) as Hfr.
    pose proof (Hno _ Hid) as Hev.
    assert (Hto : match req_timeout req with
                  | Some n => if n =? 0 then 300 else n
                  | None => 300
                  end <> 0).
    { destruct (req_timeout req) as [n|]; [|lia].
      destruct (n =? 0) eqn:E; [lia|]. apply Z.eqb_neq in E. assumption. }
    simpl in Hstep.
    destruct (maxConcurrentTasks cfg <=? concurrentTasks w).
    + injection Hstep as <- <-. unfold Detail; simpl.
      eexists _, [Emit "task:created" id queued; Emit "task:failed" id failed;
                  TaskMetric "failed"].
      split; [reflexivity|].
      split; [rewrite <- app_assoc; reflexivity|].
      split; [|split; [|split]].
      * intros id0 Hne. split; [reflexivity|].
        simpl. rewrite !decide_False by congruence. reflexivity.
      * unfold kept; simpl. repeat split; auto; discriminate.
      * unfold announced; simpl. rewrite Hfr, Hev.
        rewrite !decide_True by reflexivity. left. reflexivity.
      * reflexivity.
    + match type of Hstep with
      | Some (loopHead _ _ ?t _ _ _ _ ?w0) = _ =>
          pose proof (loop_detail id t 0%nat false now now w w0
                        [Emit "task:created" id queued;
                         Emit "task:started" id running]) as Hd
      end.
      destruct (loopHead _ _ _ _ _ _ _ _) as [w1 r1].
      injection Hstep as <- <-. apply Hd; try reflexivity.
      * simpl. rewrite <- app_assoc. reflexivity.
      * intros id0 Hne. simpl. rewrite !decide_False by congruence. reflexivity.
      * unfold kept; simpl. auto.
      * discriminate.
      * rewrite Hev. simpl. rewrite !decide_True by reflexivity. reflexivity.
  - unfold stepReady in Hstep.
    destruct (frames w !! id) as [f|] eqn:Hf; [|discriminate].
    destruct (tasks w !! id) as [t|] eqn:Ht; [|discriminate].
    destruct (point f) eqn:Hp; [|discriminate].
    injection Hstep as <- <-.
    destruct (Htk _ _ Ht) as [Hk Ha].
    destruct (inv_frame _ _ HI _ _ Hf) as (t0 & Ht0 & Hrun & _).
    rewrite Ht in Ht0. injection Ht0 as <-.
    unfold Detail; simpl. exists (push_step s t), [].
    split; [reflexivity|]. split; [rewrite app_nil_r; reflexivity|].
    split; [|split; [|split]]; auto.
    + intros id0 Hne. rewrite lookup_insert_ne by congruence. auto.
    + unfold kept in *; simpl. rewrite Hrun in *. assumption.
    + unfold announced in *; simpl. rewrite Hrun, Hf in Ha.
      rewrite Hrun, lookup_insert_eq, app_nil_r. simpl. assumption.
  - unfold next in Hstep.
    destruct (frames w !! id) as [f|] eqn:Hf; [|discriminate].
    destruct (tasks w !! id) as [t|] eqn:Ht; [|discriminate].
    destruct (point f) eqn:Hp; [discriminate|].
    destruct (Htk _ _ Ht) as [Hk Ha].
    destruct (inv_frame _ _ HI _ _ Hf) as (t0 & Ht0 & Hrun & Hit & Hlen).
    rewrite Ht in Ht0. injection Ht0 as <-. rewrite Hp in Hlen.
    unfold announced in Ha. rewrite Hrun, Hf in Ha.
    pose proof Hk as [Hto Hk']. rewrite Hrun in Hk'.
    destruct Hk' as (Herr & Hdone & Hres).
    destruct (isTaskComplete t) as [b|m] eqn:Hc.
    + match type of Hstep with
      | Some (loopHead _ _ _ _ _ _ _ ?w0) = _ =>
          pose proof (loop_detail id t (iteration f) b (startTime f) now w w0
                        [Emit "task:step" id (status t)]) as Hd
      end.
      destruct (loopHead _ _ _ _ _ _ _ _) as [w1 r1].
      injection Hstep as <- <-. apply Hd; try reflexivity; auto.
      * intros id0 Hne. simpl. rewrite !decide_False by congruence. reflexivity.
      * intros ->. apply isTaskComplete_true. assumption.
      * rewrite Ha. simpl. rewrite !decide_True by reflexivity.
        destruct (iteration f) as [|n]; [lia|]. simpl.
        rewrite <- repeat_cons. reflexivity.
    + injection Hstep as <- <-.
      apply (catch_detail id t m now w w []); auto.
      * rewrite app_nil_r. reflexivity.
      * exists (pred (iteration f)). split; [lia|].
        rewrite app_nil_r. assumption.
  - unfold return_ in Hstep.
    destruct (frames w !! id) as [f|] eqn:Hf; [|discriminate].
    destruct (tasks w !! id) as [t|] eqn:Ht; [|discriminate].
    destruct (point f) eqn:Hp; [discriminate|].
    injection Hstep as <- <-.
    destruct (Htk _ _ Ht) as [Hk Ha].
    destruct (inv_frame _ _ HI _ _ Hf) as (t0 & Ht0 & Hrun & Hit & Hlen).
    rewrite Ht in Ht0. injection Ht0 as <-. rewrite Hp in Hlen.
    unfold Detail, finallyBlock; simpl. exists t, [].
    split; [reflexivity|]. split; [rewrite app_nil_r; reflexivity|].
    split; [|split; [|split]]; auto.
    + intros id0 Hne. rewrite lookup_delete_ne by congruence. auto.
    + unfold announced in *. rewrite Hrun, Hf in Ha.
      rewrite Hrun, lookup_delete_eq, app_nil_r, Hlen. assumption.
  - unfold throw in Hstep.
    destruct (frames w !! id) as [f|] eqn:Hf; [|discriminate].
    destruct (tasks w !! id) as [t|] eqn:Ht; [|discriminate].
    destruct (point f) eqn:Hp; [discriminate|].
    injection Hstep as <- <-.
    destruct (Htk _ _ Ht) as [Hk Ha].
    destruct (inv_frame _ _ HI _ _ Hf) as (t0 & Ht0 & Hrun & Hit & Hlen).
    rewrite Ht in Ht0. injection Ht0 as <-. rewrite Hp in Hlen.
    unfold announced in Ha. rewrite Hrun, Hf in Ha.
    pose proof Hk as [Hto Hk']. rewrite Hrun in Hk'.
    destruct Hk' as (Herr & Hdone & Hres).
    apply (catch_detail id t msg now w w []); auto.
    + rewrite app_nil_r. reflexivity.
    + exists (pred (iteration f)). split; [lia|].
      rewrite app_nil_r. assumption.
Qed.

Lemma Full_step l w w' r :
  Full cfg w -> step cfg l w = Some (w', r) -> Full cfg w'.
Proof.
  intros HF Hstep. eapply Detail_Full; eauto using step_detail.
  eapply Inv_step; eauto. apply HF.
Qed.

Lemma reachable_Full w : reachable cfg w -> Full cfg w.
Proof.
  induction 1 as [|w l w' r _ IH Hstep]; [apply Full_initial|].
  eapply Full_step; eauto.
Qed.

(** X8.  What the planner stores of a task fits its status, in every
    state it can reach.  A [running] task has no error, no completion
    time and no result.  A [completed] task has no error, a completion
    time, a truthy result, fewer than [maxIterations] steps, and its
    last step's thought holds a completion phrase.  A [failed] task
    has an error and no result, and it lacks a completion time only
    when it was refused at the concurrency gate, before any step.  The
    timeout is never 0. *)
Theorem stored_task_fields w id t :
  reachable cfg w -> tasks w !! id = Some t ->
  timeout t <> 0 /\
  (status t = running ->
     task_error t = None /\ completedAt t = None /\ task_result t = VUndefined) /\
  (status t = completed ->
     task_error t = None /\ completedAt t <> None /\
     truthy (task_result t) = true /\
     (length (steps t) < maxIterations cfg)%nat /\
     exists s, last (steps t) = Some s /\ completionPhrase (thought s) = true) /\
  (status t = failed ->
     task_error t <> None /\ task_result t = VUndefined /\
     (completedAt t = None ->
      task_error t = Some "Maximum concurrent tasks reached" /\ steps t = [])).
Proof.
  intros Hw Ht.
  destruct (full_task _ _ (reachable_Full _ Hw) _ _ Ht) as [[Hto Hk] _].
  split; [assumption|].
  destruct (status t); (split; [|split]); intros E;
    try discriminate E; try contradiction; exact Hk.
Qed.


(** X9.  The deadline is looked at only when the consumer asks for the
    next step, and only when another iteration would start.  Resumed
    after the deadline, the generator generates no further step and
    returns the task; the task is still [completed] when its last
    step announced completion below the iteration cap.  The error
    'Task execution timeout' is set only when the deadline has passed,
    the last step did not end the task and the cap was not reached. *)
Theorem deadline_checked_between_steps id now w f t :
  reachable cfg w ->
  frames w !! id = Some f -> point f = AtYield -> tasks w !! id = Some t ->
  exists w' r, next cfg id now w = Some (w', r) /\
    (now - startTime f > timeout t * 1000 ->
     exists t', r = ReturnsTask t' /\
       (status t' = completed <->
        isTaskComplete t = inl true /\ (iteration f < maxIterations cfg)%nat)) /\
    (forall t', r = ReturnsTask t' ->
       task_error t' = Some "Task execution timeout" ->
       now - startTime f > timeout t * 1000 /\
       isTaskComplete t = inl false /\
       (iteration f < maxIterations cfg)%nat).
Proof.
  intros Hw Hf Hp Ht.
  destruct (full_task _ _ (reachable_Full _ Hw) _ _ Ht) as [[_ Hk] _].
  destruct (inv_frame _ _ (reachable_Inv _ _ Hw) _ _ Hf) as (t0 & Ht0 & Hrun & _).
  rewrite Ht in Ht0. injection Ht0 as <-. rewrite Hrun in Hk.
  destruct Hk as (Herr & _ & _).
  unfold next. rewrite Hf, Ht, Hp.
  destruct (isTaskComplete t) as [[|]|msg] eqn:Hc.
  - unfold loopHead. simpl.
    destruct (maxIterations cfg <=? iteration f)%nat eqn:Hcap;
      [apply Nat.leb_le in Hcap|apply Nat.leb_gt in Hcap];
      eexists _, _; (split; [reflexivity|]); simpl; split.
    + intros _. eexists. split; [reflexivity|]. simpl.
      split; [discriminate|]. intros [_ ?]. lia.
    + intros t' [= <-]. simpl. discriminate.
    + intros _. eexists. split; [reflexivity|]. simpl. tauto.
    + intros t' [= <-]. simpl. rewrite Herr. discriminate.
  - unfold loopHead. simpl.
    destruct (iteration f <? maxIterations cfg)%nat eqn:Hlt;
      [apply Nat.ltb_lt in Hlt|apply Nat.ltb_ge in Hlt]; simpl.
    + rewrite Z.gtb_ltb.
      destruct (timeout t * 1000 <? now - startTime f) eqn:Hover;
        [apply Z.ltb_lt in Hover|apply Z.ltb_ge in Hover];
        eexists _, _; (split; [reflexivity|]); simpl; split.
      * intros _. eexists. split; [reflexivity|]. simpl.
        split; [discriminate|]. intros [? _]. discriminate.
      * intros t' [= <-]. repeat split; auto. lia.
      * intros ?. lia.
      * intros t' [=].
    + apply Nat.leb_le in Hlt. rewrite Hlt.
      eexists _, _; (split; [reflexivity|]); simpl; split.
      * intros _. eexists. split; [reflexivity|]. simpl.
        split; [discriminate|]. intros [? _]. discriminate.
      * intros t' [= <-]. simpl. discriminate.
  - destruct (isTaskComplete_throws _ _ Hc) as (-> & _).
    eexists _, _; (split; [reflexivity|]); simpl; split.
    + intros _. eexists. split; [reflexivity|]. simpl.
      split; [discriminate|]. intros [? _]. discriminate.
    + intros t' [= <-]. simpl. discriminate.
Qed.

(** X21.  The counter [concurrentTasks] is the number of generators
    that are alive; it is never negative and never above the ceiling.
    Every live generator belongs to a task of its own with the status
    [running], so the number of running tasks, which the periodic
    metrics report as active, is never below the counter. *)
Theorem generators_below_running_tasks w :
  reachable cfg w ->
  0 <= concurrentTasks w <= Z.max 0 (maxConcurrentTasks cfg) /\
  concurrentTasks w = Z.of_nat (size (frames w)) /\
  (forall id, is_Some (frames w !! id) -> statusOf w id = Some running) /\
  (size (frames w) <= runningTasks w)%nat.
Proof.
  intros Hw. destruct (reachable_Inv _ _ Hw) as [Hfr _ Hc Hm].
  split; [lia|]. split; [assumption|].
  assert (Hrun : forall id, is_Some (frames w !! id) ->
            exists t, tasks w !! id = Some t /\ status t = running).
  { intros id [f Hf]. destruct (Hfr _ _ Hf) as (t & Ht & Hst & _). eauto. }
  split.
  - intros id Hf. destruct (Hrun id Hf) as (t & Ht & Hst).
    unfold statusOf. rewrite Ht. simpl. congruence.
  - unfold runningTasks.
    rewrite <- (size_dom (D := gset string) (frames w)).
    rewrite <- (size_dom (D := gset string)
                  (filter (fun kt => status kt.2 = running) (tasks w))).
    apply subseteq_size. intros id Hid.
    apply elem_of_dom in Hid. destruct (Hrun id Hid) as (t & Ht & Hst).
    apply elem_of_dom. exists t. apply map_lookup_filter_Some. auto.
Qed.

End Facts.

(** X8 for the run in which the second step says 'Task complete'. *)
Lemma stored_task_fields_witness :
  let w := worldAfter (twoStepRun ++ [Next "task-1" 5]) in
  let t := default (Build_Task EmptyString EmptyString queued [] VUndefined None 0 0 None)
                   (tasks w !! "task-1") in
  status t = completed /\ task_error t = None /\ completedAt t <> None.
Proof.
  intros w t.
  assert (Hreach : reachable defaultConfig w)
    by (apply worldAfter_reachable; vm_compute; reflexivity).
  assert (Ht : tasks w !! "task-1" = Some t) by (vm_compute; reflexivity).
  assert (Hst : status t = completed) by (vm_compute; reflexivity).
  destruct (stored_task_fields defaultConfig w "task-1" t Hreach Ht)
    as (_ & _ & Hc & _).
  destruct (Hc Hst) as (He & Hd & _). auto.
Defined.


(** X9: the consumer comes back 1000 s after the start of a task whose
    second step said 'Task complete'. *)
Lemma deadline_checked_between_steps_witness :
  let w := worldAfter twoStepRun in
  exists w' r, next defaultConfig "task-1" 1000000 w = Some (w', r).
Proof.
  intros w.
  assert (Hreach : reachable defaultConfig w)
    by (apply worldAfter_reachable; vm_compute; reflexivity).
  destruct (deadline_checked_between_steps defaultConfig "task-1" 1000000 w
              {| iteration := 2; startTime := 0; point := AtYield |}
              (default (Build_Task EmptyString EmptyString queued [] VUndefined None 0 0 None)
                       (tasks w !! "task-1"))
              Hreach)
    as (w' & r & H & _); try (vm_compute; reflexivity).
  exists w', r. exact H.
Defined.

(** X21 after four requests to POST /api/tasks: no generator is alive
    and four tasks are running. *)
Lemma generators_below_running_tasks_witness :
  let w := worldAfter fourPosts in
  concurrentTasks w = 0 /\ (size (frames w) <= runningTasks w)%nat.
Proof.
  intros w.
  assert (Hreach : reachable defaultConfig w)
    by (apply worldAfter_reachable; vm_compute; reflexivity).
  destruct (generators_below_running_tasks defaultConfig w Hreach)
    as (_ & _ & _ & H).
  split; [vm_compute; reflexivity|exact H].
Defined.


(** *** When the steps of a task end *)

Lemma mayGoOn_of t : isTaskComplete t = inl false -> MayGoOn t.
Proof.
  unfold isTaskComplete, MayGoOn.
  destruct (last (steps t)) as [s|] eqn:Hl.
  - destruct (completionPhrase (thought s)) eqn:Hp; [discriminate|].
    destruct (3 <=? recentErrors (steps t))%nat eqn:He; [discriminate|].
    apply Nat.leb_gt in He. intros _. split; [assumption|].
    intros s0 [= <-]. assumption.
  - destruct (3 <=? recentErrors (steps t))%nat eqn:He; [discriminate|].
    apply Nat.leb_gt in He. intros _. split; [assumption|discriminate].
Qed.

Lemma closing_same t t' : steps t' = steps t -> Closing t -> Closing t'.
Proof. unfold Closing. intros ->. auto. Qed.

Lemma closing_empty t : steps t = [] -> Closing t.
Proof.
  intros H. unfold Closing. rewrite H. split.
  - intros pre a b c post E. destruct pre; discriminate.
  - intros pre s post E. destruct pre; discriminate.
Qed.

Lemma mayGoOn_empty t : steps t = [] -> MayGoOn t.
Proof.
  intros H. unfold MayGoOn. rewrite H.
  split; [unfold recentErrors, lastThree; simpl; lia|discriminate].
Qed.

Lemma closing_push t s : Closing t -> MayGoOn t -> Closing (push_step s t).
Proof.
  intros [Herr Hphrase] [Hfew Hlast]. split; simpl.
  - intros pre a b c post E Ha Hb Hc.
    destruct post as [|x post _] using rev_ind; [reflexivity|]. exfalso.
    assert (E' : (steps t ++ [s])%list
                 = ((pre ++ [a; b; c] ++ post) ++ [x])%list).
    { rewrite E, <- !app_assoc. reflexivity. }
    apply app_inj_tail in E' as [E' _].
    pose proof (Herr _ _ _ _ _ E' Ha Hb Hc) as ->.
    rewrite app_nil_r in E'.
    assert (3 <= recentErrors (steps t))%nat; [|lia].
    apply StepFacts.recentErrors_three. exists pre, a, b, c. auto.
  - intros pre s0 post E Hp.
    destruct post as [|x post _] using rev_ind; [reflexivity|]. exfalso.
    assert (E' : (steps t ++ [s])%list = ((pre ++ s0 :: post) ++ [x])%list).
    { rewrite E, <- app_assoc. reflexivity. }
    apply app_inj_tail in E' as [E' _].
    pose proof (Hphrase _ _ _ E' Hp) as ->.
    assert (Hl : last (steps t) = Some s0) by (rewrite E'; apply last_snoc).
    rewrite (Hlast _ Hl) in Hp. discriminate.
Qed.

Section Ends.
Context (cfg : Config).

Lemma Checked_initial : Checked initial.
Proof.
  split; simpl.
  - intros id t H. rewrite lookup_empty in H. discriminate.
  - intros id f t H. rewrite lookup_empty in H. discriminate.
Qed.

(** A step that writes [t'] to its task and leaves its generator either
    gone, or waiting with the checks passed. *)
Lemma Checked_write id t' w w' :
  Inv cfg w -> Checked w ->
  tasks w' !! id = Some t' ->
  (forall id0, id0 <> id ->
     tasks w' !! id0 = tasks w !! id0 /\ frames w' !! id0 = frames w !! id0) ->
  Closing t' ->
  (forall f, frames w' !! id = Some f -> point f = AwaitingStep -> MayGoOn t') ->
  Checked w'.
Proof.
  intros HI [Htk Hfr] Ht' Hoth Hcl Hgo. split.
  - intros id0 t0. destruct (decide (id0 = id)) as [->|Hne].
    + rewrite Ht'. intros [= <-]. assumption.
    + destruct (Hoth id0 Hne) as [-> _]. apply Htk.
  - intros id0 f t0. destruct (decide (id0 = id)) as [->|Hne].
    + rewrite Ht'. intros Hf Hp [= <-]. eauto.
    + destruct (Hoth id0 Hne) as [-> ->]. apply Hfr.
Qed.

Lemma Checked_step l w w' r :
  Inv cfg w -> Checked w -> step cfg l w = Some (w', r) -> Checked w'.
Proof.
  intros HI HC Hstep.
  assert (Hoth : forall id0, id0 <> label_id l ->
            tasks w' !! id0 = tasks w !! id0 /\ frames w' !! id0 = frames w !! id0).
  { intros id0 Hne. eapply other_labels_preserve; eauto. }
  assert (Hgone : forall id t t' (w0 : World),
            tasks w !! id = Some t -> steps t' = steps t ->
            (forall id0, id0 <> id ->
               tasks (finallyBlock id t' w0) !! id0 = tasks w !! id0 /\
               frames (finallyBlock id t' w0) !! id0 = frames w !! id0) ->
            Checked (finallyBlock id t' w0)).
  { intros id t t' w0 Ht Hs Hoth'.
    apply (Checked_write id t' w); auto; simpl.
    - apply lookup_insert_eq.
    - eapply closing_same; [exact Hs|]. eapply checked_tasks; eauto.
    - intros f'. rewrite lookup_delete_eq. discriminate. }
  destruct l as [id req now|id s|id now|id|id msg now]; simpl in *.
  - destruct (start_summary _ _ _ _ _ _ _ HI Hstep)
      as [t' _ _ Ht' _ Hs _ | t f t' Hold]; [|unfold start in Hstep;
          rewrite Hold in Hstep; discriminate].
    apply (Checked_write id t' w w'); auto.
    + rewrite Ht'. apply lookup_insert_eq.
    + apply closing_empty. assumption.
    + intros _ _ _. apply mayGoOn_empty. assumption.
  - unfold stepReady in Hstep.
    destruct (frames w !! id) as [f|] eqn:Hf; [|discriminate].
    destruct (tasks w !! id) as [t|] eqn:Ht; [|discriminate].
    destruct (point f) eqn:Hp; [|discriminate].
    injection Hstep as <- <-.
    apply (Checked_write id (push_step s t) w); auto; simpl.
    + apply lookup_insert_eq.
    + apply closing_push; [eapply checked_tasks|eapply checked_frames]; eauto.
    + intros f'. rewrite lookup_insert_eq. intros [= <-]. discriminate.
  - unfold next in Hstep.
    destruct (frames w !! id) as [f|] eqn:Hf; [|discriminate].
    destruct (tasks w !! id) as [t|] eqn:Ht; [|discriminate].
    destruct (point f) eqn:Hp; [discriminate|].
    destruct (isTaskComplete t) as [b|m] eqn:Hc.
    + match type of Hstep with
      | Some (loopHead _ _ _ _ _ _ _ ?w0) = _ =>
          destruct (loopHead_detail cfg id t (iteration f) b (startTime f) now w0)
            as [(-> & _ & E)|[(msg & E)|(_ & _ & E)]]
      end; rewrite E in Hstep; injection Hstep as <- <-.
      * apply (Checked_write id t w); auto; simpl.
        -- apply lookup_insert_eq.
        -- eapply checked_tasks; eauto.
        -- intros _ _ _. apply mayGoOn_of. assumption.
      * apply (Hgone id t); auto.
      * apply (Hgone id t); auto.
    + injection Hstep as <- <-. apply (Hgone id t); auto.
  - unfold return_ in Hstep.
    destruct (frames w !! id) as [f|] eqn:Hf; [|discriminate].
    destruct (tasks w !! id) as [t|] eqn:Ht; [|discriminate].
    destruct (point f) eqn:Hp; [discriminate|].
    injection Hstep as <- <-. apply (Hgone id t); auto.
  - unfold throw in Hstep.
    destruct (frames w !! id) as [f|] eqn:Hf; [|discriminate].
    destruct (tasks w !! id) as [t|] eqn:Ht; [|discriminate].
    destruct (point f) eqn:Hp; [discriminate|].
    injection Hstep as <- <-. apply (Hgone id t); auto.
Qed.

Lemma reachable_Checked w : reachable cfg w -> Checked w.
Proof.
  induction 1 as [|w l w' r Hw IH Hstep]; [apply Checked_initial|].
  eapply Checked_step; eauto using reachable_Inv.
Qed.

(** X22.  No step is ever generated after three failing steps in a
    row, nor after a step whose thought holds a completion phrase: in
    the steps of every stored task, three consecutive steps with an
    error are the last three, and a step with a completion phrase is
    the last one.  Whenever a generator waits for its next step, the
    last three steps of its task do not all carry an error and the
    last thought holds no completion phrase. *)
Theorem steps_end_after_failures_or_completion w id t :
  reachable cfg w -> tasks w !! id = Some t ->
  (forall pre a b c post,
     steps t = (pre ++ [a; b; c] ++ post)%list ->
     truthyStr (step_error a) = true -> truthyStr (step_error b) = true ->
     truthyStr (step_error c) = true -> post = []) /\
  (forall pre s post,
     steps t = (pre ++ s :: post)%list ->
     completionPhrase (thought s) = true -> post = []) /\
  (forall f, frames w !! id = Some f -> point f = AwaitingStep ->
     (recentErrors (steps t) < 3)%nat /\
     forall s, last (steps t) = Some s -> completionPhrase (thought s) = false).
Proof.
  intros Hw Ht. destruct (reachable_Checked _ Hw) as [Htk Hfr].
  destruct (Htk _ _ Ht) as [H1 H2].
  split; [exact H1|]. split; [exact H2|].
  intros f Hf Hp. exact (Hfr _ _ _ Hf Hp Ht).
Qed.

End Ends.

(** X22 after three failing steps at the start of a task. *)
Lemma steps_end_after_failures_or_completion_witness :
  let w := worldAfter errorsEarlyRun in
  let t := default (Build_Task EmptyString EmptyString queued [] VUndefined None 0 0 None)
                   (tasks w !! "task-1") in
  drop 3 (steps t) = [].
Proof.
  intros w t.
  assert (Hreach : reachable defaultConfig w)
    by (apply worldAfter_reachable; vm_compute; reflexivity).
  assert (Ht : tasks w !! "task-1" = Some t) by (vm_compute; reflexivity).
  destruct (steps_end_after_failures_or_completion defaultConfig w "task-1" t
              Hreach Ht) as (H & _).
  apply (H [] (failedStep "Listing the folder" "No such file")
           (failedStep "Trying again" "No such file")
           (failedStep "Giving up: task complete" "No such file")
           (drop 3 (steps t))); vm_compute; reflexivity.
Defined.

End LifecycleFacts.


(** ** Properties of the consumers of [executeTask] *)

Module ConsumerFacts.
Import Planner Consumers PlannerFacts.

Section Facts.
Context (cfg : Config).
Context (stepAt : nat -> PlanStep) (timeAt : nat -> Z).

Lemma sameElsewhere_refl id w : sameElsewhere id w w.
Proof. intros id0 _. auto. Qed.

Lemma sameElsewhere_trans id w1 w2 w3 :
  sameElsewhere id w1 w2 -> sameElsewhere id w2 w3 -> sameElsewhere id w1 w3.
Proof.
  intros H12 H23 id0 Hne.
  destruct (H12 id0 Hne) as [<- <-]. apply H23. assumption.
Qed.

Lemma step_sameElsewhere l w w' r :
  reachable cfg w -> step cfg l w = Some (w', r) ->
  sameElsewhere (label_id l) w w'.
Proof.
  intros Hw Hstep id0 Hne.
  eapply other_labels_preserve; eauto using reachable_Inv.
Qed.

(** The generator is started. *)
Lemma begin_round id req now w :
  reachable cfg w -> tasks w !! id = None ->
  exists w1 r, start cfg id req now w = Some (w1, r) /\
    reachable cfg w1 /\ sameElsewhere id w w1 /\
    ((r = Pending /\
      (exists t, tasks w1 !! id = Some t /\ steps t = []) /\
      (exists f, frames w1 !! id = Some f /\ point f = AwaitingStep /\
                 iteration f = 1%nat) /\
      concurrentTasks w1 = concurrentTasks w + 1) \/
     (exists t', r = ReturnsTask t' /\ terminal (status t') /\
        steps t' = [] /\ tasks w1 !! id = Some t' /\
        frames w1 !! id = None /\
        concurrentTasks w1 = concurrentTasks w)).
Proof.
  intros Hw Hid.
  pose proof (reachable_Inv _ _ Hw) as HI.
  pose proof (no_frame_without_task _ _ _ HI Hid) as Hfr.
  destruct (start cfg id req now w) as [[w1 r]|] eqn:Hstart.
  2:{ unfold start in Hstart. rewrite Hid in Hstart.
      simpl in Hstart. destruct (_ <=? _); discriminate. }
  exists w1, r. split; [reflexivity|].
  assert (Hstep : step cfg (Start id req now) w = Some (w1, r)) by exact Hstart.
  split; [econstructor; eassumption|].
  split; [exact (step_sameElsewhere _ _ _ _ Hw Hstep)|].
  destruct (start_summary _ _ _ _ _ _ _ HI Hstart)
    as [t' _ _ Ht' _ Hs Hc | t f t' Hold]; [|congruence].
  destruct Hc as [(Hrun & -> & (f & Hf & Hit & Hlen) & _ & Hc)
                 | (Hterm & -> & Hf & Hc)].
  - left. split; [reflexivity|].
    split; [exists t'; rewrite Ht', lookup_insert_eq; auto|].
    split; [|assumption].
    exists f. rewrite Hf, lookup_insert_eq. split; [reflexivity|].
    rewrite Hs in Hlen. simpl in Hlen. destruct (point f); split; auto; lia.
  - right. exists t'. rewrite Ht', Hf, lookup_insert_eq. repeat split; auto.
Qed.

(** [generateNextStep] returns and the step is yielded. *)
Lemma await_round id s w f t :
  reachable cfg w ->
  frames w !! id = Some f -> point f = AwaitingStep ->
  tasks w !! id = Some t ->
  exists w1, stepReady id s w = Some (w1, Yields s) /\
    reachable cfg w1 /\ sameElsewhere id w w1 /\
    tasks w1 !! id = Some (push_step s t) /\
    frames w1 !! id = Some {| iteration := iteration f;
                              startTime := startTime f; point := AtYield |} /\
    concurrentTasks w1 = concurrentTasks w.
Proof.
  intros Hw Hf Hp Ht.
  assert (Hs : exists w1, stepReady id s w = Some (w1, Yields s) /\
             tasks w1 !! id = Some (push_step s t) /\
             frames w1 !! id = Some {| iteration := iteration f;
                                       startTime := startTime f;
                                       point := AtYield |} /\
             concurrentTasks w1 = concurrentTasks w).
  { unfold stepReady. rewrite Hf, Ht, Hp. eexists. split; [reflexivity|].
    simpl. rewrite !lookup_insert_eq. auto. }
  destruct Hs as (w1 & Hs & H1 & H2 & H3). exists w1.
  assert (Hstep : step cfg (StepReady id s) w = Some (w1, Yields s)) by exact Hs.
  split; [assumption|]. split; [econstructor; eassumption|].
  split; [exact (step_sameElsewhere _ _ _ _ Hw Hstep)|]. auto.
Qed.

(** The consumer asks for the next step. *)
Lemma resume_round id now w f t :
  reachable cfg w ->
  frames w !! id = Some f -> point f = AtYield ->
  tasks w !! id = Some t ->
  exists w1 r, next cfg id now w = Some (w1, r) /\
    reachable cfg w1 /\ sameElsewhere id w w1 /\
    ((r = Pending /\ (iteration f < maxIterations cfg)%nat /\
      tasks w1 !! id = Some t /\
      frames w1 !! id = Some {| iteration := S (iteration f);
                                startTime := startTime f;
                                point := AwaitingStep |} /\
      concurrentTasks w1 = concurrentTasks w) \/
     (exists t', r = ReturnsTask t' /\ terminal (status t') /\
        steps t' = steps t /\ tasks w1 !! id = Some t' /\
        frames w1 !! id = None /\
        concurrentTasks w1 = concurrentTasks w - 1)).
Proof.
  intros Hw Hf Hp Ht.
  assert (Hfin : forall w0 w1 r, tasks w0 = tasks w -> frames w0 = frames w ->
            concurrentTasks w0 = concurrentTasks w ->
            finished id t w0 w1 r ->
            exists t', r = ReturnsTask t' /\ terminal (status t') /\
              steps t' = steps t /\ tasks w1 !! id = Some t' /\
              frames w1 !! id = None /\
              concurrentTasks w1 = concurrentTasks w - 1).
  { intros w0 w1 r E1 E2 E3 (t' & -> & Hterm & Hs & _ & Ht' & Hf' & Hc).
    exists t'. rewrite Ht', Hf', lookup_insert_eq, lookup_delete_eq.
    repeat split; auto. lia. }
  assert (Hn : exists w1 r, next cfg id now w = Some (w1, r) /\
            ((r = Pending /\ (iteration f < maxIterations cfg)%nat /\
              tasks w1 !! id = Some t /\
              frames w1 !! id = Some {| iteration := S (iteration f);
                                        startTime := startTime f;
                                        point := AwaitingStep |} /\
              concurrentTasks w1 = concurrentTasks w) \/
             (exists t', r = ReturnsTask t' /\ terminal (status t') /\
                steps t' = steps t /\ tasks w1 !! id = Some t' /\
                frames w1 !! id = None /\
                concurrentTasks w1 = concurrentTasks w - 1))).
  { unfold next. rewrite Hf, Ht, Hp.
    destruct (isTaskComplete t) as [b|msg].
    - match goal with
      | |- context [loopHead _ ?i ?t ?k ?b ?s ?n ?w0] =>
          destruct (loopHead_cases cfg i t k b s n w0)
            as [(_ & Hlt & Hr & Ht' & Hf' & Hc)|Hfin'];
          destruct (loopHead cfg i t k b s n w0) as [w1 r1]
      end; simpl in *; exists w1, r1; (split; [reflexivity|]).
      + left. rewrite Ht', Hf', !lookup_insert_eq. auto.
      + right. eapply Hfin; [| | |exact Hfin']; reflexivity.
    - eexists _, _. split; [reflexivity|]. right.
      eapply Hfin; [| | |apply catchBlock_finished]; reflexivity. }
  destruct Hn as (w1 & r & Hn & Hcases). exists w1, r.
  assert (Hstep : step cfg (Next id now) w = Some (w1, r)) by exact Hn.
  split; [assumption|]. split; [econstructor; eassumption|].
  split; [exact (step_sameElsewhere _ _ _ _ Hw Hstep)|]. assumption.
Qed.

(** A drained generator finishes: fuel for the iterations that are
    left is enough. *)
Lemma drain_ends id fuel : forall k sent w f t,
  reachable cfg w ->
  frames w !! id = Some f -> point f = AwaitingStep -> iteration f = S k ->
  tasks w !! id = Some t -> steps t = sent ->
  (maxIterations cfg - k <= fuel)%nat ->
  exists w' t',
    drain cfg stepAt timeAt fuel k id sent w = Some (w', steps t') /\
    reachable cfg w' /\ sameElsewhere id w w' /\
    tasks w' !! id = Some t' /\ terminal (status t') /\
    sent `prefix_of` steps t' /\
    frames w' !! id = None /\
    concurrentTasks w' = concurrentTasks w - 1.
Proof.
  induction fuel as [|fuel IH]; intros k sent w f t Hw Hf Hp Hit Ht Hs Hfuel.
  - destruct (inv_frame _ _ (reachable_Inv _ _ Hw) _ _ Hf) as (_ & _ & _ & Hb & _).
    lia.
  - destruct (await_round id (stepAt k) w f t Hw Hf Hp Ht)
      as (w1 & Hs1 & Hw1 & Hsame1 & Ht1 & Hf1 & Hc1).
    destruct (resume_round id (timeAt (S k)) w1 _ _ Hw1 Hf1 eq_refl Ht1)
      as (w2 & r & Hn & Hw2 & Hsame2 & Hcases).
    cbn [drain]. rewrite Hs1, Hn.
    destruct Hcases as [(-> & Hlt & Ht2 & Hf2 & Hc2)
                       |(t' & -> & Hterm & Hst & Ht2 & Hf2 & Hc2)].
    + simpl in Hlt, Hf2. rewrite Hit in Hf2, Hlt.
      destruct (IH (S k) (sent ++ [stepAt k])%list w2 _ _ Hw2 Hf2 eq_refl eq_refl Ht2)
        as (w' & t' & Hd & Hw' & Hsame' & Ht' & Hterm & Hpre & Hf' & Hc');
        [simpl; rewrite Hs; reflexivity | lia |].
      exists w', t'. split; [assumption|]. split; [assumption|].
      split; [eauto using sameElsewhere_trans|].
      split; [assumption|]. split; [assumption|].
      split; [etrans; [apply prefix_app_r; reflexivity|exact Hpre]|].
      split; [assumption|]. lia.
    + exists w2, t'. simpl in Hst. rewrite Hst, Hs.
      split; [reflexivity|]. split; [assumption|].
      split; [eauto using sameElsewhere_trans|].
      split; [assumption|]. split; [assumption|].
      split; [apply prefix_app_r; reflexivity|].
      split; [assumption|]. lia.
Qed.

(** The consumer closes the generator at a [yield]. *)
Lemma close_round id w f t :
  reachable cfg w ->
  frames w !! id = Some f -> point f = AtYield ->
  tasks w !! id = Some t ->
  exists w1, return_ id w = Some (w1, Closed) /\
    reachable cfg w1 /\ sameElsewhere id w w1 /\
    tasks w1 !! id = Some t /\ status t = running /\
    frames w1 !! id = None /\
    concurrentTasks w1 = concurrentTasks w - 1.
Proof.
  intros Hw Hf Hp Ht.
  destruct (inv_frame _ _ (reachable_Inv _ _ Hw) _ _ Hf) as (t0 & Ht0 & Hrun & _).
  rewrite Ht in Ht0. injection Ht0 as <-.
  assert (Hr : return_ id w = Some (finallyBlock id t w, Closed)).
  { unfold return_. rewrite Hf, Ht, Hp. reflexivity. }
  exists (finallyBlock id t w).
  assert (Hstep : step cfg (Return id) w = Some (finallyBlock id t w, Closed))
    by exact Hr.
  split; [assumption|]. split; [econstructor; eassumption|].
  split; [exact (step_sameElsewhere _ _ _ _ Hw Hstep)|].
  simpl. rewrite lookup_insert_eq, lookup_delete_eq. auto.
Qed.

(** The loop of the route ends within three steps. *)
Lemma collect_ends id fuel : forall k got w f t,
  reachable cfg w ->
  frames w !! id = Some f -> point f = AwaitingStep -> iteration f = S k ->
  tasks w !! id = Some t -> steps t = got ->
  (k < 3)%nat -> (3 - k <= fuel)%nat ->
  exists w' t',
    collect cfg stepAt timeAt fuel k id got w = Some (w', steps t') /\
    reachable cfg w' /\ sameElsewhere id w w' /\
    tasks w' !! id = Some t' /\
    frames w' !! id = None /\
    concurrentTasks w' = concurrentTasks w - 1 /\
    ((status t' = running /\ length (steps t') = 3%nat) \/
     (terminal (status t') /\ (length (steps t') < 3)%nat)).
Proof.
  induction fuel as [|fuel IH]; intros k got w f t Hw Hf Hp Hit Ht Hs Hk Hfuel;
    [lia|].
  destruct (inv_frame _ _ (reachable_Inv _ _ Hw) _ _ Hf) as (t0 & Ht0 & _ & _ & Hlen).
  rewrite Ht in Ht0. injection Ht0 as <-. rewrite Hp, Hit in Hlen. simpl in Hlen.
  destruct (await_round id (stepAt k) w f t Hw Hf Hp Ht)
    as (w1 & Hs1 & Hw1 & Hsame1 & Ht1 & Hf1 & Hc1).
  cbn [collect]. rewrite Hs1. cbv zeta.
  assert (Hgot : length (got ++ [stepAt k]) = S k).
  { rewrite length_app, <- Hs, Hlen. simpl. lia. }
  rewrite Hgot.
  destruct (3 <=? S k)%nat eqn:Hthree.
  - apply Nat.leb_le in Hthree.
    destruct (close_round id w1 _ _ Hw1 Hf1 eq_refl Ht1)
      as (w2 & Hr & Hw2 & Hsame2 & Ht2 & Hrun & Hf2 & Hc2).
    rewrite Hr. exists w2, (push_step (stepAt k) t).
    simpl. rewrite Hs.
    split; [reflexivity|]. split; [assumption|].
    split; [eauto using sameElsewhere_trans|].
    split; [assumption|]. split; [assumption|]. split; [lia|].
    left. split; [assumption|]. lia.
  - apply Nat.leb_gt in Hthree.
    destruct (resume_round id (timeAt (S k)) w1 _ _ Hw1 Hf1 eq_refl Ht1)
      as (w2 & r & Hn & Hw2 & Hsame2 & Hcases).
    rewrite Hn.
    destruct Hcases as [(-> & Hlt & Ht2 & Hf2 & Hc2)
                       |(t' & -> & Hterm & Hst & Ht2 & Hf2 & Hc2)].
    + simpl in Hf2. rewrite Hit in Hf2.
      destruct (IH (S k) (got ++ [stepAt k])%list w2 _ _ Hw2 Hf2 eq_refl eq_refl Ht2)
        as (w' & t' & Hd & Hw' & Hsame' & Ht' & Hf' & Hc' & Hend);
        [simpl; rewrite Hs; reflexivity | lia | lia |].
      exists w', t'. split; [assumption|]. split; [assumption|].
      split; [eauto using sameElsewhere_trans|].
      split; [assumption|]. split; [assumption|]. split; [lia|]. assumption.
    + exists w2, t'. simpl in Hst. rewrite Hst, Hs.
      split; [reflexivity|]. split; [assumption|].
      split; [eauto using sameElsewhere_trans|].
      split; [assumption|]. split; [assumption|]. split; [lia|].
      right. split; [assumption|]. lia.
Qed.

Lemma returnUndefined_finished id w :
  frames w !! id = None -> returnUndefined id w = Some (w, Closed).
Proof. intros H. unfold returnUndefined. rewrite H. reflexivity. Qed.

(** X11.  The handler of 'task:start' always runs the generator to its
    end, within [maxIterations] steps: the stored task is then
    [completed] or [failed], the steps passed on are its steps, its
    generator is gone and [concurrentTasks] is what it was before, and
    no other task was touched.  What the handler then sends as
    'task:completed' is the answer of [return(undefined)] on the
    finished generator, [{ value: undefined, done: true }], for a
    failed task as for a completed one. *)
Theorem taskStart_runs_to_the_end id req w fuel :
  reachable cfg w -> tasks w !! id = None ->
  (maxIterations cfg <= fuel)%nat ->
  exists w' t,
    taskStart cfg stepAt timeAt fuel id req w = Some (w', steps t, Closed) /\
    reachable cfg w' /\ sameElsewhere id w w' /\
    tasks w' !! id = Some t /\ terminal (status t) /\
    (length (steps t) <= maxIterations cfg)%nat /\
    frames w' !! id = None /\
    concurrentTasks w' = concurrentTasks w.
Proof.
  intros Hw Hid Hfuel. unfold taskStart.
  destruct (begin_round id req (timeAt 0) w Hw Hid)
    as (w1 & r & -> & Hw1 & Hsame1
        & [(-> & (t & Ht & Hs) & (f & Hf & Hp & Hit) & Hc)
          |(t' & -> & Hterm & Hs & Ht & Hf & Hc)]).
  - destruct (drain_ends id fuel 0 [] w1 f t Hw1 Hf Hp Hit Ht Hs)
      as (w' & t' & -> & Hw' & Hsame' & Ht' & Hterm & _ & Hf' & Hc'); [lia|].
    rewrite (returnUndefined_finished _ _ Hf').
    exists w', t'. split; [reflexivity|]. split; [assumption|].
    split; [eauto using sameElsewhere_trans|].
    split; [assumption|]. split; [assumption|].
    split; [apply (inv_task _ _ (reachable_Inv _ _ Hw') _ _ Ht')|].
    split; [assumption|]. lia.
  - cbn [fst snd]. rewrite (returnUndefined_finished _ _ Hf).
    exists w1, t'. rewrite Hs. split; [reflexivity|]. split; [assumption|].
    split; [assumption|]. split; [assumption|]. split; [assumption|].
    split; [simpl; lia|]. split; assumption.
Qed.

(** X12.  The route POST /api/tasks always answers, with at most three
    steps, and its answer never names the task: [id], [status] and
    [instruction] are undefined, since [return(undefined)] finds the
    generator finished.  When the answer is sent the generator is
    gone and [concurrentTasks] is what it was before; the stored task
    has the steps of the answer and is either [completed] or [failed]
    with fewer than three steps, or [running] with three steps, and
    in every later state it is that same task: nothing continues in
    the background. *)
Theorem postTasks_answers id req w fuel :
  reachable cfg w -> tasks w !! id = None -> (3 <= fuel)%nat ->
  exists w' t,
    postTasks cfg stepAt timeAt fuel id req w
    = Some (w', {| res_id := None; res_status := None;
                   res_steps := steps t; res_instruction := None |}) /\
    reachable cfg w' /\ sameElsewhere id w w' /\
    tasks w' !! id = Some t /\ frames w' !! id = None /\
    concurrentTasks w' = concurrentTasks w /\
    ((status t = running /\ length (steps t) = 3%nat) \/
     (terminal (status t) /\ (length (steps t) < 3)%nat)) /\
    forall ls w'' rs, run cfg ls w' = Some (w'', rs) ->
      tasks w'' !! id = Some t /\ frames w'' !! id = None.
Proof.
  intros Hw Hid Hfuel. unfold postTasks.
  destruct (begin_round id req (timeAt 0) w Hw Hid)
    as (w1 & r & -> & Hw1 & Hsame1
        & [(-> & (t & Ht & Hs) & (f & Hf & Hp & Hit) & Hc)
          |(t' & -> & Hterm & Hs & Ht & Hf & Hc)]).
  - destruct (collect_ends id fuel 0 [] w1 f t Hw1 Hf Hp Hit Ht Hs)
      as (w' & t' & -> & Hw' & Hsame' & Ht' & Hf' & Hc' & Hend); [lia|lia|].
    rewrite (returnUndefined_finished _ _ Hf').
    exists w', t'. split; [reflexivity|]. split; [assumption|].
    split; [eauto using sameElsewhere_trans|].
    split; [assumption|]. split; [assumption|]. split; [lia|].
    split; [assumption|].
    intros ls w'' rs Hrun.
    exact (finished_task_frozen_run cfg ls w' w'' rs id t'
             (reachable_Inv _ _ Hw') Ht' Hf' Hrun).
  - rewrite (returnUndefined_finished _ _ Hf).
    exists w1, t'. rewrite Hs. split; [reflexivity|]. split; [assumption|].
    split; [assumption|]. split; [assumption|]. split; [assumption|].
    split; [assumption|].
    split; [right; split; [assumption|simpl; lia]|].
    intros ls w'' rs Hrun.
    exact (finished_task_frozen_run cfg ls w1 w'' rs id t'
             (reachable_Inv _ _ Hw1) Ht Hf Hrun).
Qed.

End Facts.

(** X11 from the initial state, with the default configuration. *)
Lemma taskStart_runs_to_the_end_witness :
  exists w' t,
    taskStart defaultConfig stepAt0 timeAt0 15 "task-1" request initial
    = Some (w', steps t, Closed) /\ terminal (status t).
Proof.
  destruct (taskStart_runs_to_the_end defaultConfig stepAt0 timeAt0 "task-1"
              request initial 15)
    as (w' & t & H & _ & _ & _ & Ht & _).
  - constructor.
  - reflexivity.
  - simpl. lia.
  - exists w', t. auto.
Defined.

(** X12 from the initial state, with the default configuration. *)
Lemma postTasks_answers_witness :
  exists w' t,
    postTasks defaultConfig stepAt0 timeAt0 3 "task-1" request initial
    = Some (w', {| res_id := None; res_status := None;
                   res_steps := steps t; res_instruction := None |}) /\
    tasks w' !! "task-1" = Some t.
Proof.
  destruct (postTasks_answers defaultConfig stepAt0 timeAt0 "task-1"
              request initial 3)
    as (w' & t & H & _ & _ & Ht & _).
  - constructor.
  - reflexivity.
  - lia.
  - exists w', t. auto.
Defined.

End ConsumerFacts.


(** ** Properties of the registry *)

Module CatalogFacts.
Import Registry Catalog TextFacts.

Lemma mapGet_mapSet_eq k v m : mapGet k (mapSet k v m) = Some v.
Proof.
  unfold mapGet. induction m as [|[k' v'] m IH]; simpl.
  - rewrite String.eqb_refl. reflexivity.
  - destruct (String.eqb k' k) eqn:E; simpl.
    + rewrite String.eqb_refl. reflexivity.
    + rewrite E. exact IH.
Qed.

Lemma mapGet_mapSet_ne k k0 v m :
  k0 <> k -> mapGet k0 (mapSet k v m) = mapGet k0 m.
Proof.
  intros Hne. unfold mapGet. induction m as [|[k' v'] m IH]; simpl.
  - destruct (String.eqb_spec k k0); [congruence|reflexivity].
  - destruct (String.eqb_spec k' k) as [->|Hk]; simpl.
    + destruct (String.eqb_spec k k0); [congruence|reflexivity].
    + destruct (String.eqb k' k0); [reflexivity|exact IH].
Qed.

Lemma mapSet_keys k v m :
  map fst (mapSet k v m)
  = if bool_decide (k ∈ map fst m) then map fst m else (map fst m ++ [k])%list.
Proof.
  induction m as [|[k' v'] m IH]; simpl; [reflexivity|].
  destruct (String.eqb_spec k' k) as [->|Hk]; simpl.
  - rewrite bool_decide_eq_true_2 by constructor. reflexivity.
  - rewrite IH. destruct (bool_decide (k ∈ map fst m)) eqn:E.
    + apply bool_decide_eq_true in E.
      rewrite bool_decide_eq_true_2 by (constructor; assumption). reflexivity.
    + apply bool_decide_eq_false in E.
      rewrite bool_decide_eq_false_2; [reflexivity|].
      intros H. apply elem_of_cons in H as [H|H]; congruence.
Qed.

Lemma mapSet_named k v m :
  Forall (fun p => fst p = name (snd p)) m -> k = name v ->
  Forall (fun p => fst p = name (snd p)) (mapSet k v m).
Proof.
  intros Hm Hk. induction Hm as [|[k' v'] m Hp Hm IH]; simpl.
  - constructor; [assumption|constructor].
  - destruct (String.eqb k' k); constructor; auto.
Qed.

Lemma lookupMap_get m k : lookupMap m !! k = mapGet k m.
Proof.
  unfold lookupMap, mapGet. induction m as [|[k' v'] m IH]; simpl.
  - apply lookup_empty.
  - destruct (String.eqb_spec k' k) as [->|Hk]; simpl.
    + apply lookup_insert_eq.
    + rewrite lookup_insert_ne by assumption. exact IH.
Qed.

Lemma registry_snoc l tool :
  registry (l ++ [tool]) = registerTool tool (registry l).
Proof. unfold registry. rewrite fold_left_app. reflexivity. Qed.

Lemma mapGet_is_Some k m : is_Some (mapGet k m) <-> k ∈ map fst m.
Proof.
  unfold mapGet. induction m as [|[k' v'] m IH]; simpl.
  - split; [intros [? [=]]|intros H; inversion H].
  - destruct (String.eqb_spec k' k) as [->|Hk]; simpl.
    + split; [constructor|eauto].
    + rewrite IH. split; [constructor; assumption|].
      intros H. apply elem_of_cons in H as [H|H]; congruence.
Qed.

(** X13.  In a registry built by [registerTool], every tool is stored
    under its own name and no name occurs twice, so the names offered
    to the language model are distinct, their number is
    [getToolCount], and a name is offered exactly when some
    registration carried it.  [getTool] finds the tool that was
    registered last under the name, and it is this tool that
    [executeTool] looks up under an offered name. *)
Theorem registry_catalogue l :
  let m := registry l in
  NoDup (offeredNames m) /\
  length (offeredNames m) = getToolCount m /\
  (getToolCount m <= length l)%nat /\
  (forall n, getTool n m = lastNamed n l) /\
  (forall n, lookupMap m !! n = getTool n m) /\
  (forall n, n ∈ offeredNames m <-> exists tool, tool ∈ l /\ name tool = n) /\
  (forall n, n ∈ offeredNames m ->
     exists tool, lookupMap m !! n = Some tool /\ name tool = n).
Proof.
  intros m. subst m.
  assert (Hinv : Forall (fun p => fst p = name (snd p)) (registry l) /\
                 NoDup (map fst (registry l)) /\
                 (length (registry l) <= length l)%nat /\
                 (forall n, mapGet n (registry l) = lastNamed n l)).
  { induction l as [|tool l IH] using rev_ind.
    - repeat split; try constructor.
    - destruct IH as (Hn & Hd & Hlen & Hget). rewrite registry_snoc.
      unfold registerTool. split; [|split; [|split]].
      + apply mapSet_named; auto.
      + rewrite mapSet_keys.
        destruct (bool_decide (name tool ∈ map fst (registry l))) eqn:E;
          [assumption|].
        apply bool_decide_eq_false in E.
        apply NoDup_app. split; [assumption|].
        split; [|apply NoDup_singleton].
        intros x Hx Hx'. apply list_elem_of_singleton in Hx'. congruence.
      + pose proof (f_equal (@length _) (mapSet_keys (name tool) tool (registry l))) as Hk.
        rewrite !length_map in Hk. rewrite Hk, length_app. simpl.
        destruct (bool_decide _); rewrite ?length_app, ?length_map; simpl; lia.
      + intros n. unfold lastNamed. rewrite rev_app_distr. simpl.
        destruct (String.eqb_spec (name tool) n) as [<-|Hne].
        * apply mapGet_mapSet_eq.
        * rewrite mapGet_mapSet_ne by congruence. apply Hget. }
  destruct Hinv as (Hn & Hd & Hlen & Hget).
  assert (Hnames : offeredNames (registry l) = map fst (registry l)).
  { unfold offeredNames, getAllTools. rewrite map_map.
    apply map_ext_in. intros p Hp.
    rewrite List.Forall_forall in Hn. symmetry. apply Hn. assumption. }
  assert (Hoff : forall n, n ∈ offeredNames (registry l)
                           <-> exists tool, tool ∈ l /\ name tool = n).
  { intros n. rewrite Hnames, <- mapGet_is_Some, Hget. unfold lastNamed. split.
    - intros [tool Hf]. exists tool.
      pose proof (find_some _ _ Hf) as [Hin He].
      apply String.eqb_eq in He. split; [|assumption].
      apply list_elem_of_In. apply in_rev. assumption.
    - intros (tool & Hin & Hname).
      destruct (List.find _ (rev l)) as [t|] eqn:Hf; [eauto|].
      exfalso. apply list_elem_of_In, in_rev in Hin.
      pose proof (find_none _ _ Hf _ Hin) as Hnone. simpl in Hnone.
      rewrite Hname, String.eqb_refl in Hnone. discriminate. }
  split; [rewrite Hnames; assumption|].
  split; [unfold offeredNames, getAllTools, getToolCount;
          rewrite !length_map; reflexivity|].
  split; [assumption|]. split; [assumption|].
  split; [intros n; apply lookupMap_get|]. split; [assumption|].
  intros n Hin.
  rewrite Hnames, <- mapGet_is_Some in Hin. destruct Hin as [tool Htool].
  exists tool. rewrite lookupMap_get. split; [assumption|].
  unfold mapGet in Htool.
  destruct (List.find _ (registry l)) as [p|] eqn:Hf; [|discriminate].
  injection Htool as <-. pose proof (find_some _ _ Hf) as [Hin He].
  apply String.eqb_eq in He. rewrite List.Forall_forall in Hn.
  rewrite <- (Hn _ Hin). assumption.
Qed.

Local Ltac cases :=
  repeat match goal with
         | |- context [match ?x with _ => _ end] =>
             match type of x with
             | sumbool _ _ => fail 1
             | _ => destruct x eqn:?; simpl
             end
         | |- context [if ?x then _ else _] => destruct x eqn:?; simpl
         end.

(** X14.  Every invocation of [executeTool] records exactly one tool
    metric, as its last act and under the name it was called with, and
    the metric says 'success' exactly when the invocation returns a
    result whose [success] is true. *)
Theorem executeTool_one_metric tools toolName params context :
  let res := (executeTool tools toolName params context).1 in
  let calls := (executeTool tools toolName params context).2 in
  List.filter isToolMetric calls = [ToolMetric toolName (succeeded res)] /\
  last calls = Some (ToolMetric toolName (succeeded res)).
Proof.
  unfold executeTool, caught. cases; split; reflexivity.
Qed.

(** X15.  The registry never executes a tool that requires approval
    for a caller whose context is not approved, and such an invocation
    does not succeed.  The approval is looked at after the parameters:
    parameters that the schema refuses are answered with 'Invalid
    parameters', and only parameters that pass the schema and the
    tool's validator are answered with 'Tool requires approval'. *)
Theorem executeTool_without_approval tools toolName tool params context :
  tools !! toolName = Some tool -> requiresApproval tool = true ->
  truthyFlag (approved context) = false ->
  let res := (executeTool tools toolName params context).1 in
  let calls := (executeTool tools toolName params context).2 in
  ~ In (Executed toolName) calls /\ notSuccess res /\
  (forall message, parameters tool params = ParseError message ->
     res = Returns (failure ("Invalid parameters: " +:+ message))) /\
  (forall data, parameters tool params = ParseOk data -> accepted tool data ->
     res = Returns (failure "Tool requires approval") /\
     last calls = Some (ToolMetric toolName false)).
Proof.
  intros Htool Hreq Happ. unfold executeTool, caught, accepted.
  rewrite Htool, Hreq, Happ. simpl.
  destruct (parameters tool params) as [data|message]; simpl.
  - destruct (validate tool) as [validator|]; simpl.
    + destruct (validator data) as [v|e] eqn:Hvd; simpl.
      * destruct (valid v) eqn:Hv; simpl.
        -- split; [intros [[=]|[[=]|[[=]|[]]]]|].
           split; [reflexivity|]. split; [discriminate|].
           intros d [= <-] _. auto.
        -- split; [intros [[=]|[[=]|[[=]|[]]]]|].
           split; [reflexivity|]. split; [discriminate|].
           intros d [= <-] (v' & Hv' & Hvalid). congruence.
      * split; [intros [[=]|[[=]|[[=]|[]]]]|].
        split; [destruct (messageOf e); simpl; auto|].
        split; [discriminate|].
        intros d [= <-] (v' & Hv' & _). congruence.
    + split; [intros [[=]|[[=]|[]]]|].
      split; [reflexivity|]. split; [discriminate|].
      intros d [= <-] _. auto.
  - split; [intros [[=]|[[=]|[]]]|].
    split; [reflexivity|]. split; [intros m [= <-]; reflexivity|].
    discriminate.
Qed.

(** The validator of the built-in tool [exec] refuses a command exactly
    when one of the four dangerous texts occurs in it. *)
Lemma execValidate_refuses data command :
  field "command" data = Some (VString command) ->
  exists v, execValidate data = Returns v /\
    (valid v = false <->
     exists d pre post, In d dangerous /\ command = pre +:+ d +:+ post) /\
    (valid v = false ->
     errors v = Some ["Potentially dangerous command detected"]).
Proof.
  intros Hc. unfold execValidate. rewrite Hc. cbv zeta.
  destruct (existsb (fun cmd => includes command cmd) dangerous) eqn:He;
    (eexists; split; [reflexivity|]); cbn [valid errors negb].
  - split; [|reflexivity]. split; [|reflexivity]. intros _.
    apply existsb_exists in He as (d & Hin & Hinc).
    apply includes_spec in Hinc as (pre & post & ->). eauto.
  - split; [|discriminate]. split; [discriminate|].
    intros (d & pre & post & Hin & ->). exfalso.
    assert (H : existsb (fun cmd => includes (pre +:+ d +:+ post) cmd) dangerous = true).
    { apply existsb_exists. exists d. split; [assumption|].
      apply includes_spec. eauto. }
    congruence.
Qed.

(** X16.  A tool that carries the validator of the built-in tool
    [exec] never executes a command in which 'rm -rf /', 'sudo rm',
    'format' or 'dd if=' occurs, whatever the context says about
    approval: the invocation stops after the validator with the
    failure 'Validation failed: Potentially dangerous command
    detected'.  A command in which none of them occurs passes the
    validator. *)
Theorem exec_validator_blocks tools toolName tool params data context command :
  tools !! toolName = Some tool ->
  validate tool = Some execValidate ->
  parameters tool params = ParseOk data ->
  field "command" data = Some (VString command) ->
  let res := executeTool tools toolName params context in
  ((exists d pre post, In d dangerous /\ command = pre +:+ d +:+ post) ->
   res = (Returns (failure "Validation failed: Potentially dangerous command detected"),
          [SafeParsed toolName; Validated toolName; ToolMetric toolName false])) /\
  (~ (exists d pre post, In d dangerous /\ command = pre +:+ d +:+ post) ->
   accepted tool data /\
   (In (Executed toolName) res.2 <->
    requiresApproval tool && negb (truthyFlag (approved context)) = false)).
Proof.
  intros Htool Hval Hparse Hc.
  destruct (execValidate_refuses data command Hc) as (v & Hv & Hiff & Herr).
  unfold executeTool, accepted. rewrite Htool, Hparse, Hval, Hv. simpl.
  split.
  - intros Hd. apply Hiff in Hd. rewrite Hd, (Herr Hd). reflexivity.
  - intros Hnd. destruct (valid v) eqn:Hvalid.
    2:{ exfalso. apply Hnd, Hiff. reflexivity. }
    split; [eauto|].
    destruct (requiresApproval tool && negb (truthyFlag (approved context))); simpl.
    + split; [intros [[=]|[[=]|[[=]|[]]]]|discriminate].
    + split; [reflexivity|]. intros _.
      destruct (execute tool data context) as [r|e]; unfold caught; simpl; auto.
Qed.

(** X16 for a command that removes a folder as the superuser. *)
Lemma exec_validator_blocks_witness :
  (executeTool someTools "exec" riskyCommand plannerContext).1
  = Returns (failure "Validation failed: Potentially dangerous command detected").
Proof.
  assert (Htool : someTools !! "exec" = Some execTool)
    by (vm_compute; reflexivity).
  destruct (exec_validator_blocks someTools "exec" execTool riskyCommand
              riskyCommand plannerContext "sudo rm -rf /tmp/cache"
              Htool eq_refl eq_refl eq_refl)
    as [H _].
  rewrite H; [reflexivity|].
  exists "sudo rm", EmptyString, " -rf /tmp/cache".
  split; [right; left; reflexivity|reflexivity].
Defined.

(** X15 for the built-in tool [exec] and a context without approval. *)
Lemma executeTool_without_approval_witness :
  (executeTool someTools "exec" harmlessCommand
     {| ctx_taskId := Some "task-1"; approved := None |}).1
  = Returns (failure "Tool requires approval").
Proof.
  assert (Htool : someTools !! "exec" = Some execTool)
    by (vm_compute; reflexivity).
  destruct (executeTool_without_approval someTools "exec" execTool harmlessCommand
              {| ctx_taskId := Some "task-1"; approved := None |}
              Htool eq_refl eq_refl)
    as (_ & _ & _ & H).
  destruct (H harmlessCommand) as [Hres _]; [reflexivity| |exact Hres].
  eexists. split; vm_compute; reflexivity.
Defined.


(** X13 for a tool that is registered twice. *)
Lemma registry_catalogue_witness :
  let m := registry [probeTool; execTool; probeTool'] in
  getTool "probe" m = Some probeTool' /\ (getToolCount m <= 3)%nat.
Proof.
  intros m.
  destruct (registry_catalogue [probeTool; execTool; probeTool'])
    as (_ & _ & Hcount & Hget & _).
  split; [|exact Hcount].
  exact (Hget "probe").
Defined.

(** X14 for a tool whose [execute] throws. *)
Lemma executeTool_one_metric_witness :
  last (executeTool someTools "probe" VNull plannerContext).2
  = Some (ToolMetric "probe" false).
Proof.
  exact (proj2 (executeTool_one_metric someTools "probe" VNull plannerContext)).
Defined.

End CatalogFacts.


(** ** More properties of the language-model client *)

Module ClientFacts.
Import LLM Models LLMFacts.

Section Facts.
Context (stringify : list Message -> option (list string) -> string -> string).
Context (cfg : Config).

(** X17.  Whatever the provider does, a call of [chat] changes no
    cache entry but the one of its own key, and stores nothing when it
    ends in an error: a streaming call then leaves the cache as it
    was, and a call that is not streaming leaves it as it was but for
    the entry of its own key, which its lookup has deleted if it had
    expired.  The call requests an initial part of the list of models,
    each model once and in order, and records at most one metric for
    each request.  A response for which no model was requested comes
    from the cache. *)
Theorem chat_frame provider now later messages tools stream cl :
  let key := getCacheKey stringify cfg messages tools in
  let models := openRouterModel cfg :: fallbackModels cfg in
  let res := chat stringify cfg provider now later messages tools stream cl in
  (forall k, k <> key -> cache res.1 !! k = cache cl !! k) /\
  (forall e, res.2 = Error e ->
     cache res.1 = (if stream then cache cl else delete key (cache cl)) /\
     forall k v, cache res.1 !! k = Some v -> cache cl !! k = Some v) /\
  exists pre, pre `prefix_of` models /\
    requests res.1 = (requests cl ++ pre)%list /\
    (length (metrics res.1) <= length (metrics cl) + length pre)%nat /\
    (forall r, res.2 = Response r -> pre = [] ->
       stream = false /\ cacheGet key now (cache cl) = Some r /\ res.1 = cl).
Proof.
  intros key models res. subst res. unfold chat. fold key. fold models.
  destruct (if stream then None else cacheGet key now (cache cl)) as [cached|] eqn:Hget.
  - simpl. split; [auto|]. split; [discriminate|].
    exists []. rewrite app_nil_r. split; [apply prefix_nil|].
    split; [reflexivity|]. split; [lia|].
    intros r [= <-] _. destruct stream; [discriminate|auto].
  - set (cl0 := if stream then cl else afterMiss key now cl).
    destruct (tryModels_frame provider key stream later models None cl0)
      as (Hk & He & pre & Hpre & Hreq & Hlen & Hne).
    assert (Hr0 : requests cl0 = requests cl)
      by (subst cl0; destruct stream; reflexivity).
    assert (Hm0 : metrics cl0 = metrics cl)
      by (subst cl0; destruct stream; reflexivity).
    split; [|split].
    + intros k Hne'. rewrite (Hk k Hne'). subst cl0.
      destruct stream; [reflexivity|]. simpl.
      apply cacheAfterGet_other. assumption.
    + intros e Herr. rewrite (He e Herr). subst cl0.
      destruct stream; [auto|]. simpl.
      rewrite (cacheAfterGet_miss _ _ _ Hget).
      split; [reflexivity|].
      intros k v Hv. apply lookup_delete_Some in Hv as [_ Hv]. exact Hv.
    + exists pre. split; [assumption|]. rewrite <- Hr0, <- Hm0.
      split; [assumption|]. split; [assumption|].
      intros r _ Hnil. exfalso. apply Hne; [discriminate|assumption].
Qed.

(** X18.  When a streaming call reaches a model whose stream breaks
    while it is read, the error leaves [chat] as it is: no failure
    metric is recorded for that model, no further model is asked even
    if the error has a status that would otherwise be retried, and the
    cache stays as it was. *)
Theorem stream_failure_escapes provider now later messages tools cl pre model post e :
  openRouterModel cfg :: fallbackModels cfg = (pre ++ model :: post)%list ->
  Forall (transient provider) pre ->
  provider model = StreamFails e ->
  let res := chat stringify cfg provider now later messages tools true cl in
  res.2 = Error e /\
  requests res.1 = (requests cl ++ pre ++ [model])%list /\
  metrics res.1 = (metrics cl ++ failureMetrics pre)%list /\
  cache res.1 = cache cl.
Proof.
  intros Hmodels Hpre Hp res. subst res. unfold chat. rewrite Hmodels.
  rewrite tryModels_skips by assumption. cbn [tryModels]. rewrite Hp. simpl.
  rewrite <- app_assoc. auto.
Qed.

End Facts.

(** X18 at a rate-limit error that arrives while the stream of the
    primary model is read. *)
Lemma stream_failure_escapes_witness :
  let res := chat render defaultConfig brokenStream 0 0 conversation None true fresh in
  res.2 = Error rateLimited /\ shouldRetry rateLimited = true /\
  requests res.1 = [primary] /\ metrics res.1 = [].
Proof.
  intros res.
  destruct (stream_failure_escapes render defaultConfig brokenStream 0 0
              conversation None fresh [] primary
              (fallbackModels defaultConfig) rateLimited eq_refl
              (List.Forall_nil _) eq_refl)
    as (H1 & H2 & H3 & _).
  split; [exact H1|]. split; [reflexivity|]. split; [exact H2|exact H3].
Defined.


(** *** The list of fallback models *)

Lemma without_app c a b : without c (a +:+ b) = without c a && without c b.
Proof.
  induction a as [|x a IH]; [reflexivity|].
  rewrite TextFacts.append_cons. cbn [without]. rewrite IH.
  rewrite andb_assoc. reflexivity.
Qed.

Lemma splitOn_nonempty sep s : splitOn sep s <> [].
Proof.
  destruct s as [|c r]; cbn [splitOn]; [discriminate|].
  destruct (Ascii.eqb c sep); [discriminate|].
  destruct (splitOn sep r); discriminate.
Qed.

Lemma splitOn_without sep s :
  Forall (fun x => without sep x = true) (splitOn sep s).
Proof.
  induction s as [|c r IH]; cbn [splitOn].
  - repeat constructor.
  - destruct (Ascii.eqb c sep) eqn:E.
    + constructor; [reflexivity|assumption].
    + destruct (splitOn sep r) as [|x xs].
      * repeat constructor. cbn [without]. rewrite E. reflexivity.
      * inversion IH as [|? ? Hx Hxs]; subst.
        constructor; [|assumption]. cbn [without]. rewrite E, Hx. reflexivity.
Qed.

Lemma splitOn_single sep x : without sep x = true -> splitOn sep x = [x].
Proof.
  induction x as [|c x IH]; [reflexivity|].
  cbn [without splitOn]. intros H. apply andb_true_iff in H as [Hc Hx].
  apply negb_true_iff in Hc. rewrite Hc, (IH Hx). reflexivity.
Qed.

Lemma splitOn_cons sep x r :
  without sep x = true ->
  splitOn sep (x +:+ String sep r) = x :: splitOn sep r.
Proof.
  induction x as [|c x IH].
  - intros _. change (EmptyString +:+ String sep r) with (String sep r).
    cbn [splitOn]. rewrite Ascii.eqb_refl. reflexivity.
  - cbn [without]. intros H. apply andb_true_iff in H as [Hc Hx].
    apply negb_true_iff in Hc.
    rewrite TextFacts.append_cons. cbn [splitOn]. rewrite Hc, (IH Hx). reflexivity.
Qed.

Lemma splitOn_join names :
  names <> [] -> Forall (fun n => without "," n = true) names ->
  splitOn "," (join "," names) = names.
Proof.
  induction names as [|x names IH]; [congruence|]. intros _ Hall.
  inversion Hall as [|? ? Hx Hrest]; subst.
  destruct names as [|y names].
  - simpl. apply splitOn_single. assumption.
  - change (join "," (x :: y :: names))
      with (x +:+ String ","%char (join "," (y :: names))).
    rewrite splitOn_cons by assumption. rewrite IH; [reflexivity|discriminate|assumption].
Qed.

Lemma trim_without c s : without c s = true -> without c (Text.trim s) = true.
Proof.
  intros H. destruct (GenerateFacts.trim_substring s) as (p & q & Hs).
  rewrite Hs, !without_app in H.
  apply andb_true_iff in H as [_ H]. apply andb_true_iff in H as [H _]. exact H.
Qed.

Lemma length_positive m : (0 <? String.length m)%nat = true <-> m <> EmptyString.
Proof.
  destruct m; simpl; split; intros H; try congruence; try reflexivity.
  discriminate.
Qed.

(** X19.  The list of fallback models read from the configuration
    holds no empty name, no name with white space at its ends and no
    name with a comma; the text with the names separated by commas
    gives back the names, and an empty text gives no fallback model. *)
Theorem parseFallbackModels_names s :
  Forall modelName (parseFallbackModels s) /\
  (forall names, Forall modelName names ->
     parseFallbackModels (join "," names) = names) /\
  parseFallbackModels EmptyString = [].
Proof.
  split; [|split; [|reflexivity]].
  - unfold parseFallbackModels. apply List.Forall_forall. intros m Hin.
    apply filter_In in Hin as [Hin Hlen].
    apply in_map_iff in Hin as (x & <- & Hx).
    pose proof (splitOn_without "," s) as Hw.
    rewrite List.Forall_forall in Hw.
    split; [apply length_positive; assumption|].
    split; [apply GenerateFacts.trim_idem|].
    apply trim_without. apply Hw. assumption.
  - intros names Hall. unfold parseFallbackModels.
    destruct names as [|x names]; [reflexivity|].
    rewrite splitOn_join; [|discriminate|].
    2:{ eapply List.Forall_impl; [|exact Hall]. intros n (_ & _ & H). exact H. }
    induction Hall as [|n ns (Hne & Htrim & _) _ IH]; [reflexivity|].
    cbn [map List.filter]. rewrite Htrim.
    apply length_positive in Hne. rewrite Hne. f_equal. exact IH.
Qed.


(** X17 when the key is refused at the time 2000 and the cache holds
    an entry for the request that expired at the time 1000: the call
    stores nothing, and its lookup has deleted the entry. *)
Lemma chat_frame_witness :
  let key := render conversation None primary in
  let res := chat render defaultConfig keyRefused 2000 2001 conversation None
                  false staleClient in
  cache staleClient !! key = Some (answer, 1000) /\
  res.2 = Error unauthorized /\
  cache res.1 !! key = None.
Proof.
  intros key res.
  assert (Hres : res.2 = Error unauthorized) by (vm_compute; reflexivity).
  destruct (chat_frame render defaultConfig keyRefused 2000 2001 conversation
              None false staleClient) as (_ & H & _).
  destruct (H unauthorized Hres) as [Hcache _].
  split; [vm_compute; reflexivity|]. split; [exact Hres|].
  fold res in Hcache. rewrite Hcache. apply lookup_delete_eq.
Defined.

(** X19 for the two fallback models of the default configuration. *)
Lemma parseFallbackModels_names_witness :
  parseFallbackModels (join "," ["openai/gpt-4o"; "anthropic/claude-3-haiku"])
  = ["openai/gpt-4o"; "anthropic/claude-3-haiku"].
Proof.
  destruct (parseFallbackModels_names EmptyString) as (_ & H & _).
  apply H. repeat constructor; vm_compute; congruence.
Defined.

End ClientFacts.


(** ** Properties of the events of the approval broker *)

Module ApprovalFacts.
Import Broker Approvals BrokerFacts.

Lemma eventsOf_app i a b :
  eventsOf i (a ++ b) = (eventsOf i a ++ eventsOf i b)%list.
Proof. apply List.filter_app. Qed.

Lemma exec_emitted o st :
  emitted (exec o st).1 = (emitted st ++ emits o st)%list.
Proof.
  destruct o as [request|j|j reason|j]; simpl.
  - reflexivity.
  - unfold approveAction. destruct (approvalQueue st !! j); simpl;
      [reflexivity|rewrite app_nil_r; reflexivity].
  - unfold denyAction. destruct (approvalQueue st !! j); simpl;
      [reflexivity|rewrite app_nil_r; reflexivity].
  - unfold timerFires. destruct (approvalQueue st !! j); simpl;
      rewrite app_nil_r; reflexivity.
Qed.

Lemma emits_target i o st : target o <> i -> eventsOf i (emits o st) = [].
Proof.
  intros Hne.
  destruct o as [request|j|j reason|j]; simpl in *;
    try destruct (approvalQueue st !! j); simpl;
    rewrite ?bool_decide_eq_false_2 by assumption; reflexivity.
Qed.

Lemma resolver_target i o : target o <> i -> resolver i o = None /\ otherRequest i o.
Proof.
  intros Hne. destruct o as [request|j|j reason|j]; simpl in *;
    rewrite ?decide_False by assumption; auto.
Qed.

Lemma Phase_exec o st i :
  keyed st -> Phase st i ->
  (forall request, o = Request request -> id request = i ->
     view st i = (None, [], []) /\ eventsOf i (emitted st) = []) ->
  Phase (exec o st).1 i.
Proof.
  intros Hk Hph Hfresh.
  destruct (decide (target o = i)) as [Ht|Hne].
  2:{ destruct (resolver_target i o Hne) as [Hres Hoth].
      destruct (exec_other i o st Hk Hres Hoth) as [Hv _].
      assert (He : eventsOf i (emitted (exec o st).1) = eventsOf i (emitted st)).
      { rewrite exec_emitted, eventsOf_app, emits_target, app_nil_r by assumption.
        reflexivity. }
      destruct Hph as [H1 H2|request H1 Hid H2|H1 H2|reason H1 H2|H1 H2];
        [apply unused|apply (waiting _ _ request)|apply approved_
        |apply (denied _ _ reason)|apply timedOut]; congruence. }
  destruct o as [request|j|j reason|j]; simpl in Ht; subst.
  - destruct (Hfresh request eq_refl eq_refl) as [Hv He].
    apply (waiting _ _ request); [|reflexivity|].
    + unfold view in *. simpl. rewrite lookup_insert_eq. congruence.
    + rewrite exec_emitted, eventsOf_app, He. simpl.
      rewrite bool_decide_eq_true_2 by reflexivity. reflexivity.
  - destruct (approvalQueue st !! i) as [request|] eqn:Hq.
    + destruct (exec_first i (Approve i) st request true Hk Hq) as [Hv _].
      { simpl. rewrite decide_True by reflexivity. reflexivity. }
      simpl decision in Hv. rewrite bool_decide_eq_true_2 in Hv by reflexivity.
      destruct Hph as [H1 H2|request' H1 Hid H2|H1 H2|reason H1 H2|H1 H2];
        unfold view in H1; rewrite Hq in H1; try discriminate.
      injection H1 as _ Hr Hc. rewrite Hr, Hc in Hv. simpl in Hv.
      apply approved_; [exact Hv|].
      rewrite exec_emitted, eventsOf_app, H2. simpl. rewrite Hq. simpl.
      rewrite bool_decide_eq_true_2 by reflexivity. reflexivity.
    + assert (Hsame : (exec (Approve i) st).1 = st).
      { simpl. unfold approveAction. rewrite Hq. reflexivity. }
      rewrite Hsame. assumption.
  - destruct (approvalQueue st !! i) as [request|] eqn:Hq.
    + destruct (exec_first i (Deny i reason) st request false Hk Hq) as [Hv _].
      { simpl. rewrite decide_True by reflexivity. reflexivity. }
      simpl decision in Hv. rewrite bool_decide_eq_true_2 in Hv by reflexivity.
      destruct Hph as [H1 H2|request' H1 Hid H2|H1 H2|reason' H1 H2|H1 H2];
        unfold view in H1; rewrite Hq in H1; try discriminate.
      injection H1 as _ Hr Hc. rewrite Hr, Hc in Hv. simpl in Hv.
      apply (denied _ _ reason); [exact Hv|].
      rewrite exec_emitted, eventsOf_app, H2. simpl. rewrite Hq. simpl.
      rewrite bool_decide_eq_true_2 by reflexivity. reflexivity.
    + assert (Hsame : (exec (Deny i reason) st).1 = st).
      { simpl. unfold denyAction. rewrite Hq. reflexivity. }
      rewrite Hsame. assumption.
  - destruct (approvalQueue st !! i) as [request|] eqn:Hq.
    + destruct (exec_first i (TimerFires i) st request false Hk Hq) as [Hv _].
      { simpl. rewrite decide_True by reflexivity. reflexivity. }
      simpl decision in Hv.
      destruct Hph as [H1 H2|request' H1 Hid H2|H1 H2|reason' H1 H2|H1 H2];
        unfold view in H1; rewrite Hq in H1; try discriminate.
      injection H1 as _ Hr Hc. rewrite Hr, Hc in Hv. simpl in Hv.
      apply timedOut; [exact Hv|].
      rewrite exec_emitted, eventsOf_app, H2. simpl. reflexivity.
    + assert (Hsame : (exec (TimerFires i) st).1 = st).
      { simpl. unfold timerFires. rewrite Hq. reflexivity. }
      rewrite Hsame. assumption.
Qed.

Lemma unused_exec o st i :
  keyed st -> otherRequest i o ->
  view st i = (None, [], []) /\ eventsOf i (emitted st) = [] ->
  view (exec o st).1 i = (None, [], []) /\ eventsOf i (emitted (exec o st).1) = [].
Proof.
  intros Hk Hoth [Hv He].
  assert (Hq : approvalQueue st !! i = None) by (unfold view in Hv; congruence).
  destruct (decide (target o = i)) as [Ht|Hne].
  - destruct o as [request|j|j reason|j]; simpl in Ht, Hoth; [congruence| | |];
      subst j; simpl;
      unfold approveAction, denyAction, timerFires; rewrite Hq; auto.
  - destruct (resolver_target i o Hne) as [Hres _].
    destruct (exec_other i o st Hk Hres Hoth) as [Hv' _].
    rewrite Hv', exec_emitted, eventsOf_app, emits_target, app_nil_r by assumption.
    auto.
Qed.

Lemma run_cons_state o os st :
  (run (o :: os) st).1 = (run os (exec o st).1).1.
Proof.
  cbn [run]. destruct (exec o st) as [st1 r1]. simpl.
  destruct (run os st1); reflexivity.
Qed.

Lemma Phase_run os : forall st,
  keyed st -> (forall i, Phase st i) ->
  NoDup (requested os) ->
  (forall i, i ∈ requested os ->
     view st i = (None, [], []) /\ eventsOf i (emitted st) = []) ->
  forall i, Phase (run os st).1 i.
Proof.
  induction os as [|o os IH]; intros st Hk Hph Hnd Hfresh i; [apply Hph|].
  rewrite run_cons_state.
  assert (Hrest : NoDup (requested os) /\
                  forall j, j ∈ requested os ->
                    otherRequest j o /\ j ∈ requested (o :: os)).
  { destruct o as [request|j|j reason|j]; simpl in *;
      try (split; [assumption|]; intros j0 Hj; split; [exact I|assumption]).
    apply NoDup_cons in Hnd as [Hnot Hnd]. split; [assumption|].
    intros j Hj. split; [congruence|constructor; assumption]. }
  destruct Hrest as [Hnd' Hrest].
  apply IH; [apply keyed_exec; assumption| |assumption|].
  - intros j. apply Phase_exec; auto.
    intros request -> <-. apply Hfresh. simpl. constructor.
  - intros j Hj. destruct (Hrest j Hj) as [Hoth Hin].
    apply unused_exec; auto.
Qed.

Lemma Phase_empty i : Phase empty i.
Proof. apply unused; reflexivity. Qed.

(** X20.  The events of the broker tell what happened to a request.
    When the requests have ids of their own, after any operations in
    any order every id is in one of five states: not used, with no
    event; waiting in the queue, with the event 'approval:requested';
    approved, out of the queue and resolved with [true] through its
    callback, with the events 'approval:requested' and
    'approval:granted'; denied, resolved with [false] through its
    callback, with 'approval:requested' and 'approval:denied' and the
    reason given; or timed out, resolved with [false] without its
    callback and with no event but 'approval:requested'.  So a timeout
    is silent, and 'approval:granted' is emitted for a request exactly
    when its promise resolved with [true]. *)
Theorem approval_events_follow_state os i :
  NoDup (requested os) ->
  let final := (run os empty).1 in
  Phase final i /\
  ((ApprovalGranted i ∈ emitted final) <-> settled final i = Some true) /\
  (settled final i = Some false ->
   (ApprovalGranted i ∉ emitted final) /\
   ((exists reason, ApprovalDenied i reason ∈ emitted final) <->
    callsOf (callbackCalls final) i = [false])).
Proof.
  intros Hnd final.
  assert (Hph : Phase final i).
  { apply Phase_run; auto using keyed_empty, Phase_empty. }
  assert (Hin : forall e, e ∈ emitted final -> eventId e = i ->
                          e ∈ eventsOf i (emitted final)).
  { intros e He Hid. unfold eventsOf. apply list_elem_of_In, filter_In.
    split; [apply list_elem_of_In; assumption|].
    apply bool_decide_eq_true_2. assumption. }
  assert (Hout : forall e, e ∈ eventsOf i (emitted final) -> e ∈ emitted final).
  { intros e He. unfold eventsOf in He.
    apply list_elem_of_In, filter_In in He as [He _].
    apply list_elem_of_In. assumption. }
  split; [assumption|].
  unfold settled.
  destruct Hph as [H1 H2|request H1 Hid H2|H1 H2|reason H1 H2|H1 H2];
    unfold view in H1; injection H1 as Hq Hr Hc; rewrite Hr, ?Hc; simpl.
  - split; [split; [|discriminate]|discriminate].
    intros He. apply Hin in He; [|reflexivity]. rewrite H2 in He. inversion He.
  - split; [split; [|discriminate]|discriminate].
    intros He. apply Hin in He; [|reflexivity]. rewrite H2 in He.
    apply list_elem_of_singleton in He. discriminate.
  - split; [|discriminate]. split; [reflexivity|]. intros _.
    apply Hout. rewrite H2. right. left.
  - split; [split; [|discriminate]|].
    + intros He. apply Hin in He; [|reflexivity]. rewrite H2 in He.
      apply elem_of_cons in He as [He|He]; [discriminate|].
      apply list_elem_of_singleton in He. discriminate.
    + intros _. split.
      * intros He. apply Hin in He; [|reflexivity]. rewrite H2 in He.
        apply elem_of_cons in He as [He|He]; [discriminate|].
        apply list_elem_of_singleton in He. discriminate.
      * split; [reflexivity|]. intros _. exists reason.
        apply Hout. rewrite H2. right. left.
  - split; [split; [|discriminate]|].
    + intros He. apply Hin in He; [|reflexivity]. rewrite H2 in He.
      apply list_elem_of_singleton in He. discriminate.
    + intros _. split.
      * intros He. apply Hin in He; [|reflexivity]. rewrite H2 in He.
        apply list_elem_of_singleton in He. discriminate.
      * split; [|discriminate]. intros [reason He].
        apply Hin in He; [|reflexivity]. rewrite H2 in He.
        apply list_elem_of_singleton in He. discriminate.
Qed.

(** X20 at the race between the timer and a late decision: the first
    request timed out, and no event says so. *)
Lemma approval_events_follow_state_witness :
  let final := (run (Request lateRequest :: raceOps) empty).1 in
  settled final "approval-1" = Some false /\
  (ApprovalGranted "approval-1" ∉ emitted final).
Proof.
  intros final.
  assert (Hnd : NoDup (requested (Request lateRequest :: raceOps))).
  { apply NoDup_ListNoDup. vm_compute.
    constructor; [intros [[=]|[]]|]. constructor; [intros []|constructor]. }
  destruct (approval_events_follow_state (Request lateRequest :: raceOps)
              "approval-1" Hnd) as (_ & _ & H).
  assert (Hs : settled final "approval-1" = Some false) by (vm_compute; reflexivity).
  split; [exact Hs|]. exact (proj1 (H Hs)).
Defined.

End ApprovalFacts.
